(** * Verification of the educational C compiler pipeline

    Shallow embedding of the TypeScript sources of the compiler:
    - [src/new-edu-main/src/utils/codeOptimizer.ts]   (the TAC optimizer)
    - [src/new-edu-main/src/lib/compiler/intermediateCodeGenerator.ts]
    - [src/new-edu-main/src/utils/codeGenerator.ts]   (the assembly emitter)
    - [src/unnamed/part_000]  (minimal semantic analyzer, lexer, parser)
    - [src/unnamed/part_001]  (scoped semantic analyzer)

    JavaScript strings that hold names and operands are modelled as
    [string] (code units 0..255); the lexer works on UTF-16 code units
    ([list N]).  JavaScript [null] and [undefined] are
    [JNull] and [JUndefined]; an absent optional field is [None]. *)

From Stdlib Require Import String Ascii List Bool Arith Lia ZArith NArith.
From Stdlib Require Import Permutation.
Import ListNotations.
Open Scope string_scope.
Open Scope list_scope.

(* ------------------------------------------------------------------ *)
(** ** Small JavaScript helpers *)

Definition str_eqb (a b : string) : bool := String.eqb a b.

(** [s.startsWith(p)] *)
Fixpoint starts_with (p s : string) : bool :=
  match p, s with
  | EmptyString, _ => true
  | String c p', String d s' => Ascii.eqb c d && starts_with p' s'
  | String _ _, EmptyString => false
  end.

(** Decimal rendering of a natural number ([n.toString()]). *)
Fixpoint digits_of_nat_aux (fuel n : nat) (acc : string) : string :=
  match fuel with
  | O => acc
  | S f =>
      let d := ascii_of_nat (48 + n mod 10) in
      let q := n / 10 in
      if Nat.eqb q 0 then String d acc else digits_of_nat_aux f q (String d acc)
  end.

Definition string_of_nat (n : nat) : string := digits_of_nat_aux (S n) n EmptyString.

Definition string_of_Z (z : Z) : string :=
  match z with
  | Z.neg p => String "-" (string_of_nat (Pos.to_nat p))
  | _ => string_of_nat (Z.to_nat z)
  end.

(** A JavaScript value held in a TAC operand field: a string, [null], or
    [undefined] (read from a property the AST node does not have). *)
Inductive jsval := JStr (s : string) | JNull | JUndefined.
Coercion JStr : string >-> jsval.

(** Strict equality [===] on such values. *)
Definition jsv_eqb (a b : jsval) : bool :=
  match a, b with
  | JStr x, JStr y => str_eqb x y
  | JNull, JNull | JUndefined, JUndefined => true
  | _, _ => false
  end.

(** Template-literal rendering [`${x}`]. *)
Definition js_str (x : jsval) : string :=
  match x with JStr s => s | JNull => "null" | JUndefined => "undefined" end.

(** JavaScript truthiness. *)
Definition truthy (x : jsval) : bool :=
  match x with JStr EmptyString | JNull | JUndefined => false | JStr _ => true end.

(** *** [isNaN(Number(x))]

    [Number(null)] is [0], [Number(undefined)] is [NaN]; [Number(s)] is [NaN] exactly when [s] is not a
    StringNumericLiteral (ECMA-262 7.1.4.1.1): optional white space around
    an unsigned or signed decimal literal, [Infinity], or a [0x]/[0o]/[0b]
    integer; the empty (or all white space) string is [0]. *)
Definition is_js_ws (c : ascii) : bool :=
  let n := nat_of_ascii c in
  (Nat.eqb n 9) || (Nat.eqb n 10) || (Nat.eqb n 11) || (Nat.eqb n 12) || (Nat.eqb n 13) || (Nat.eqb n 32)
  || (Nat.eqb n 160).

Definition is_digit (c : ascii) : bool :=
  let n := nat_of_ascii c in (Nat.leb 48 n) && (Nat.leb n 57).

Definition is_hex_digit (c : ascii) : bool :=
  let n := nat_of_ascii c in
  is_digit c || ((Nat.leb 65 n) && (Nat.leb n 70)) || ((Nat.leb 97 n) && (Nat.leb n 102)).

Definition is_oct_digit (c : ascii) : bool :=
  let n := nat_of_ascii c in (Nat.leb 48 n) && (Nat.leb n 55).

Definition is_bin_digit (c : ascii) : bool :=
  let n := nat_of_ascii c in (Nat.leb 48 n) && (Nat.leb n 49).

Fixpoint span {A} (p : A -> bool) (l : list A) : list A * list A :=
  match l with
  | [] => ([], [])
  | x :: r => if p x then let (a, b) := span p r in (x :: a, b) else ([], l)
  end.

Definition some_all (p : ascii -> bool) (l : list ascii) : bool :=
  match l with [] => false | _ => forallb p l end.

Definition exponent_opt (l : list ascii) : bool :=
  match l with
  | [] => true
  | e :: r =>
      (Ascii.eqb e "e" || Ascii.eqb e "E") &&
      match r with
      | s :: r' => if Ascii.eqb s "+" || Ascii.eqb s "-" then some_all is_digit r'
                   else some_all is_digit r
      | [] => false
      end
  end.

Definition unsigned_decimal (l : list ascii) : bool :=
  if str_eqb (string_of_list_ascii l) "Infinity" then true else
  let (d1, r1) := span is_digit l in
  match d1, r1 with
  | [], "."%char :: r2 => let (d2, r3) := span is_digit r2 in
                     negb (match d2 with [] => true | _ => false end) && exponent_opt r3
  | [], _ => false
  | _, "."%char :: r2 => let (_, r3) := span is_digit r2 in exponent_opt r3
  | _, _ => exponent_opt r1
  end.

Definition numeric_literal (l : list ascii) : bool :=
  match l with
  | "0"%char :: x :: r =>
      if Ascii.eqb x "x" || Ascii.eqb x "X" then some_all is_hex_digit r
      else if Ascii.eqb x "o" || Ascii.eqb x "O" then some_all is_oct_digit r
      else if Ascii.eqb x "b" || Ascii.eqb x "B" then some_all is_bin_digit r
      else unsigned_decimal l
  | s :: r => if Ascii.eqb s "+" || Ascii.eqb s "-" then unsigned_decimal r
              else unsigned_decimal l
  | [] => true
  end.

Definition trim_ws (l : list ascii) : list ascii :=
  rev (snd (span is_js_ws (rev (snd (span is_js_ws l))))).

(** [isNaN(Number(x))] *)
Definition is_nan_number (x : jsval) : bool :=
  match x with
  | JNull => false
  | JUndefined => true
  | JStr s => negb (numeric_literal (trim_ws (list_ascii_of_string s)))
  end.

(* ------------------------------------------------------------------ *)
(** ** Three-address code (intermediateCodeGenerator.ts, lines 4-17) *)

Record TACInstruction := mkInstr {
  op : string;
  arg1 : jsval;
  arg2 : jsval;
  result : jsval;
  label : option string   (* [label?: string] *)
}.

Definition instr (o : string) (a1 a2 r : jsval) : TACInstruction :=
  mkInstr o a1 a2 r None.

Record TACFunction := mkFunc {
  name : string;
  params : list jsval;
  instructions : list TACInstruction;
  tempCount : nat
}.

Definition with_instructions (f : TACFunction) (l : list TACInstruction) : TACFunction :=
  mkFunc f.(name) f.(params) l f.(tempCount).

Definition is_control (i : TACInstruction) : bool :=
  str_eqb i.(op) "LABEL" || str_eqb i.(op) "GOTO" || str_eqb i.(op) "IF_FALSE".

(** A JavaScript [Map], in insertion order ([set] on a present key keeps
    its position); keys compare with [===]. *)
Fixpoint map_get {V} (m : list (jsval * V)) (k : jsval) : option V :=
  match m with
  | [] => None
  | (k', v) :: r => if jsv_eqb k k' then Some v else map_get r k
  end.

Fixpoint map_set {V} (m : list (jsval * V)) (k : jsval) (v : V) : list (jsval * V) :=
  match m with
  | [] => [(k, v)]
  | (k', v') :: r => if jsv_eqb k k' then (k', v) :: r else (k', v') :: map_set r k v
  end.

(* ------------------------------------------------------------------ *)
(** ** The optimizer (codeOptimizer.ts) *)

(** The arithmetic of JavaScript numbers (IEEE doubles, [Number(..)] and
    [toString]) is kept abstract: the passes are defined for any such
    semantics, and every theorem below holds for all of them. *)
Record js_number_ops := {
  jsnum : Type;
  js_Number : jsval -> jsnum;
  js_add : jsnum -> jsnum -> jsnum;
  js_sub : jsnum -> jsnum -> jsnum;
  js_mul : jsnum -> jsnum -> jsnum;
  js_div : jsnum -> jsnum -> jsnum;
  js_mod : jsnum -> jsnum -> jsnum;
  js_toString : jsnum -> string
}.

Section Optimizer.
Variable JS : js_number_ops.

(** [evaluateConstantExpression], lines 89-101. *)
Definition evaluateConstantExpression (o : string) (a1 a2 : jsval) : jsval :=
  let num1 := js_Number JS a1 in
  let num2 := js_Number JS a2 in
  if str_eqb o "+" then JStr (js_toString JS (js_add JS num1 num2))
  else if str_eqb o "-" then JStr (js_toString JS (js_sub JS num1 num2))
  else if str_eqb o "*" then JStr (js_toString JS (js_mul JS num1 num2))
  else if str_eqb o "/" then JStr (js_toString JS (js_div JS num1 num2))
  else if str_eqb o "%" then JStr (js_toString JS (js_mod JS num1 num2))
  else a1.

(** [constants.get(x) || x] *)
Definition resolve (constants : list (jsval * jsval)) (x : jsval) : jsval :=
  match map_get constants x with
  | Some v => if truthy v then v else x
  | None => x
  end.

(** One iteration of the loop of [constantFolding], lines 49-84, on the
    constant map and the instructions pushed so far. *)
Definition cf_step (st : list (jsval * jsval) * list TACInstruction)
  (i : TACInstruction) : list (jsval * jsval) * list TACInstruction :=
  let (constants, out) := st in
  if is_control i then (constants, out ++ [i])
  else if str_eqb i.(op) "=" && negb (is_nan_number i.(arg1)) then
    (map_set constants i.(result) i.(arg1), out ++ [i])
  else
    let a1 := resolve constants i.(arg1) in
    let a2 := resolve constants i.(arg2) in
    if negb (str_eqb i.(op) "=") && negb (is_nan_number a1) && negb (is_nan_number a2) then
      let r := evaluateConstantExpression i.(op) a1 a2 in
      (map_set constants i.(result) r, out ++ [instr "=" r JNull i.(result)])
    else (constants, out ++ [mkInstr i.(op) a1 a2 i.(result) i.(label)]).

Definition constantFolding (l : list TACInstruction) : list TACInstruction :=
  snd (fold_left cf_step l ([], [])).

End Optimizer.

(** [deadCodeElimination], lines 103-122. *)
Definition used_operand (x : jsval) : list string :=
  match x with
  | JStr s => if truthy x && negb (starts_with "L" s) then [s] else []
  | _ => []
  end.

Definition usedVars (l : list TACInstruction) : list string :=
  flat_map (fun i => used_operand i.(arg1) ++ used_operand i.(arg2)) l.

(** [usedVars.has(x)]: the set only holds strings. *)
Definition set_has (s : list string) (x : jsval) : bool :=
  match x with
  | JStr v => existsb (str_eqb v) s
  | _ => false
  end.

Definition deadCodeElimination (l : list TACInstruction) : list TACInstruction :=
  let used := usedVars l in
  filter (fun i => negb (str_eqb i.(op) "=" && negb (set_has used i.(result)))) l.

(** [commonSubexpressionElimination], lines 124-154. *)
Definition exprKey (i : TACInstruction) : string :=
  i.(op) ++ js_str i.(arg1) ++ js_str i.(arg2).

Fixpoint str_map_get {V} (m : list (string * V)) (k : string) : option V :=
  match m with
  | [] => None
  | (k', v) :: r => if str_eqb k k' then Some v else str_map_get r k
  end.

Definition cse_step (st : list (string * jsval) * list TACInstruction)
  (i : TACInstruction) : list (string * jsval) * list TACInstruction :=
  let (expressions, out) := st in
  if is_control i then (expressions, out ++ [i])
  else
    match str_map_get expressions (exprKey i) with
    | Some prev => (expressions, out ++ [instr "=" prev JNull i.(result)])
    | None => (expressions ++ [(exprKey i, i.(result))], out ++ [i])
    end.

Definition commonSubexpressionElimination (l : list TACInstruction) : list TACInstruction :=
  snd (fold_left cse_step l ([], [])).

(** [loopOptimization], lines 156-206.  The [while] loop over the index
    [i] is a recursion on the remaining suffix; it resumes at
    [loopEnd + 1] when a counting loop is recognised. *)
Definition is_loop_label (i : TACInstruction) : bool :=
  str_eqb i.(op) "LABEL" &&
  match i.(result) with JStr r => starts_with "L" r | _ => false end.

(** Offset in [rest] of the first [GOTO] back to [lbl]. *)
Fixpoint find_goto (lbl : jsval) (rest : list TACInstruction) : option nat :=
  match rest with
  | [] => None
  | c :: r =>
      if str_eqb c.(op) "GOTO" && jsv_eqb c.(arg1) lbl then Some 0
      else option_map S (find_goto lbl r)
  end.

Definition is_increment (c : TACInstruction) : bool :=
  str_eqb c.(op) "+" && jsv_eqb c.(arg2) "1".

Fixpoint loop_go (fuel : nat) (l : list TACInstruction) : list TACInstruction :=
  match fuel with
  | O => []
  | S f =>
      match l with
      | [] => []
      | i :: rest =>
          let resume :=
            if is_loop_label i then
              match find_goto i.(result) rest with
              | Some k =>
                  (* the span [loopStart, loopEnd) is [i] and the first [k] of [rest] *)
                  if existsb is_increment (i :: firstn k rest)
                  then Some (skipn (S k) rest) else None
              | None => None
              end
            else None in
          match resume with
          | Some after =>
              mkInstr i.(op) i.(arg1) i.(arg2) i.(result) (Some "OPTIMIZED_LOOP")
                :: loop_go f after
          | None => i :: loop_go f rest
          end
      end
  end.

Definition loopOptimization (l : list TACInstruction) : list TACInstruction :=
  loop_go (length l) l.

(** [optimizeFunction], lines 31-43, and [optimize], lines 12-29 (the
    passes work on a copy of each function). *)
Definition optimizeFunction (JS : js_number_ops) (f : TACFunction) : TACFunction :=
  with_instructions f
    (loopOptimization
       (commonSubexpressionElimination
          (deadCodeElimination (constantFolding JS f.(instructions))))).

Definition optimize (JS : js_number_ops) (fs : list (string * TACFunction))
  : list (string * TACFunction) :=
  map (fun '(n, f) => (n, optimizeFunction JS f)) fs.

Scheme All for list.

(* ------------------------------------------------------------------ *)
(** ** The abstract syntax tree built by the parser (part_000, 519-913)

    One constructor per [type] tag of the parser's objects, with the
    object's fields in order; [ErrorNode] is the [{ error: msg }] object
    the parse functions return on failure, and [Null] a JavaScript [null]
    in a node position. *)
Inductive node :=
| Program_ (body : list node)
| PreprocessorDirective (value : string)
| FunctionDeclaration (returnType : string) (fname : string) (parameters : list node)
    (fbody : node)
| Parameter_ (paramType : string) (paramName : string)
| CompoundStatement (body : list node)
| DeclarationStatement (varType : string) (variables : list node)
| VariableDeclarator (vname : string) (initializer : node)
| ExpressionStatement (expression : node)
| ReturnStatement (expression : node)
| IfStatement (condition : node) (then_ : node) (else_ : node)
| ForStatement (initialization : node) (condition : node) (increment : node) (body : node)
| AssignmentExpression (operator : string) (left : node) (right : node)
| BinaryExpression (operator : string) (left : node) (right : node)
| PrefixExpression (operator : string) (argument : node)
| PostfixExpression (operator : string) (argument : node)
| Identifier (iname : string)
| Literal (value : string)
| FunctionCall (cname : string) (arguments : list node)
| ErrorNode (error : string)
| Null.

(** JavaScript truthiness of a node position ([null] is falsy). *)
Definition node_truthy (n : node) : bool :=
  match n with Null => false | _ => true end.

(** The [name] property of a node ([undefined] for kinds without one). *)
Definition node_name (n : node) : jsval :=
  match n with
  | FunctionDeclaration _ x _ _ | VariableDeclarator x _ | Identifier x
  | FunctionCall x _ => JStr x
  | _ => JUndefined
  end.

(** The [prefix] property read by [generateUnaryExpression]: no producer
    of the tree (parseUnary and parsePostfix build the only unary nodes)
    sets such a property, so [expr.prefix] is [undefined], i.e. falsy. *)
Definition node_prefix (n : node) : bool :=
  match n with _ => false end.

(* ------------------------------------------------------------------ *)
(** ** IR generation (intermediateCodeGenerator.ts)

    The generator's mutable fields [labelCounter] and [currentFunction]
    ([instructions], [tempCount]) are threaded through a state monad. *)
Record irst := mkIrst {
  labelCounter : nat;
  tempCnt : nat;
  code : list TACInstruction
}.

Definition IR (A : Type) := irst -> A * irst.
Definition ir_ret {A} (a : A) : IR A := fun s => (a, s).
Definition ir_bind {A B} (m : IR A) (k : A -> IR B) : IR B :=
  fun s => let (a, s') := m s in k a s'.
Notation "x <- m ;; k" := (ir_bind m (fun x => k))
  (at level 61, m at next level, right associativity).

(** [emitInstruction], lines 258-262. *)
Definition emitInstruction (o : string) (a1 a2 r : jsval) : IR unit :=
  fun s => (tt, mkIrst s.(labelCounter) s.(tempCnt) (s.(code) ++ [instr o a1 a2 r])).

(** [newTemp], lines 264-270. *)
Definition newTemp : IR jsval :=
  fun s => let n := S s.(tempCnt) in
           (JStr ("t" ++ string_of_nat n)%string, mkIrst s.(labelCounter) n s.(code)).

(** [newLabel], lines 272-274. *)
Definition newLabel : IR string :=
  fun s => let n := S s.(labelCounter) in
           (("L" ++ string_of_nat n)%string, mkIrst n s.(tempCnt) s.(code)).

Fixpoint ir_iter {A} (f : A -> IR unit) (l : list A) : IR unit :=
  match l with
  | [] => ir_ret tt
  | x :: r => _ <- f x ;; ir_iter f r
  end.

(** [generateExpression] (lines 115-135) with [generateAssignmentExpression],
    [generateBinaryExpression], [generateLiteral], [generateFunctionCall] and
    [generateUnaryExpression] (lines 137-256) inlined.  The generator has no
    failure outcome: where the source reads [.name] of a [null] node (the
    left side of an assignment, the operand of [++]/[--]) and throws a
    [TypeError], the model reads [undefined] and goes on.  The inputs on
    which the source does not throw are those of [genExpr_completes]
    below. *)
Fixpoint generateExpression (e : node) : IR jsval :=
  match e with
  | AssignmentExpression _ l r =>
      rightTemp <- generateExpression r ;;
      _ <- emitInstruction "=" rightTemp JNull (node_name l) ;;
      ir_ret (node_name l)
  | BinaryExpression o l r =>
      leftTemp <- generateExpression l ;;
      rightTemp <- generateExpression r ;;
      resultTemp <- newTemp ;;
      _ <- emitInstruction o leftTemp rightTemp resultTemp ;;
      ir_ret resultTemp
  | Identifier x => ir_ret (JStr x)
  | Literal v =>
      temp <- newTemp ;;
      _ <- emitInstruction "=" v JNull temp ;;
      ir_ret temp
  | FunctionCall f args =>
      temps <- (fix go (l : list node) : IR (list jsval) :=
                  match l with
                  | [] => ir_ret []
                  | a :: r => t <- generateExpression a ;; ts <- go r ;; ir_ret (t :: ts)
                  end) args ;;
      resultTemp <- newTemp ;;
      _ <- ir_iter (fun a => emitInstruction "PARAM" a JNull JNull) temps ;;
      _ <- emitInstruction "CALL" f (string_of_nat (length temps)) resultTemp ;;
      ir_ret resultTemp
  | PrefixExpression o a | PostfixExpression o a =>
      operandTemp <- generateExpression a ;;
      resultTemp <- newTemp ;;
      if str_eqb o "++" || str_eqb o "--" then
        _ <- emitInstruction (if str_eqb o "++" then "+" else "-") operandTemp "1" resultTemp ;;
        _ <- emitInstruction "=" resultTemp JNull (node_name a) ;;
        ir_ret (if node_prefix e then resultTemp else operandTemp)
      else
        _ <- emitInstruction o operandTemp JNull resultTemp ;;
        ir_ret resultTemp
  | _ => ir_ret (JStr "")
  end.

(** [generateStatement] (lines 81-104) with the declaration, return, if,
    for and compound cases (lines 73-241) inlined. *)
Fixpoint generateStatement (st : node) : IR unit :=
  match st with
  | DeclarationStatement _ vars =>
      ir_iter (fun v =>
                 match v with
                 | VariableDeclarator x init =>
                     if node_truthy init then
                       temp <- generateExpression init ;;
                       emitInstruction "=" temp JNull x
                     else ir_ret tt
                 | _ => ir_ret tt
                 end) vars
  | ExpressionStatement e => _ <- generateExpression e ;; ir_ret tt
  | ReturnStatement e =>
      if node_truthy e then
        temp <- generateExpression e ;;
        emitInstruction "RETURN" temp JNull JNull
      else emitInstruction "RETURN" JNull JNull JNull
  | IfStatement c t el =>
      conditionTemp <- generateExpression c ;;
      elseLabel <- newLabel ;;
      endLabel <- newLabel ;;
      _ <- emitInstruction "IF_FALSE" conditionTemp elseLabel JNull ;;
      _ <- generateStatement t ;;
      _ <- emitInstruction "GOTO" endLabel JNull JNull ;;
      _ <- emitInstruction "LABEL" JNull JNull elseLabel ;;
      _ <- (if node_truthy el then generateStatement el else ir_ret tt) ;;
      emitInstruction "LABEL" JNull JNull endLabel
  | ForStatement i c inc b =>
      startLabel <- newLabel ;;
      conditionLabel <- newLabel ;;
      incrementLabel <- newLabel ;;
      endLabel <- newLabel ;;
      _ <- (if node_truthy i then generateStatement i else ir_ret tt) ;;
      _ <- emitInstruction "LABEL" JNull JNull startLabel ;;
      conditionTemp <- generateExpression c ;;
      _ <- emitInstruction "IF_FALSE" conditionTemp endLabel JNull ;;
      _ <- generateStatement b ;;
      _ <- emitInstruction "LABEL" JNull JNull incrementLabel ;;
      _ <- (if node_truthy inc then _ <- generateExpression inc ;; ir_ret tt else ir_ret tt) ;;
      _ <- emitInstruction "GOTO" startLabel JNull JNull ;;
      emitInstruction "LABEL" JNull JNull endLabel
  | CompoundStatement body =>
      (fix go (l : list node) : IR unit :=
         match l with [] => ir_ret tt | x :: r => _ <- generateStatement x ;; go r end) body
  | _ => ir_ret tt
  end.

Definition node_paramName (p : node) : jsval :=
  match p with Parameter_ _ x => JStr x | _ => JUndefined end.

Fixpoint smap_set {V} (m : list (string * V)) (k : string) (v : V) : list (string * V) :=
  match m with
  | [] => [(k, v)]
  | (k', v') :: r => if str_eqb k k' then (k', v) :: r else (k', v') :: smap_set r k v
  end.

(** [generateFunction], lines 46-71: returns the new label counter and
    the function map after [functions.set(funcName, ...)]. *)
Definition generateFunction (lc : nat) (fs : list (string * TACFunction)) (n : node)
  : nat * list (string * TACFunction) :=
  match n with
  | FunctionDeclaration _ funcName ps body =>
      let m : IR unit :=
        _ <- emitInstruction "LABEL" JNull JNull ("func_" ++ funcName)%string ;;
        match body with
        | CompoundStatement _ => generateStatement body
        | _ => ir_ret tt
        end in
      let (_, s) := m (mkIrst lc 0 []) in
      (s.(labelCounter),
       smap_set fs funcName (mkFunc funcName (map node_paramName ps) s.(code) s.(tempCnt)))
  | _ => (lc, fs)
  end.

(** [generate], lines 30-44: counters and map are reset on entry. *)
Definition generate (ast : node) : list (string * TACFunction) :=
  match ast with
  | Program_ body =>
      snd (fold_left (fun '(lc, fs) n =>
                        match n with
                        | FunctionDeclaration _ _ _ _ => generateFunction lc fs n
                        | _ => (lc, fs)
                        end) body (0, []))
  | _ => []
  end.

(* ------------------------------------------------------------------ *)
(** ** Assembly generation (codeGenerator.ts) *)

Fixpoint index_of (l : list jsval) (x : jsval) : option nat :=
  match l with
  | [] => None
  | y :: r => if jsv_eqb x y then Some 0 else option_map S (index_of r x)
  end.

Fixpoint lookup_fn (fs : list (string * TACFunction)) (k : string) : option TACFunction :=
  match fs with
  | [] => None
  | (k', f) :: r => if str_eqb k k' then Some f else lookup_fn r k
  end.

(** [parseInt(x)] (radix 10, or 16 after a [0x] prefix); [None] is [NaN].
    [x] is first converted with [String(x)].  The result is the exact
    integer read; JavaScript returns it as a double, which is the same
    number when its magnitude is below [2^53] (larger results are rounded
    by JavaScript and not modelled). *)
Fixpoint digits_value (radix : Z) (l : list ascii) (acc : option Z) : option Z :=
  match l with
  | [] => acc
  | c :: r =>
      let n := Z.of_nat (nat_of_ascii c) in
      let d := if is_digit c then Some (n - 48)%Z
               else if (97 <=? n)%Z && (n <=? 102)%Z then Some (n - 87)%Z
               else if (65 <=? n)%Z && (n <=? 70)%Z then Some (n - 55)%Z
               else None in
      match d with
      | Some v => if (v <? radix)%Z
                  then digits_value radix r (Some (radix * match acc with Some a => a | None => 0 end + v)%Z)
                  else acc
      | None => acc
      end
  end.

Definition parseInt (x : jsval) : option Z :=
  let l := snd (span is_js_ws (list_ascii_of_string (js_str x))) in
  let '(sign, l1) := match l with
                     | "-"%char :: r => ((-1)%Z, r)
                     | "+"%char :: r => (1%Z, r)
                     | _ => (1%Z, l)
                     end in
  let '(radix, l2) := match l1 with
                      | "0"%char :: x :: r =>
                          if Ascii.eqb x "x" || Ascii.eqb x "X" then (16%Z, r) else (10%Z, l1)
                      | _ => (10%Z, l1)
                      end in
  option_map (Z.mul sign) (digits_value radix l2 None).

Definition dq : string := String (ascii_of_nat 34) EmptyString.

Section CodeGen.
(** [this.functions] and [this.currentFunction] during [generateFunction]. *)
Variable functions : list (string * TACFunction).
Variable currentFunction : string.
Variable localVars : list (jsval * Z).

(** [getOperandLocation], lines 214-236. *)
Definition getOperandLocation (operand : jsval) : string :=
  if negb (truthy operand) then ""
  else if negb (is_nan_number operand) then js_str operand
  else match map_get localVars operand with
       | Some offset =>
           "[ebp" ++ (if (0 <=? offset)%Z then "+" else "") ++ string_of_Z offset ++ "]"
       | None =>
           match lookup_fn functions currentFunction with
           | None => "[ebp+NaN]"   (* [undefined !== -1] *)
           | Some f =>
               match index_of f.(params) operand with
               | Some i => "[ebp+" ++ string_of_nat (8 + i * 4) ++ "]"
               | None => js_str operand
               end
           end
       end.

(** [generateInstruction], lines 78-212, as the lines it pushes. *)
Definition generateInstruction (i : TACInstruction) : list string :=
  let tag := match i.(label) with
             | Some l => if truthy l then [(l ++ ":")%string] else []
             | None => []
             end in
  let o := i.(op) in
  tag ++
  (if str_eqb o "LABEL" then [(js_str i.(result) ++ ":")%string]
   else if str_eqb o "=" then
     let dest := getOperandLocation i.(result) in
     let src := getOperandLocation i.(arg1) in
     if starts_with "[" src
     then [("    mov eax, " ++ src)%string; ("    mov " ++ dest ++ ", eax")%string]
     else [("    mov " ++ dest ++ ", " ++ src)%string]
   else if str_eqb o "+" || str_eqb o "-" || str_eqb o "*" || str_eqb o "/" || str_eqb o "%" then
     let dest := getOperandLocation i.(result) in
     let left := getOperandLocation i.(arg1) in
     let right := getOperandLocation i.(arg2) in
     [("    mov eax, " ++ left)%string] ++
     (if str_eqb o "+" then [("    add eax, " ++ right)%string]
      else if str_eqb o "-" then [("    sub eax, " ++ right)%string]
      else if str_eqb o "*" then [("    imul eax, " ++ right)%string]
      else if str_eqb o "/" then ["    cdq"; ("    idiv " ++ right)%string]
      else ["    cdq"; ("    idiv " ++ right)%string; "    mov eax, edx"]) ++
     [("    mov " ++ dest ++ ", eax")%string]
   else if str_eqb o "IF_FALSE" then
     [("    cmp " ++ getOperandLocation i.(arg1) ++ ", 0")%string; ("    je " ++ js_str i.(arg2))%string]
   else if str_eqb o "GOTO" then [("    jmp " ++ js_str i.(arg1))%string]
   else if str_eqb o "PARAM" then [("    push " ++ getOperandLocation i.(arg1))%string]
   else if str_eqb o "CALL" then
     let res := getOperandLocation i.(result) in
     [("    call " ++ js_str i.(arg1))%string] ++
     (match parseInt i.(arg2) with
      | Some argCount => if (0 <? argCount)%Z
                         then [("    add esp, " ++ string_of_Z (argCount * 4))%string] else []
      | None => []
      end) ++
     (if truthy res then [("    mov " ++ res ++ ", eax")%string] else [])
   else if str_eqb o "RETURN" then
     (if truthy i.(arg1) then [("    mov eax, " ++ getOperandLocation i.(arg1))%string] else []) ++
     [("    jmp " ++ currentFunction ++ "_end")%string]
   else []).

End CodeGen.

(** The parameter slots set up by [allocateLocalVar(param, 8 + i * 4)]. *)
Definition param_slots (ps : list jsval) : list (jsval * Z) :=
  fold_left (fun m '(i, p) => map_set m p (8 + Z.of_nat i * 4)%Z)
            (combine (seq 0 (length ps)) ps) [].

(** [generateFunction], lines 42-76: the lines pushed for one function. *)
Definition generateFunctionAsm (functions : list (string * TACFunction)) (nm : string)
  (f : TACFunction) : list string :=
  let localVarSize := f.(tempCount) * 4 in
  let lv := param_slots f.(params) in
  [("; Function: " ++ nm)%string; (nm ++ ":")%string; "    push ebp"; "    mov ebp, esp"] ++
  (if Nat.ltb 0 localVarSize then [("    sub esp, " ++ string_of_nat localVarSize)%string] else []) ++
  flat_map (generateInstruction functions nm lv) f.(instructions) ++
  ["    mov esp, ebp"; "    pop ebp"; "    ret"; ""].

(** [generate], lines 17-40: the lines of the assembly text. *)
Definition generateAssemblyLines (functions : list (string * TACFunction)) : list string :=
  ["section .data";
   ("    format_int db " ++ dq ++ "%d" ++ dq ++ ", 10, 0    ; Format string for integers")%string;
   ("    format_float db " ++ dq ++ "%f" ++ dq ++ ", 10, 0  ; Format string for floats")%string;
   ("    format_string db " ++ dq ++ "%s" ++ dq ++ ", 10, 0 ; Format string for strings")%string;
   "";
   "section .text"; "    global main"; "    extern printf"; "    extern scanf"; ""] ++
  flat_map (fun '(nm, f) => generateFunctionAsm functions nm f) functions.

(* ------------------------------------------------------------------ *)
(** ** Parser (src/unnamed/part_000, lines 511-913) *)

Record token := mkTok { ttype : string; tvalue : string }.

(** Outcome of a parsing function run on the global cursor [current]:
    it returns a node and the new cursor, runs out of fuel (the source may
    loop forever, e.g. in the argument loop of [parsePrimary]), or throws a
    [TypeError] by reading a property of a missing token. *)
Inductive outcome (A : Type) :=
| Done (a : A) (current : nat)
| OutOfFuel
| Threw.
Arguments Done {A}.
Arguments OutOfFuel {A}.
Arguments Threw {A}.

Definition P (A : Type) := nat -> outcome A.
Definition p_ret {A} (a : A) : P A := fun c => Done a c.
Definition p_bind {A B} (m : P A) (k : A -> P B) : P B :=
  fun c => match m c with
           | Done a c' => k a c'
           | OutOfFuel => OutOfFuel
           | Threw => Threw
           end.
Notation "x <-- m ;;; k" := (p_bind m (fun x => k)) (at level 61, m at next level, right associativity).
Definition p_fuel {A} : P A := fun _ => OutOfFuel.
Definition advance : P unit := fun c => Done tt (S c).

Definition typ (t : token) (s : string) : bool := str_eqb t.(ttype) s.
Definition valis (t : token) (s : string) : bool := str_eqb t.(tvalue) s.

Definition isTypeSpecifier (t : token) : bool :=
  typ t "KEYWORD" && existsb (str_eqb t.(tvalue)) ["int"; "char"; "float"; "double"; "void"].

(** [{ error: ... }] objects are [ErrorNode]; [x && x.error] tests this. *)
Definition is_error (n : node) : bool :=
  match n with ErrorNode e => truthy e | _ => false end.

Section Parser.
Variable tokens : list token.

(** [current < tokens.length && p(tokens[current])] *)
Definition cur_is (p : token -> bool) : P bool :=
  fun c => Done (match nth_error tokens c with Some t => p t | None => false end) c.
Definition at_end : P bool := fun c => Done (Nat.leb (length tokens) c) c.
Definition cur_tok : P (option token) := fun c => Done (nth_error tokens c) c.
Definition get_cur : P nat := fun c => Done c c.
Definition set_cur (c' : nat) : P unit := fun _ => Done tt c'.
Definition skip_semi : P unit :=
  b <-- cur_is (fun t => typ t "SEPARATOR" && valis t ";") ;;;
  if b then advance else p_ret tt.

(** The recursive calls available to the parsing functions: the same
    functions run with one less unit of fuel. *)
Record parsers := mkParsers {
  parseStatement_ : P node;
  parseCompoundStatement_ : P node;
  compoundLoop_ : list node -> P node;
  parseReturnStatement_ : P node;
  parseIfStatement_ : P node;
  parseForStatement_ : P node;
  parseDeclaration_ : bool -> P node;
  declLoop_ : bool -> list node -> P (list node);
  parseExpressionStatement_ : P node;
  parseExpression_ : P node;
  parseEquality_ : P node;
  equalityLoop_ : node -> P node;
  parseRelational_ : P node;
  relationalLoop_ : node -> P node;
  parseAdditive_ : P node;
  additiveLoop_ : node -> P node;
  parseMultiplicative_ : P node;
  multiplicativeLoop_ : node -> P node;
  parseUnary_ : P node;
  parsePostfix_ : P node;
  postfixLoop_ : node -> P node;
  parsePrimary_ : P node;
  argsLoop_ : list node -> P (list node)
}.

Definition parseStatement (r : parsers) : P node :=
  ot <-- cur_tok ;;;
  match ot with
  | None => p_ret Null
  | Some t =>
      if typ t "COMMENT" then _ <-- advance ;;; p_ret Null
      else if typ t "KEYWORD" && valis t "return" then r.(parseReturnStatement_)
      else if typ t "KEYWORD" && valis t "if" then r.(parseIfStatement_)
      else if typ t "KEYWORD" && valis t "for" then r.(parseForStatement_)
      else if isTypeSpecifier t then r.(parseDeclaration_) true
      else if typ t "OPEN_BRACE" then r.(parseCompoundStatement_)
      else r.(parseExpressionStatement_)
  end.

Definition parseCompoundStatement (r : parsers) : P node :=
  ot <-- cur_tok ;;;
  match ot with
  | None => fun _ => Threw
  | Some t =>
      if negb (typ t "OPEN_BRACE")
      then p_ret (ErrorNode "Expected '{' at beginning of compound statement")
      else _ <-- advance ;;; r.(compoundLoop_) []
  end.

(** The [while] loop of [parseCompoundStatement] and what follows it;
    [body] is kept reversed. *)
Definition compoundLoop (r : parsers) (body : list node) : P node :=
  go <-- cur_is (fun t => negb (typ t "CLOSE_BRACE")) ;;;
  if go then
    prev <-- get_cur ;;;
    stmt <-- r.(parseStatement_) ;;;
    if node_truthy stmt && negb (is_error stmt) then
      c <-- get_cur ;;;
      _ <-- (if Nat.eqb c prev then advance else p_ret tt) ;;;
      r.(compoundLoop_) (stmt :: body)
    else if node_truthy stmt && is_error stmt then p_ret stmt
    else
      c <-- get_cur ;;;
      _ <-- (if Nat.eqb c prev then advance else p_ret tt) ;;;
      r.(compoundLoop_) body
  else
    cl <-- cur_is (fun t => typ t "CLOSE_BRACE") ;;;
    if cl then _ <-- advance ;;; p_ret (CompoundStatement (rev body))
    else p_ret (ErrorNode "Expected '}' at end of compound statement").

Definition parseReturnStatement (r : parsers) : P node :=
  _ <-- advance ;;;
  expr <-- r.(parseExpression_) ;;;
  _ <-- skip_semi ;;;
  p_ret (ReturnStatement expr).

Definition parseIfStatement (r : parsers) : P node :=
  _ <-- advance ;;;
  op <-- cur_is (fun t => typ t "OPEN_PAREN") ;;;
  if negb op then p_ret (ErrorNode "Expected '(' after if") else
  _ <-- advance ;;;
  prev <-- get_cur ;;;
  condition <-- r.(parseExpression_) ;;;
  if node_truthy condition && is_error condition then p_ret condition else
  c <-- get_cur ;;;
  _ <-- (if Nat.eqb c prev then advance else p_ret tt) ;;;
  ot <-- cur_tok ;;;
  cp <-- cur_is (fun t => typ t "CLOSE_PAREN") ;;;
  if negb cp then
    p_ret (ErrorNode ("Expected ')' after if condition, got: " ++
             match ot with
             | Some t => t.(ttype) ++ " '" ++ t.(tvalue) ++ "'"
             | None => "end of input"
             end))
  else
  _ <-- advance ;;;
  thenStmt <-- r.(parseStatement_) ;;;
  el <-- cur_is (fun t => typ t "KEYWORD" && valis t "else") ;;;
  elseStmt <-- (if el then _ <-- advance ;;; r.(parseStatement_) else p_ret Null) ;;;
  p_ret (IfStatement condition thenStmt elseStmt).

Definition parseForStatement (r : parsers) : P node :=
  _ <-- advance ;;;
  op <-- cur_is (fun t => typ t "OPEN_PAREN") ;;;
  if negb op then p_ret (ErrorNode "Expected '(' after for") else
  _ <-- advance ;;;
  ts <-- cur_is isTypeSpecifier ;;;
  initialization <-- (if ts then r.(parseDeclaration_) false else r.(parseExpression_)) ;;;
  _ <-- skip_semi ;;;
  condition <-- r.(parseExpression_) ;;;
  _ <-- skip_semi ;;;
  increment <-- r.(parseExpression_) ;;;
  cp <-- cur_is (fun t => typ t "CLOSE_PAREN") ;;;
  if negb cp then p_ret (ErrorNode "Expected ')' after for increment") else
  _ <-- advance ;;;
  body <-- r.(parseStatement_) ;;;
  p_ret (ForStatement initialization condition increment body).

Definition parseDeclaration (r : parsers) (expectSemicolon : bool) : P node :=
  ot <-- cur_tok ;;;
  match ot with
  | None => fun _ => Threw
  | Some t =>
      _ <-- advance ;;;
      variables <-- r.(declLoop_) expectSemicolon [] ;;;
      p_ret (DeclarationStatement t.(tvalue) variables)
  end.

(** The [while (true)] loop of [parseDeclaration]; [vars] reversed. *)
Definition declLoop (r : parsers) (expectSemicolon : bool) (vars : list node) : P (list node) :=
  ot <-- cur_tok ;;;
  match ot with
  | Some t =>
      if negb (typ t "IDENTIFIER") then p_ret (rev vars) else
      _ <-- advance ;;;
      eq <-- cur_is (fun t => valis t "=") ;;;
      initializer <-- (if eq then _ <-- advance ;;; r.(parseExpression_) else p_ret Null) ;;;
      let vars := VariableDeclarator t.(tvalue) initializer :: vars in
      ot' <-- cur_tok ;;;
      match ot' with
      | None => p_ret (rev vars)
      | Some t' =>
          if valis t' "," then _ <-- advance ;;; r.(declLoop_) expectSemicolon vars
          else if expectSemicolon && typ t' "SEPARATOR" && valis t' ";"
          then _ <-- advance ;;; p_ret (rev vars)
          else r.(declLoop_) expectSemicolon vars
      end
  | None => p_ret (rev vars)
  end.

Definition parseExpressionStatement (r : parsers) : P node :=
  expr <-- r.(parseExpression_) ;;;
  _ <-- skip_semi ;;;
  p_ret (ExpressionStatement expr).

(** [parseExpression] is [parseAssignment]. *)
Definition parseExpression (r : parsers) : P node :=
  left <-- r.(parseEquality_) ;;;
  eq <-- cur_is (fun t => valis t "=") ;;;
  if eq then
    _ <-- advance ;;;
    right <-- r.(parseExpression_) ;;;
    p_ret (AssignmentExpression "=" left right)
  else p_ret left.

Definition parseEquality (r : parsers) : P node :=
  left <-- r.(parseRelational_) ;;; r.(equalityLoop_) left.

Definition equalityLoop (r : parsers) (left : node) : P node :=
  ot <-- cur_tok ;;;
  match ot with
  | Some t =>
      if typ t "OPERATOR" && (valis t "==" || valis t "!=") then
        _ <-- advance ;;;
        right <-- r.(parseRelational_) ;;;
        r.(equalityLoop_) (BinaryExpression t.(tvalue) left right)
      else p_ret left
  | None => p_ret left
  end.

Definition parseRelational (r : parsers) : P node :=
  left <-- r.(parseAdditive_) ;;; r.(relationalLoop_) left.

Definition relationalLoop (r : parsers) (left : node) : P node :=
  ot <-- cur_tok ;;;
  match ot with
  | Some t =>
      if typ t "OPERATOR" && existsb (valis t) ["<"; ">"; "<="; ">="] then
        _ <-- advance ;;;
        right <-- r.(parseAdditive_) ;;;
        r.(relationalLoop_) (BinaryExpression t.(tvalue) left right)
      else p_ret left
  | None => p_ret left
  end.

Definition parseAdditive (r : parsers) : P node :=
  left <-- r.(parseMultiplicative_) ;;; r.(additiveLoop_) left.

Definition additiveLoop (r : parsers) (left : node) : P node :=
  ot <-- cur_tok ;;;
  match ot with
  | Some t =>
      if typ t "OPERATOR" && (valis t "+" || valis t "-") then
        _ <-- advance ;;;
        right <-- r.(parseMultiplicative_) ;;;
        r.(additiveLoop_) (BinaryExpression t.(tvalue) left right)
      else p_ret left
  | None => p_ret left
  end.

Definition parseMultiplicative (r : parsers) : P node :=
  left <-- r.(parseUnary_) ;;; r.(multiplicativeLoop_) left.

Definition multiplicativeLoop (r : parsers) (left : node) : P node :=
  ot <-- cur_tok ;;;
  match ot with
  | Some t =>
      if typ t "OPERATOR" && (valis t "*" || valis t "/" || valis t "%") then
        _ <-- advance ;;;
        right <-- r.(parseUnary_) ;;;
        r.(multiplicativeLoop_) (BinaryExpression t.(tvalue) left right)
      else p_ret left
  | None => p_ret left
  end.

Definition parseUnary (r : parsers) : P node :=
  ot <-- cur_tok ;;;
  match ot with
  | Some t =>
      if valis t "++" || valis t "--" then
        _ <-- advance ;;;
        argument <-- r.(parseUnary_) ;;;
        p_ret (PrefixExpression t.(tvalue) argument)
      else r.(parsePostfix_)
  | None => r.(parsePostfix_)
  end.

Definition parsePostfix (r : parsers) : P node :=
  nd <-- r.(parsePrimary_) ;;; r.(postfixLoop_) nd.

Definition postfixLoop (r : parsers) (nd : node) : P node :=
  ot <-- cur_tok ;;;
  match ot with
  | Some t =>
      if valis t "++" || valis t "--" then
        _ <-- advance ;;; r.(postfixLoop_) (PostfixExpression t.(tvalue) nd)
      else p_ret nd
  | None => p_ret nd
  end.

Definition parsePrimary (r : parsers) : P node :=
  ot <-- cur_tok ;;;
  match ot with
  | None => p_ret Null
  | Some t =>
      if typ t "NUMBER" || typ t "STRING_LITERAL" then
        _ <-- advance ;;; p_ret (Literal t.(tvalue))
      else if typ t "IDENTIFIER" || (typ t "KEYWORD" && negb (isTypeSpecifier t)) then
        _ <-- advance ;;;
        op <-- cur_is (fun t => typ t "OPEN_PAREN") ;;;
        if op then
          _ <-- advance ;;;
          args <-- r.(argsLoop_) [] ;;;
          cp <-- cur_is (fun t => typ t "CLOSE_PAREN") ;;;
          _ <-- (if cp then advance else p_ret tt) ;;;
          p_ret (FunctionCall t.(tvalue) args)
        else p_ret (Identifier t.(tvalue))
      else if typ t "OPEN_PAREN" then
        _ <-- advance ;;;
        expr <-- r.(parseExpression_) ;;;
        cp <-- cur_is (fun t => typ t "CLOSE_PAREN") ;;;
        _ <-- (if cp then advance else p_ret tt) ;;;
        p_ret expr
      else p_ret Null
  end.

(** The argument loop of [parsePrimary]; [args] reversed. *)
Definition argsLoop (r : parsers) (args : list node) : P (list node) :=
  go <-- cur_is (fun t => negb (typ t "CLOSE_PAREN")) ;;;
  if go then
    arg <-- r.(parseExpression_) ;;;
    let args := if node_truthy arg then arg :: args else args in
    cm <-- cur_is (fun t => valis t ",") ;;;
    _ <-- (if cm then advance else p_ret tt) ;;;
    r.(argsLoop_) args
  else p_ret (rev args).

Definition parsers_step (r : parsers) : parsers :=
  mkParsers
    (parseStatement r)
    (parseCompoundStatement r)
    (compoundLoop r)
    (parseReturnStatement r)
    (parseIfStatement r)
    (parseForStatement r)
    (parseDeclaration r)
    (declLoop r)
    (parseExpressionStatement r)
    (parseExpression r)
    (parseEquality r)
    (equalityLoop r)
    (parseRelational r)
    (relationalLoop r)
    (parseAdditive r)
    (additiveLoop r)
    (parseMultiplicative r)
    (multiplicativeLoop r)
    (parseUnary r)
    (parsePostfix r)
    (postfixLoop r)
    (parsePrimary r)
    (argsLoop r).

Definition parsers_fuel : parsers :=
  mkParsers
    p_fuel
    p_fuel
    (fun _ => p_fuel)
    p_fuel
    p_fuel
    p_fuel
    (fun _ => p_fuel)
    (fun _ _ => p_fuel)
    p_fuel
    p_fuel
    p_fuel
    (fun _ => p_fuel)
    p_fuel
    (fun _ => p_fuel)
    p_fuel
    (fun _ => p_fuel)
    p_fuel
    (fun _ => p_fuel)
    p_fuel
    p_fuel
    (fun _ => p_fuel)
    p_fuel
    (fun _ => p_fuel).

(** The parsing functions run with [n] units of fuel. *)
Fixpoint parsers_at (n : nat) : parsers :=
  match n with 0 => parsers_fuel | S n => parsers_step (parsers_at n) end.

(** The parameter loop of [parseFunctionDefinition]; [ps] reversed. *)
Fixpoint paramsLoop (n : nat) (ps : list node) : P (list node) :=
  match n with 0 => p_fuel | S n =>
  ot <-- cur_tok ;;;
  match ot with
  | None => p_ret (rev ps)
  | Some t =>
      if valis t ")" then p_ret (rev ps)
      else if valis t "," then _ <-- advance ;;; paramsLoop n ps
      else if isTypeSpecifier t then
        _ <-- advance ;;;
        pn <-- cur_tok ;;;
        _ <-- advance ;;;
        let paramName := match pn with Some p => p.(tvalue) | None => "<missing id>" end in
        paramsLoop n (Parameter_ t.(tvalue) paramName :: ps)
      else _ <-- advance ;;; paramsLoop n ps
  end end.

Definition parseFunctionDefinition (n : nat) : P node :=
  ot <-- cur_tok ;;;
  match ot with
  | None => fun _ => Threw
  | Some t =>
  _ <-- advance ;;;
  ft <-- cur_tok ;;;
  match ft with
  | Some f =>
    if negb (typ f "IDENTIFIER") then p_ret (ErrorNode "Expected function name") else
    _ <-- advance ;;;
    op <-- cur_is (fun t => typ t "OPEN_PAREN") ;;;
    if negb op then p_ret (ErrorNode "Expected '(' after function name") else
    _ <-- advance ;;;
    parameters <-- paramsLoop n [] ;;;
    e <-- at_end ;;;
    if e then p_ret (ErrorNode "Unexpected end of input while parsing function parameters") else
    _ <-- advance ;;;
    ob <-- cur_is (fun t => typ t "OPEN_BRACE") ;;;
    if negb ob then p_ret (ErrorNode "Expected '{' at beginning of function body") else
    bodyNode <-- (parsers_at n).(parseCompoundStatement_) ;;;
    p_ret (FunctionDeclaration t.(tvalue) f.(tvalue) parameters bodyNode)
  | None => p_ret (ErrorNode "Expected function name")
  end
  end.

Definition trim (s : string) : string :=
  string_of_list_ascii (trim_ws (list_ascii_of_string s)).

(** The [while] loop of [parseProgram]; [body] reversed. *)
Fixpoint programLoop (n : nat) (body : list node) : P (list node) :=
  match n with 0 => p_fuel | S n =>
  ot <-- cur_tok ;;;
  match ot with
  | None => p_ret (rev body)
  | Some t =>
      if typ t "COMMENT" then _ <-- advance ;;; programLoop n body
      else if typ t "PREPROCESSOR" then
        _ <-- advance ;;; programLoop n (PreprocessorDirective (trim t.(tvalue)) :: body)
      else if isTypeSpecifier t then
        funcNode <-- parseFunctionDefinition n ;;;
        programLoop n (if node_truthy funcNode then funcNode :: body else body)
      else _ <-- advance ;;; programLoop n body
  end end.

(** [parse(tokens)] = [parseProgram(tokens)], which sets [current = 0]. *)
Definition parse (n : nat) : outcome node :=
  (body <-- programLoop n [] ;;; p_ret (Program_ body)) 0.

End Parser.

(* ------------------------------------------------------------------ *)
(** ** Semantic analysis used by the pipeline (src/unnamed/part_000, lines 1-367) *)

Module Analyzer0.

(** Symbol records; [line] (always [undefined] here, the parser sets no
    [loc]) is left out. *)
Record symInfo := mkSym { s_type : string; s_isParam : bool; s_scope : string }.
Record funcInfo := mkFuncInfo { f_params : list jsval; f_returnType : string; f_std : bool }.

Record st := mkSt {
  currentFunctionScope : jsval;
  symbolTable : list (jsval * symInfo);
  functionTable : list (string * funcInfo);
  errors : list string;
  globalSymbolTable : list (jsval * symInfo) }.

(** An analysis step updates the state or throws a [TypeError] ([None]). *)
Definition M (A : Type) := st -> option (A * st).
Definition ret {A} (a : A) : M A := fun s => Some (a, s).
Definition bind {A B} (m : M A) (k : A -> M B) : M B :=
  fun s => match m s with Some (a, s') => k a s' | None => None end.
Notation "x <~ m ;; k" := (bind m (fun x => k)) (at level 61, m at next level, right associativity).
Definition throw {A} : M A := fun _ => None.
Definition gets {A} (f : st -> A) : M A := fun s => Some (f s, s).
Definition modify (f : st -> st) : M unit := fun s => Some (tt, f s).

Definition set_symbolTable (t : list (jsval * symInfo)) (s : st) : st :=
  mkSt s.(currentFunctionScope) t s.(functionTable) s.(errors) s.(globalSymbolTable).
Definition set_functionTable (t : list (string * funcInfo)) (s : st) : st :=
  mkSt s.(currentFunctionScope) s.(symbolTable) t s.(errors) s.(globalSymbolTable).
Definition set_global (t : list (jsval * symInfo)) (s : st) : st :=
  mkSt s.(currentFunctionScope) s.(symbolTable) s.(functionTable) s.(errors) t.
Definition set_scope (c : jsval) (s : st) : st :=
  mkSt c s.(symbolTable) s.(functionTable) s.(errors) s.(globalSymbolTable).

(** [this.errors.push(msg)] *)
Definition pushError (msg : string) : M unit :=
  modify (fun s => mkSt s.(currentFunctionScope) s.(symbolTable) s.(functionTable)
                        (s.(errors) ++ [msg]) s.(globalSymbolTable)).

Definition has {V} (m : list (jsval * V)) (k : jsval) : bool :=
  match map_get m k with Some _ => true | None => false end.

Definition stdlib : list (string * funcInfo) :=
  [("printf", mkFuncInfo [JStr "format"] "int" true);
   ("scanf", mkFuncInfo [JStr "format"] "int" true);
   ("strlen", mkFuncInfo [JStr "str"] "int" true);
   ("strcpy", mkFuncInfo [JStr "dest"; JStr "src"] "char*" true);
   ("malloc", mkFuncInfo [JStr "size"] "void*" true);
   ("free", mkFuncInfo [JStr "ptr"] "void" true);
   ("exit", mkFuncInfo [JStr "status"] "void" true)].

(** [addStandardLibraryFunctions] *)
Definition addStandardLibraryFunctions : M unit :=
  modify (fun s => set_functionTable
            (fold_left (fun t '(k, v) => smap_set t k v) stdlib s.(functionTable)) s).

(** Fields read from nodes ([undefined] where the node kind lacks them). *)
Definition n_initializer (n : node) : node :=
  match n with VariableDeclarator _ i => i | _ => Null end.
Definition n_type_of_param (n : node) : option string :=
  match n with Parameter_ t _ => Some t | _ => None end.

(** [analyzeFunctionCall], lines 317-334, given [analyzeExpression] for
    the arguments. *)
Definition analyzeFunctionCall (analyzeExpression : node -> M unit)
  (fname : string) (args : list node) : M unit :=
  ft <~ gets functionTable ;;
  match str_map_get ft fname with
  | None => pushError ("Function '" ++ fname ++ "' not declared")
  | Some func =>
      _ <~ (if negb (str_eqb fname "printf") &&
               negb (Nat.eqb (length args) (length func.(f_params)))
            then pushError ("Function '" ++ fname ++ "' expects " ++
                            string_of_nat (length func.(f_params)) ++
                            " arguments but got " ++ string_of_nat (length args))
            else ret tt) ;;
      (fix go (l : list node) : M unit :=
         match l with [] => ret tt | a :: r => _ <~ analyzeExpression a ;; go r end) args
  end.

(** [analyzeExpression], lines 269-315. *)
Fixpoint analyzeExpression (e : node) : M unit :=
  match e with
  | AssignmentExpression _ l r =>
      match l with
      | Null => throw   (* [expr.left.name] on [null] *)
      | _ =>
          t <~ gets symbolTable ;;
          _ <~ (if has t (node_name l) then ret tt
                else pushError ("Variable '" ++ js_str (node_name l) ++ "' not declared")) ;;
          analyzeExpression r
      end
  | BinaryExpression _ l r => _ <~ analyzeExpression l ;; analyzeExpression r
  | Identifier x =>
      t <~ gets symbolTable ;;
      if has t (JStr x) then ret tt else pushError ("Variable '" ++ x ++ "' not declared")
  | Literal _ => ret tt
  | FunctionCall f args => analyzeFunctionCall analyzeExpression f args
  | PrefixExpression _ a | PostfixExpression _ a => analyzeExpression a
  | _ => ret tt
  end.

(** [analyzeDeclaration], lines 248-267, for one declarator. *)
Definition analyzeDeclarator (varType : string) (v : node) : M unit :=
  t <~ gets symbolTable ;;
  if has t (node_name v) then
    pushError ("Variable '" ++ js_str (node_name v) ++ "' already declared")
  else
    c <~ gets currentFunctionScope ;;
    let info := mkSym (if truthy varType then varType else "int") false
                      (if truthy c then js_str c else "global") in
    _ <~ modify (fun s => set_symbolTable (map_set s.(symbolTable) (node_name v) info) s) ;;
    _ <~ modify (fun s => set_global (map_set s.(globalSymbolTable) (node_name v) info) s) ;;
    if node_truthy (n_initializer v) then analyzeExpression (n_initializer v) else ret tt.

Fixpoint m_iter {A} (f : A -> M unit) (l : list A) : M unit :=
  match l with [] => ret tt | x :: r => _ <~ f x ;; m_iter f r end.

(** [analyzeStatement] and [analyzeCompoundStatement], lines 215-246, with
    [analyzeReturnStatement], [analyzeIfStatement] and
    [analyzeForStatement], lines 336-365. *)
Fixpoint analyzeStatement (stmt : node) : M unit :=
  match stmt with
  | DeclarationStatement vt vs => m_iter (analyzeDeclarator vt) vs
  | ExpressionStatement e => analyzeExpression e
  | ReturnStatement e => if node_truthy e then analyzeExpression e else ret tt
  | IfStatement c th el =>
      _ <~ analyzeExpression c ;;
      _ <~ analyzeStatement th ;;
      if node_truthy el then analyzeStatement el else ret tt
  | ForStatement i c inc b =>
      _ <~ (if node_truthy i then analyzeStatement i else ret tt) ;;
      _ <~ analyzeExpression c ;;
      _ <~ (if node_truthy inc then analyzeExpression inc else ret tt) ;;
      analyzeStatement b
  | CompoundStatement body =>
      (fix go (l : list node) : M unit :=
         match l with [] => ret tt | x :: r => _ <~ analyzeStatement x ;; go r end) body
  | _ => ret tt
  end.

(** [analyzeFunction], lines 118-213. *)
Definition analyzeFunction (nd : node) : M unit :=
  match nd with
  | FunctionDeclaration rt nm ps body =>
      prevScope <~ gets currentFunctionScope ;;
      let funcName := if truthy nm then nm else "anonymous" in
      _ <~ modify (set_scope (JStr funcName)) ;;
      let params := map (fun '(i, p) =>
                           (let pn := node_paramName p in
                            if truthy pn then pn else JStr ("param" ++ string_of_nat i)%string,
                            match n_type_of_param p with
                            | Some t => if truthy t then t else "int"
                            | None => "int"
                            end))
                        (combine (seq 0 (length ps)) ps) in
      _ <~ m_iter (fun '(pn, pt) =>
              modify (fun s => set_global (map_set s.(globalSymbolTable) pn (mkSym pt true funcName)) s))
            params ;;
      let returnType := if truthy rt then rt else "int" in
      _ <~ modify (fun s => set_functionTable
              (smap_set s.(functionTable) funcName (mkFuncInfo (map fst params) returnType false)) s) ;;
      oldSymbolTable <~ gets symbolTable ;;
      _ <~ modify (set_symbolTable
              (fold_left (fun t '(pn, pt) => map_set t pn (mkSym pt true funcName)) params [])) ;;
      _ <~ match body with
           | CompoundStatement _ =>
               _ <~ analyzeStatement body ;;
               t <~ gets symbolTable ;;
               m_iter (fun '(k, info) =>
                   modify (fun s => set_global (map_set s.(globalSymbolTable) k
                                      (mkSym info.(s_type) info.(s_isParam) funcName)) s)) t
           | _ => ret tt
           end ;;
      _ <~ modify (set_symbolTable oldSymbolTable) ;;
      modify (set_scope prevScope)
  | _ => ret tt
  end.

(** [analyze], lines 71-116: the returned [symbolTable] is
    [globalSymbolTable]. *)
Definition analyze (ast : node) : M (list (jsval * symInfo) * list (string * funcInfo) * list string) :=
  _ <~ modify (fun s => mkSt s.(currentFunctionScope) [] [] [] []) ;;
  _ <~ addStandardLibraryFunctions ;;
  _ <~ match ast with
       | Program_ body =>
           m_iter (fun n => match n with
                            | FunctionDeclaration _ _ _ _ => analyzeFunction n
                            | _ => ret tt
                            end) body
       | _ => ret tt
       end ;;
  s <~ gets (fun s => s) ;;
  ret (s.(globalSymbolTable), s.(functionTable), s.(errors)).

(** A freshly constructed analyzer. *)
Definition init : st := mkSt JNull [] stdlib [] [].

End Analyzer0.

(* ------------------------------------------------------------------ *)
(** ** Semantic analysis with scopes (src/unnamed/part_001, lines 1-559)

    [Date.now()] is an input: the [k]-th call returns [now k], and the
    state counts the calls made so far. Plain objects used as tables are
    association lists in insertion order; scope and function names are
    assumed to be neither integer-like nor members of
    [Object.prototype]. *)

Module Analyzer1.

Record SymbolInfo := mkSI {
  si_name : jsval; si_type : string; si_scope : string; si_isInitialized : bool }.
Record FunctionInfo := mkFI {
  fi_name : string; fi_returnType : string; fi_parameters : list SymbolInfo; fi_isDefined : bool }.
Record SemanticError := mkErr { message : string; err_node : node }.

Record st := mkSt {
  symbolTable : list (string * list SymbolInfo);
  functionTable : list (string * FunctionInfo);
  currentScope : string;
  errors : list SemanticError;
  dateCalls : nat }.

Section WithClock.
Variable now : nat -> Z.

Definition M (A : Type) := st -> option (A * st).
Definition ret {A} (a : A) : M A := fun s => Some (a, s).
Definition bind {A B} (m : M A) (k : A -> M B) : M B :=
  fun s => match m s with Some (a, s') => k a s' | None => None end.
Notation "x <~ m ;; k" := (bind m (fun x => k)) (at level 61, m at next level, right associativity).
Definition throw {A} : M A := fun _ => None.
Definition gets {A} (f : st -> A) : M A := fun s => Some (f s, s).
Definition modify (f : st -> st) : M unit := fun s => Some (tt, f s).

Definition set_symbolTable t s := mkSt t s.(functionTable) s.(currentScope) s.(errors) s.(dateCalls).
Definition set_functionTable t s := mkSt s.(symbolTable) t s.(currentScope) s.(errors) s.(dateCalls).
Definition set_scope c s := mkSt s.(symbolTable) s.(functionTable) c s.(errors) s.(dateCalls).

(** [Date.now()] *)
Definition dateNow : M Z :=
  fun s => Some (now s.(dateCalls),
                 mkSt s.(symbolTable) s.(functionTable) s.(currentScope) s.(errors) (S s.(dateCalls))).

(** [this.errors.push(new SemanticError(message, node))] *)
Definition pushError (msg : string) (n : node) : M unit :=
  modify (fun s => mkSt s.(symbolTable) s.(functionTable) s.(currentScope)
                        (s.(errors) ++ [mkErr msg n]) s.(dateCalls)).

(** [reset], lines 40-45 (the clock is not part of the analyzer). *)
Definition reset : M unit :=
  modify (fun s => mkSt [] [] "global" [] s.(dateCalls)).

Definition q (s : string) : string := dq ++ s ++ dq.

Definition convertToSymbolType (t : jsval) : string :=
  match t with
  | JStr "int" => "int" | JStr "float" => "float" | JStr "double" => "double"
  | JStr "char" => "char" | JStr "void" => "void"
  | _ => "int"
  end.

Definition isNumericType (t : string) : bool :=
  existsb (str_eqb t) ["int"; "float"; "double"].

Definition getWiderType (t1 t2 : string) : string :=
  if str_eqb t1 "double" || str_eqb t2 "double" then "double"
  else if str_eqb t1 "float" || str_eqb t2 "float" then "float"
  else "int".

Fixpoint contains_char (c : ascii) (s : string) : bool :=
  match s with EmptyString => false | String d r => Ascii.eqb c d || contains_char c r end.

Definition inferLiteralType (value : string) : string :=
  if starts_with dq value then "string"
  else if contains_char "." value || contains_char "e" value || contains_char "E" value
  then "float" else "int".

(** [addSymbol], lines 515-521. *)
Definition addSymbol (si : SymbolInfo) : M unit :=
  modify (fun s =>
    let c := s.(currentScope) in
    set_symbolTable
      (match str_map_get s.(symbolTable) c with
       | Some l => smap_set s.(symbolTable) c (l ++ [si])
       | None => smap_set s.(symbolTable) c [si]
       end) s).

Fixpoint find_index {A} (p : A -> bool) (l : list A) : option (nat * A) :=
  match l with
  | [] => None
  | x :: r => if p x then Some (0, x) else option_map (fun '(i, y) => (S i, y)) (find_index p r)
  end.

(** [findSymbol], lines 523-540: the object found, as its scope key and
    position, since the caller may mutate it. *)
Definition findSymbol (nm : jsval) (s : st) : option (string * nat * SymbolInfo) :=
  let look c := match str_map_get s.(symbolTable) c with
                | Some l => option_map (fun '(i, si) => (c, i, si))
                                       (find_index (fun si => jsv_eqb si.(si_name) nm) l)
                | None => None
                end in
  match look s.(currentScope) with
  | Some r => Some r
  | None => if negb (str_eqb s.(currentScope) "global") then look "global" else None
  end.

Definition isSymbolDeclaredInCurrentScope (nm : jsval) (s : st) : bool :=
  match str_map_get s.(symbolTable) s.(currentScope) with
  | Some l => existsb (fun si => jsv_eqb si.(si_name) nm) l
  | None => false
  end.

(** [varInfo.isInitialized = true] on the object found by [findSymbol]. *)
Definition markInitialized (c : string) (i : nat) : M unit :=
  modify (fun s =>
    match str_map_get s.(symbolTable) c with
    | Some l =>
        set_symbolTable
          (smap_set s.(symbolTable) c
             (firstn i l ++ match skipn i l with
                             | si :: r => mkSI si.(si_name) si.(si_type) si.(si_scope) true :: r
                             | [] => []
                             end)) s
    | None => s
    end).

(** [analyzeExpression] (lines 303-326) with the functions it dispatches
    to (lines 328-491); the result is the expression's type, [None] for
    [null]. *)
Fixpoint analyzeExpression (e : node) : M (option string) :=
  match e with
  | AssignmentExpression _ l r =>
      match l with
      | Null => throw   (* [expr.left.type] on [null] *)
      | Identifier varName =>
          s <~ gets (fun s => s) ;;
          match findSymbol (JStr varName) s with
          | None => _ <~ pushError ("Variable " ++ q varName ++ " is not declared") l ;; ret None
          | Some (c, i, varInfo) =>
              _ <~ markInitialized c i ;;
              rightType <~ analyzeExpression r ;;
              _ <~ match rightType with
                   | Some rt =>
                       if truthy rt && negb (str_eqb rt varInfo.(si_type))
                       then pushError ("Cannot assign value of type " ++ q rt ++
                                       " to variable of type " ++ q varInfo.(si_type)) e
                       else ret tt
                   | None => ret tt
                   end ;;
              ret (Some varInfo.(si_type))
          end
      | _ => _ <~ pushError "Left side of assignment must be a variable" e ;; ret None
      end
  | BinaryExpression op l r =>
      leftType <~ analyzeExpression l ;;
      rightType <~ analyzeExpression r ;;
      match leftType, rightType with
      | Some a, Some b =>
          if existsb (str_eqb op) ["*"; "/"; "%"; "+"; "-"] then
            if str_eqb a "string" && str_eqb op "+" && str_eqb b "string" then ret (Some "string")
            else if negb (isNumericType a) || negb (isNumericType b) then
              _ <~ pushError ("Operator " ++ q op ++ " cannot be applied to types " ++ q a ++
                              " and " ++ q b) e ;;
              ret None
            else ret (Some (getWiderType a b))
          else if existsb (str_eqb op) ["<"; ">"; "<="; ">="; "=="; "!="] then
            _ <~ (if negb (str_eqb a b) && negb (isNumericType a && isNumericType b)
                  then pushError ("Cannot compare values of types " ++ q a ++ " and " ++ q b) e
                  else ret tt) ;;
            ret (Some "int")
          else ret None
      | _, _ => ret None
      end
  | Identifier varName =>
      s <~ gets (fun s => s) ;;
      match findSymbol (JStr varName) s with
      | None => _ <~ pushError ("Variable " ++ q varName ++ " is not declared") e ;; ret None
      | Some (_, _, varInfo) =>
          _ <~ (if negb varInfo.(si_isInitialized)
                then pushError ("Variable " ++ q varName ++ " is used before initialization") e
                else ret tt) ;;
          ret (Some varInfo.(si_type))
      end
  | Literal v => ret (Some (inferLiteralType v))
  | FunctionCall funcName args =>
      ft <~ gets functionTable ;;
      match str_map_get ft funcName with
      | None =>
          if str_eqb funcName "printf" then ret (Some "int")
          else _ <~ pushError ("Function " ++ q funcName ++ " is not declared") e ;; ret None
      | Some funcInfo =>
          _ <~ (if negb (Nat.eqb (length args) (length funcInfo.(fi_parameters))) then
                  pushError ("Function " ++ q funcName ++ " expects " ++
                             string_of_nat (length funcInfo.(fi_parameters)) ++
                             " arguments, but got " ++ string_of_nat (length args)) e
                else
                  (fix go (i : nat) (args : list node) (ps : list SymbolInfo) : M unit :=
                     match args, ps with
                     | a :: ar, p :: pr =>
                         argType <~ analyzeExpression a ;;
                         _ <~ match argType with
                              | Some t =>
                                  if truthy t && negb (str_eqb t p.(si_type))
                                  then pushError ("Argument " ++ string_of_nat (S i) ++
                                                  " of function " ++ q funcName ++
                                                  " should be of type " ++ p.(si_type) ++
                                                  ", but got " ++ t) a
                                  else ret tt
                              | None => ret tt
                              end ;;
                         go (S i) ar pr
                     | _, _ => ret tt
                     end) 0 args funcInfo.(fi_parameters)) ;;
          ret (Some funcInfo.(fi_returnType))
      end
  | PrefixExpression op a | PostfixExpression op a =>
      argType <~ analyzeExpression a ;;
      match argType with
      | None => ret None
      | Some t =>
          if negb (isNumericType t) then
            _ <~ pushError ("Operator " ++ q op ++ " cannot be applied to type " ++ q t) e ;;
            ret None
          else ret (Some t)
      end
  | _ => ret None
  end.

Fixpoint m_iter {A} (f : A -> M unit) (l : list A) : M unit :=
  match l with [] => ret tt | x :: r => _ <~ f x ;; m_iter f r end.

(** [analyzeDeclaration], lines 188-220, for one declarator. *)
Definition analyzeDeclarator (varType : string) (variable : node) : M unit :=
  match variable with
  | Null => throw   (* [variable.name] on [null] *)
  | _ =>
  let nm := node_name variable in
  c <~ gets currentScope ;;
  let isInit := match variable with VariableDeclarator _ Null => false | _ => true end in
  s <~ gets (fun s => s) ;;
  _ <~ (if isSymbolDeclaredInCurrentScope nm s
        then pushError ("Variable " ++ q (js_str nm) ++ " is already declared in this scope") variable
        else addSymbol (mkSI nm varType c isInit)) ;;
  let init := match variable with VariableDeclarator _ i => i | _ => Null end in
  if node_truthy init then
    initializerType <~ analyzeExpression init ;;
    match initializerType with
    | Some t =>
        if truthy t && negb (str_eqb t varType)
        then pushError ("Cannot initialize variable of type " ++ q varType ++
                        " with value of type " ++ q t) variable
        else ret tt
    | None => ret tt
    end
  else ret tt
  end.

Definition analyzeDeclaration (vt : string) (variables : list node) : M unit :=
  m_iter (analyzeDeclarator (convertToSymbolType (JStr vt))) variables.

(** [analyzeReturnStatement], lines 222-252. *)
Definition analyzeReturnStatement (nd expression : node) : M unit :=
  s <~ gets (fun s => s) ;;
  match str_map_get s.(functionTable) s.(currentScope) with
  | None => pushError "Return statement outside of function" nd
  | Some functionInfo =>
      if negb (node_truthy expression) && negb (str_eqb functionInfo.(fi_returnType) "void") then
        pushError ("Function " ++ q functionInfo.(fi_name) ++ " must return a value of type " ++
                   functionInfo.(fi_returnType)) nd
      else if node_truthy expression then
        exprType <~ analyzeExpression expression ;;
        match exprType with
        | Some t =>
            if truthy t && negb (str_eqb t functionInfo.(fi_returnType))
            then pushError ("Function " ++ q functionInfo.(fi_name) ++ " should return " ++
                            functionInfo.(fi_returnType) ++ ", but got " ++ t) nd
            else ret tt
        | None => ret tt
        end
      else ret tt
  end.

(** [analyzeStatement] and [analyzeCompoundStatement] (lines 150-186),
    with [analyzeIfStatement] and [analyzeForStatement] (lines 254-301). *)
Fixpoint analyzeStatement (stmt : node) : M unit :=
  match stmt with
  | DeclarationStatement vt vs => analyzeDeclaration vt vs
  | ExpressionStatement e => _ <~ analyzeExpression e ;; ret tt
  | ReturnStatement e => analyzeReturnStatement stmt e
  | IfStatement c th el =>
      _ <~ (if node_truthy c then _ <~ analyzeExpression c ;; ret tt else ret tt) ;;
      _ <~ (if node_truthy th then analyzeStatement th else ret tt) ;;
      if node_truthy el then analyzeStatement el else ret tt
  | ForStatement init c inc body =>
      oldScope <~ gets currentScope ;;
      d <~ dateNow ;;
      _ <~ modify (set_scope (oldScope ++ ".for" ++ string_of_Z d)) ;;
      _ <~ (if node_truthy init then
              match init with
              | DeclarationStatement vt vs => analyzeDeclaration vt vs
              | _ => _ <~ analyzeExpression init ;; ret tt
              end
            else ret tt) ;;
      _ <~ (if node_truthy c then _ <~ analyzeExpression c ;; ret tt else ret tt) ;;
      _ <~ (if node_truthy inc then _ <~ analyzeExpression inc ;; ret tt else ret tt) ;;
      _ <~ (if node_truthy body then analyzeStatement body else ret tt) ;;
      modify (set_scope oldScope)
  | CompoundStatement body =>
      oldScope <~ gets currentScope ;;
      d <~ dateNow ;;
      _ <~ modify (set_scope (oldScope ++ ".block" ++ string_of_Z d)) ;;
      _ <~ (fix go (l : list node) : M unit :=
              match l with [] => ret tt | x :: r => _ <~ analyzeStatement x ;; go r end) body ;;
      modify (set_scope oldScope)
  | _ => ret tt
  end.

(** One iteration of the loop of [hasReturnStatement] (lines 123-145):
    [Some true] returns [true], [Some false] goes on, [None] throws. *)
Fixpoint hasReturnStmt (stmt : node) : option bool :=
  match stmt with
  | Null => None   (* [stmt.type] on [null] *)
  | ReturnStatement _ => Some true
  | CompoundStatement b =>
      (fix go (l : list node) : option bool :=
         match l with
         | [] => Some false
         | x :: r => match hasReturnStmt x with
                     | Some false => go r
                     | o => o
                     end
         end) b
  | IfStatement _ th el =>
      match (if node_truthy th then hasReturnStmt th else Some false),
            (if node_truthy el then hasReturnStmt el else Some false) with
      | Some a, Some b => Some (a && b)
      | _, _ => None
      end
  | _ => Some false
  end.

(** [hasReturnStatement(node)] for a function body. *)
Definition hasReturnStatement (n : node) : option bool :=
  match n with
  | CompoundStatement _ => hasReturnStmt n
  | Program_ b => hasReturnStmt (CompoundStatement b)
  | FunctionDeclaration _ _ _ b | ForStatement _ _ _ b =>
      if node_truthy b then None else Some false   (* [for..of] over a non-iterable *)
  | _ => Some false
  end.

(** [analyzeFunction], lines 71-121. *)
Definition analyzeFunction (funcNode : node) : M unit :=
  match funcNode with
  | FunctionDeclaration rt funcName ps body =>
      let returnType := convertToSymbolType (JStr rt) in
      _ <~ modify (set_scope funcName) ;;
      params <~ (fix go (l : list node) : M (list SymbolInfo) :=
                   match l with
                   | [] => ret []
                   | Null :: _ => throw   (* [param.paramName] on [null] *)
                   | p :: r =>
                       let si := mkSI (node_paramName p)
                                   (convertToSymbolType
                                      (match p with Parameter_ t _ => JStr t | _ => JUndefined end))
                                   funcName true in
                       _ <~ addSymbol si ;;
                       rest <~ go r ;;
                       ret (si :: rest)
                   end) ps ;;
      _ <~ modify (fun s => set_functionTable
              (smap_set s.(functionTable) funcName (mkFI funcName returnType params true)) s) ;;
      _ <~ match body with
           | CompoundStatement b =>
               (fix go (l : list node) : M unit :=
                  match l with [] => ret tt | x :: r => _ <~ analyzeStatement x ;; go r end) b
           | _ => ret tt
           end ;;
      _ <~ (if negb (str_eqb returnType "void") then
              match hasReturnStatement body with
              | None => throw
              | Some true => ret tt
              | Some false =>
                  pushError ("Function " ++ q funcName ++ " must return a value of type " ++
                             returnType) funcNode
              end
            else ret tt) ;;
      modify (set_scope "global")
  | _ => ret tt
  end.

(** [analyze] (lines 48-58) with [analyzeProgram] (lines 60-69). *)
Definition analyze (ast : node)
  : M (list (string * list SymbolInfo) * list (string * FunctionInfo) * list SemanticError) :=
  _ <~ reset ;;
  _ <~ match ast with
       | Program_ body =>
           m_iter (fun n => match n with
                            | Null => throw
                            | FunctionDeclaration _ _ _ _ => analyzeFunction n
                            | _ => ret tt
                            end) body
       | _ => ret tt
       end ;;
  s <~ gets (fun s => s) ;;
  ret (s.(symbolTable), s.(functionTable), s.(errors)).

End WithClock.

(** A freshly constructed analyzer ([constructor] calls [reset]). *)
Definition init : st := mkSt [] [] "global" [] 0.

End Analyzer1.

(* ------------------------------------------------------------------ *)
(** ** Lexer (src/unnamed/part_000, lines 373-509)

    Source text is a list of UTF-16 code units. A regular expression is
    embedded as a backtracking matcher: given the text and a start index
    it lists the end indices of its matches in the order the JavaScript
    engine tries them, so the first one is the match it returns. *)

Module Lexer.
Open Scope N_scope.

Definition text := list N.
Definition matcher := text -> nat -> list nat.

Definition m_eps : matcher := fun _ k => [k].
Definition m_char (p : N -> bool) : matcher :=
  fun l k => match nth_error l k with Some c => if p c then [S k] else [] | None => [] end.
Definition m_seq (a b : matcher) : matcher := fun l k => flat_map (b l) (a l k).
Definition m_alt (a b : matcher) : matcher := fun l k => a l k ++ b l k.
Definition m_opt (a : matcher) : matcher := m_alt a m_eps.
(** [^] without the [m] flag. *)
Definition m_bol : matcher := fun _ k => if Nat.eqb k 0 then [k] else [].

(** Greedy [a*]: one more iteration first, then stop; an iteration that
    matches the empty string fails. Every iteration consumes a code unit,
    so [length l + 1] rounds are enough. *)
Fixpoint star_go (fuel : nat) (a : matcher) (l : text) (k : nat) : list nat :=
  match fuel with
  | O => [k]
  | S f => flat_map (fun k' => if Nat.eqb k' k then [] else star_go f a l k') (a l k) ++ [k]
  end.
Definition m_star (a : matcher) : matcher := fun l k => star_go (S (length l)) a l k.
Definition m_plus (a : matcher) : matcher := m_seq a (m_star a).

(** Lazy [a*?]: stop first, then one more iteration. *)
Fixpoint lazy_go (fuel : nat) (a : matcher) (l : text) (k : nat) : list nat :=
  match fuel with
  | O => [k]
  | S f => k :: flat_map (fun k' => if Nat.eqb k' k then [] else lazy_go f a l k') (a l k)
  end.
Definition m_lazy_star (a : matcher) : matcher := fun l k => lazy_go (S (length l)) a l k.

Definition is_word (c : N) : bool :=
  ((65 <=? c) && (c <=? 90)) || ((97 <=? c) && (c <=? 122)) || ((48 <=? c) && (c <=? 57)) || (c =? 95).
Definition is_alpha_ (c : N) : bool :=
  ((65 <=? c) && (c <=? 90)) || ((97 <=? c) && (c <=? 122)) || (c =? 95).
Definition is_dgt (c : N) : bool := (48 <=? c) && (c <=? 57).
Definition is_hex (c : N) : bool :=
  is_dgt c || ((65 <=? c) && (c <=? 70)) || ((97 <=? c) && (c <=? 102)).
(** [\s]: WhiteSpace and LineTerminator code units. *)
Definition is_space (c : N) : bool :=
  existsb (N.eqb c) [9; 10; 11; 12; 13; 32; 160; 5760; 8232; 8233; 8239; 8287; 12288; 65279]
  || ((8192 <=? c) && (c <=? 8202)).
Definition is_line_terminator (c : N) : bool := existsb (N.eqb c) [10; 13; 8232; 8233].

(** [\b] *)
Definition m_bnd : matcher :=
  fun l k =>
    let before := match k with O => false | S j => match nth_error l j with Some c => is_word c | None => false end end in
    let after := match nth_error l k with Some c => is_word c | None => false end in
    if xorb before after then [k] else [].

Definition cu (s : string) : text := map (fun a => N.of_nat (nat_of_ascii a)) (list_ascii_of_string s).
Definition m_lit (s : text) : matcher := fold_right (fun c m => m_seq (m_char (N.eqb c)) m) m_eps s.
Definition m_alts (ms : list matcher) : matcher := fold_right m_alt (fun _ _ => []) ms.
Definition m_in (cs : list N) : matcher := m_char (fun c => existsb (N.eqb c) cs).
Definition m_not_in (cs : list N) : matcher := m_char (fun c => negb (existsb (N.eqb c) cs)).

(** [regex.test(s)] for a regex without the [g] flag. *)
Definition re_test (r : matcher) (l : text) : bool :=
  existsb (fun k => match r l k with [] => false | _ => true end) (seq 0 (S (length l))).

(** The regexes of [tokenRegex], lines 383-398, in their key order. *)
Definition re_preprocessor : matcher :=
  m_seq m_bol (m_seq (m_lit (cu "#")) (m_seq (m_star (m_char is_space))
    (m_seq (m_plus (m_char is_word)) (m_seq (m_star (m_char is_space))
      (m_alt (m_seq (m_lit (cu "<")) (m_seq (m_plus (m_not_in (cu ">"))) (m_lit (cu ">"))))
             (m_seq (m_lit [34]) (m_seq (m_plus (m_not_in [34])) (m_lit [34])))))))).
Definition keywords : list string :=
  ["int"; "char"; "float"; "double"; "if"; "else"; "for"; "while"; "return"; "void"; "include"; "define"].
Definition re_keyword : matcher :=
  m_seq m_bnd (m_seq (m_alts (map (fun w => m_lit (cu w)) keywords)) m_bnd).
Definition re_identifier : matcher :=
  m_seq m_bnd (m_seq (m_char is_alpha_) (m_seq (m_star (m_char is_word)) m_bnd)).
Definition re_number : matcher :=
  m_seq m_bnd (m_seq
    (m_alt (m_seq (m_lit (cu "0x")) (m_plus (m_char is_hex)))
           (m_seq (m_plus (m_char is_dgt))
              (m_seq (m_opt (m_seq (m_lit (cu ".")) (m_plus (m_char is_dgt))))
                     (m_opt (m_seq (m_in (cu "eE")) (m_seq (m_opt (m_in (cu "-+"))) (m_plus (m_char is_dgt))))))))
    m_bnd).
Definition re_string_literal : matcher :=
  m_seq m_bol (m_seq (m_lit [34])
    (m_seq (m_star (m_alt (m_not_in [34; 92]) (m_seq (m_lit [92]) (m_char (fun c => negb (is_line_terminator c))))))
           (m_lit [34]))).
Definition operator_chars : text := cu "-+*/%=<>&^|!~".
Definition re_operator : matcher :=
  m_seq m_bol (m_alts (map (fun w => m_lit (cu w)) ["=="; "!="; "<="; ">="; "++"; "--"; "->"; "&&"; "||"]
                       ++ [m_in operator_chars])).
Definition re_separator : matcher := m_seq m_bol (m_in (cu ";,.:")).
Definition re_open_paren : matcher := m_seq m_bol (m_lit (cu "(")).
Definition re_close_paren : matcher := m_seq m_bol (m_lit (cu ")")).
Definition re_open_brace : matcher := m_seq m_bol (m_lit (cu "{")).
Definition re_close_brace : matcher := m_seq m_bol (m_lit (cu "}")).
Definition re_comment : matcher :=
  m_alt (m_seq m_bol (m_seq (m_lit (cu "//")) (m_star (m_char (fun c => negb (is_line_terminator c))))))
        (m_seq m_bol (m_seq (m_lit (cu "/*")) (m_seq (m_lazy_star (m_char (fun _ => true))) (m_lit (cu "*/"))))).

Definition tokenRegex : list (string * matcher) :=
  [("PREPROCESSOR", re_preprocessor); ("KEYWORD", re_keyword); ("IDENTIFIER", re_identifier);
   ("NUMBER", re_number); ("STRING_LITERAL", re_string_literal); ("OPERATOR", re_operator);
   ("SEPARATOR", re_separator); ("OPEN_PAREN", re_open_paren); ("CLOSE_PAREN", re_close_paren);
   ("OPEN_BRACE", re_open_brace); ("CLOSE_BRACE", re_close_brace); ("COMMENT", re_comment)].

Record ltoken := mkLTok { ltype : string; lvalue : text }.

(** [classifyLexeme], lines 401-406. *)
Definition classifyLexeme (lexeme : text) : ltoken :=
  match find (fun '(_, r) => re_test r lexeme) tokenRegex with
  | Some (ty, _) => mkLTok ty lexeme
  | None => mkLTok "UNDEFINED" lexeme
  end.

Definition slice (l : text) (a b : nat) : text := firstn (b - a) (skipn a l).

(** The first match of a regex searched from index [p] on. *)
Definition search (r : matcher) (l : text) (p : nat) : option (nat * nat) :=
  match find (fun k => match r l k with [] => false | _ => true end)
             (seq p (S (length l) - p)) with
  | Some k => match r l k with e :: _ => Some (k, e) | [] => None end
  | None => None
  end.

(** [/\/\*[\s\S]*?\*\//g] *)
Definition re_block_comment : matcher :=
  m_seq (m_lit (cu "/*")) (m_seq (m_lazy_star (m_char (fun _ => true))) (m_lit (cu "*/"))).

(** [inputCode.replace(/\/\*[\s\S]*?\*\//g, ...)], lines 411-414: the
    matches (the COMMENT tokens pushed, in order) and the text from index
    [p] on with every match replaced by as many spaces. The regex never
    matches the empty string, so the search always resumes at the end of
    the previous match. *)
Fixpoint replace_go (fuel : nat) (l : text) (p : nat) : option (list text * text) :=
  match fuel with
  | O => None
  | S f =>
      match search re_block_comment l p with
      | None => Some ([], skipn p l)
      | Some (k, e) =>
          match replace_go f l e with
          | Some (ms, out) => Some (slice l k e :: ms, slice l p k ++ repeat 32 (e - k) ++ out)
          | None => None
          end
      end
  end.

(** [inputCode.split('\n')] *)
Fixpoint split_nl (l : text) : list text :=
  match l with
  | [] => [[]]
  | c :: r =>
      if c =? 10 then [] :: split_nl r
      else match split_nl r with
           | x :: xs => (c :: x) :: xs
           | [] => [[c]]
           end
  end.

(** [String.prototype.trim] *)
Definition trim (l : text) : text :=
  rev (snd (span is_space (rev (snd (span is_space l))))).

Definition tok (ty : string) (v : text) : ltoken := mkLTok ty v.

(** The [while (i < line.length)] loop of [tokenize], lines 425-504, on the
    rest [line.slice(i)] of the line. *)
Fixpoint scanLine (fuel : nat) (r : text) : option (list ltoken) :=
  match fuel with
  | O => None
  | S f =>
  match r with
  | [] => Some []
  | c :: r' =>
      if is_space c then scanLine f r'                                (* [/\s/.test(line[i])] *)
      else if (c =? 47) && match r' with d :: _ => d =? 47 | [] => false end
      then Some [tok "COMMENT" r]
      else if c =? 34 then
        match re_string_literal r O with
        | e :: _ => option_map (cons (tok "STRING_LITERAL" (firstn e r))) (scanLine f (skipn e r))
        | [] => option_map (cons (tok "UNDEFINED" [34])) (scanLine f r')
        end
      else
      let twoChar := firstn 2 r in
      if re_test re_operator twoChar then
        option_map (cons (tok "OPERATOR" twoChar)) (scanLine f (skipn 2 r))
      else if re_test re_operator [c] then option_map (cons (tok "OPERATOR" [c])) (scanLine f r')
      else if re_test re_separator [c] then option_map (cons (tok "SEPARATOR" [c])) (scanLine f r')
      else if re_test re_open_paren [c] then option_map (cons (tok "OPEN_PAREN" [c])) (scanLine f r')
      else if re_test re_close_paren [c] then option_map (cons (tok "CLOSE_PAREN" [c])) (scanLine f r')
      else if re_test re_open_brace [c] then option_map (cons (tok "OPEN_BRACE" [c])) (scanLine f r')
      else if re_test re_close_brace [c] then option_map (cons (tok "CLOSE_BRACE" [c])) (scanLine f r')
      else
        match span is_word r with
        | ([], _) => option_map (cons (tok "UNDEFINED" [c])) (scanLine f r')
        | (lexeme, rest) => option_map (cons (classifyLexeme lexeme)) (scanLine f rest)
        end
  end
  end.

(** [/^\s*#/] *)
Definition re_preprocessor_line : matcher :=
  m_seq m_bol (m_seq (m_star (m_char is_space)) (m_lit (cu "#"))).

Definition lineTokens (line : text) : option (list ltoken) :=
  if re_test re_preprocessor_line line then Some [tok "PREPROCESSOR" (trim line)]
  else scanLine (S (length line)) line.

Fixpoint map_opt {A B} (f : A -> option B) (l : list A) : option (list B) :=
  match l with
  | [] => Some []
  | x :: r => match f x, map_opt f r with Some y, Some ys => Some (y :: ys) | _, _ => None end
  end.

(** [tokenize], lines 408-509; [None] would be non-termination. *)
Definition tokenize (inputCode : text) : option (list ltoken) :=
  match replace_go (S (length inputCode)) inputCode 0 with
  | None => None
  | Some (comments, code) =>
      option_map (fun ts => map (tok "COMMENT") comments ++ concat ts)
                 (map_opt lineTokens (split_nl code))
  end.

End Lexer.

(* ------------------------------------------------------------------ *)
(** ** Reference notions used in the properties *)

(** A store reading of straight-line TAC: variables hold integers, a
    numeric operand stands for its value, [=], [+] and [-] write their
    destination.  This is the meaning the generator's code has for the
    assembly emitter (a [mov] and an [add]/[sub] through [eax]). *)
Definition tac_env := list (string * Z).

Fixpoint env_get (e : tac_env) (k : string) : option Z :=
  match e with
  | [] => None
  | (k', v) :: r => if str_eqb k k' then Some v else env_get r k
  end.

Definition operand_val (e : tac_env) (x : jsval) : option Z :=
  match x with
  | JStr s => if is_nan_number x then env_get e s else parseInt x
  | _ => None
  end.

Definition exec_instr (e : tac_env) (i : TACInstruction) : tac_env :=
  match i.(result) with
  | JStr r =>
      if str_eqb i.(op) "=" then
        match operand_val e i.(arg1) with Some v => (r, v) :: e | None => e end
      else if str_eqb i.(op) "+" || str_eqb i.(op) "-" then
        match operand_val e i.(arg1), operand_val e i.(arg2) with
        | Some a, Some b => (r, if str_eqb i.(op) "+" then (a + b)%Z else (a - b)%Z) :: e
        | _, _ => e
        end
      else e
  | _ => e
  end.

Definition exec_tac (e : tac_env) (l : list TACInstruction) : tac_env :=
  fold_left exec_instr l e.

(** Last character of a string. *)
Fixpoint last_char (s : string) : option ascii :=
  match s with
  | EmptyString => None
  | String c EmptyString => Some c
  | String _ r => last_char r
  end.

Definition ends_in_digit (s : string) : bool :=
  match last_char s with Some c => is_digit c | None => false end.

(** Shape of the instructions of function [nm], from IR generation to the
    end of optimization: no [label] field other than the loop marker, and
    a [LABEL] names the function's entry, or a generated label or
    temporary ([L<n>], [t<n>], ending in a digit). *)
Definition tac_ok (nm : string) (i : TACInstruction) : Prop :=
  (i.(label) = None \/ i.(label) = Some "OPTIMIZED_LOOP") /\
  (i.(op) = "LABEL" ->
   i.(result) = JStr ("func_" ++ nm) \/ exists s, i.(result) = JStr s /\ ends_in_digit s = true).

(** Hoare-style reading of an IR computation for function [nm]: it keeps
    the emitted code well shaped and its result satisfies [Q]. *)
Definition ir_spec {A} (nm : string) (m : IR A) (Q : A -> Prop) : Prop :=
  forall s, Forall (tac_ok nm) s.(code) ->
            Forall (tac_ok nm) (snd (m s)).(code) /\ Q (fst (m s)).

(** The first earlier non-control instruction with key [k]: the entry
    [expressions.get(k)] was made from. *)
Definition first_with_key (l : list TACInstruction) (k : string) : option TACInstruction :=
  find (fun x => negb (is_control x) && str_eqb (exprKey x) k) l.

(** What [commonSubexpressionElimination] puts at a position, given the
    instructions before it. *)
Definition cse_image (before : list TACInstruction) (i : TACInstruction) : TACInstruction :=
  if is_control i then i
  else match first_with_key before (exprKey i) with
       | Some i0 => instr "=" i0.(result) JNull i.(result)
       | None => i
       end.

(** The parsing functions do not throw, the two that read the current
    token without checking it being called on an existing token. *)
Definition parsers_no_throw (tokens : list token) (r : parsers) : Prop :=
  (forall c, r.(parseStatement_) c <> Threw) /\
  (forall c t, nth_error tokens c = Some t -> r.(parseCompoundStatement_) c <> Threw) /\
  (forall b c, r.(compoundLoop_) b c <> Threw) /\
  (forall c, r.(parseReturnStatement_) c <> Threw) /\
  (forall c, r.(parseIfStatement_) c <> Threw) /\
  (forall c, r.(parseForStatement_) c <> Threw) /\
  (forall e c t, nth_error tokens c = Some t -> r.(parseDeclaration_) e c <> Threw) /\
  (forall e v c, r.(declLoop_) e v c <> Threw) /\
  (forall c, r.(parseExpressionStatement_) c <> Threw) /\
  (forall c, r.(parseExpression_) c <> Threw) /\
  (forall c, r.(parseEquality_) c <> Threw) /\
  (forall l c, r.(equalityLoop_) l c <> Threw) /\
  (forall c, r.(parseRelational_) c <> Threw) /\
  (forall l c, r.(relationalLoop_) l c <> Threw) /\
  (forall c, r.(parseAdditive_) c <> Threw) /\
  (forall l c, r.(additiveLoop_) l c <> Threw) /\
  (forall c, r.(parseMultiplicative_) c <> Threw) /\
  (forall l c, r.(multiplicativeLoop_) l c <> Threw) /\
  (forall c, r.(parseUnary_) c <> Threw) /\
  (forall c, r.(parsePostfix_) c <> Threw) /\
  (forall l c, r.(postfixLoop_) l c <> Threw) /\
  (forall c, r.(parsePrimary_) c <> Threw) /\
  (forall a c, r.(argsLoop_) a c <> Threw).

(* ------------------------------------------------------------------ *)
(** ** Example inputs *)

(** A counting loop in TAC: [L1: t1 = i + 1; goto L1; L2:]. *)
Definition loop_example : list TACInstruction :=
  [instr "LABEL" JNull JNull "L1"; instr "+" "i" "1" "t1";
   instr "GOTO" "L1" JNull JNull; instr "LABEL" JNull JNull "L2"].

(** The tokens of [int main() { return 0;] (closing brace missing). *)
Definition toks_truncated : list token :=
  [mkTok "KEYWORD" "int"; mkTok "IDENTIFIER" "main"; mkTok "OPEN_PAREN" "(";
   mkTok "CLOSE_PAREN" ")"; mkTok "OPEN_BRACE" "{"; mkTok "KEYWORD" "return";
   mkTok "NUMBER" "0"; mkTok "SEPARATOR" ";"].

(** [int main() { return g(1); } int g(int a, int b) { return a; }] *)
Definition prog_forward_call : node :=
  Program_ [FunctionDeclaration "int" "main" []
              (CompoundStatement [ReturnStatement (FunctionCall "g" [Literal "1"])]);
            FunctionDeclaration "int" "g" [Parameter_ "int" "a"; Parameter_ "int" "b"]
              (CompoundStatement [ReturnStatement (Identifier "a")])].

(** [int main() { { int x = 1; } return 0; }] *)
Definition prog_block : node :=
  Program_ [FunctionDeclaration "int" "main" []
              (CompoundStatement
                 [CompoundStatement [DeclarationStatement "int" [VariableDeclarator "x" (Literal "1")]];
                  ReturnStatement (Literal "0")])].

(** A clock whose [k]-th reading is [1000 + k] milliseconds. *)
Definition ticking_clock (k : nat) : Z := (1000 + Z.of_nat k)%Z.

(** Every function of a function map has well-shaped instructions for its
    own name. *)
Definition fs_ok (fs : list (string * TACFunction)) : Prop :=
  forall k f, In (k, f) fs -> Forall (tac_ok k) f.(instructions).

(** An integer model of the number operations (NaN as [None], division
    truncating), used to run the optimizer on examples. *)
Definition z_op (f : Z -> Z -> Z) (a b : option Z) : option Z :=
  match a, b with Some x, Some y => Some (f x y) | _, _ => None end.

Definition js_int_model : js_number_ops := {|
  jsnum := option Z;
  js_Number := fun x => match x with JNull => Some 0%Z | _ => parseInt x end;
  js_add := z_op Z.add; js_sub := z_op Z.sub; js_mul := z_op Z.mul;
  js_div := z_op Z.quot; js_mod := z_op Z.rem;
  js_toString := fun a => match a with Some z => string_of_Z z | None => "NaN" end |}.

(** [int id(int a) { return a; }] *)
Definition prog_identity : node :=
  Program_ [FunctionDeclaration "int" "id" [Parameter_ "int" "a"]
              (CompoundStatement [ReturnStatement (Identifier "a")])].

(** Notions about the lexer's matchers: a matcher is monotone when every
    end index it returns is at or after its start, bounded when it never
    ends past the text, and consuming when it always moves forward. *)
Module LexerSpec.
Import Lexer.

Definition m_mono (m : matcher) : Prop := forall l k k', In k' (m l k) -> (k <= k')%nat.
Definition m_bnd_ok (m : matcher) : Prop :=
  forall l k k', (k <= length l)%nat -> In k' (m l k) -> (k' <= length l)%nat.
Definition m_consumes (m : matcher) : Prop := forall l k k', In k' (m l k) -> (S k <= k')%nat.

(** The non-whitespace code units of a text ([\s] removed), in order. *)
Definition non_space (l : text) : text := filter (fun c => negb (is_space c)) l.

End LexerSpec.

(* ------------------------------------------------------------------ *)
(** ** Notions for the properties of the passes, the generators and the analyzer *)

(** An optimizer pass maps instruction [i] to [o] keeping its destination,
    and leaves the control instructions as they are. *)
Definition pass_shape (i o : TACInstruction) : Prop :=
  o.(result) = i.(result) /\ (is_control i = true -> o = i).

Definition not_assign (i : TACInstruction) : bool := negb (str_eqb i.(op) "=").

(** A decimal digit character. *)
Definition dec_char (c : ascii) : Prop := exists k, (k < 10)%nat /\ c = ascii_of_nat (48 + k).

(** The [PreprocessorDirective] nodes [parseProgram] builds for the
    preprocessor tokens of a token list. *)
Definition preprocessor_lines (ts : list token) : list node :=
  map (fun t => PreprocessorDirective (trim t.(tvalue))) (filter (fun t => typ t "PREPROCESSOR") ts).

(** [for (int i = 0; i < 3; i++) { i; }] *)
Definition for_block_prog : node :=
  ForStatement (DeclarationStatement "int" [VariableDeclarator "i" (Literal "0")])
    (BinaryExpression "<" (Identifier "i") (Literal "3"))
    (PostfixExpression "++" (Identifier "i"))
    (CompoundStatement [ExpressionStatement (Identifier "i")]).

Definition declared_name (n : node) : option string :=
  match n with FunctionDeclaration _ x _ _ => Some x | _ => None end.

Definition key_named (e : string * TACFunction) : Prop := name (snd e) = fst e.

(** A generator step that only appends to [code]. *)
Definition ir_grows {A} (m : IR A) : Prop := forall s, exists l, code (snd (m s)) = code s ++ l.

(** The [Lk] labels placed by [LABEL] instructions (the labels the loop
    pass looks for). *)
Definition loop_labels (l : list TACInstruction) : list jsval :=
  map result (filter is_loop_label l).

Definition Lname (k : nat) : jsval := JStr ("L" ++ string_of_nat k).

Definition rng (lo hi : nat) (l : list jsval) : Prop :=
  Forall (fun x => exists k, x = Lname k /\ lo < k <= hi)%nat l.

(** The loop labels a generator step adds: all fresh (numbered between the
    label counter before and after) and pairwise distinct. *)
Definition lab_ext (s s' : irst) : Prop :=
  (labelCounter s <= labelCounter s')%nat /\
  exists l, code s' = code s ++ l /\ NoDup (loop_labels l) /\
            rng (labelCounter s) (labelCounter s') (loop_labels l).

Definition lab_spec {A} (m : IR A) : Prop := forall s, lab_ext s (snd (m s)).

(** A generator step that places no loop label and takes no label number. *)
Definition nolab {A} (m : IR A) : Prop :=
  forall s, labelCounter (snd (m s)) = labelCounter s /\
            exists l, code (snd (m s)) = code s ++ l /\ loop_labels l = [].

Definition all_loop_labels (fs : list (string * TACFunction)) : list jsval :=
  concat (map (fun kf => loop_labels (instructions (snd kf))) fs).

(** The inputs on which the source generator returns instead of throwing a
    [TypeError].  [generateExpression]: [expr.left.name] in an assignment
    and [expr.argument.name] for [++]/[--] throw on a [null] node. *)
Fixpoint genExpr_completes (e : node) : bool :=
  match e with
  | AssignmentExpression _ l r => genExpr_completes r && node_truthy l
  | BinaryExpression _ l r => genExpr_completes l && genExpr_completes r
  | FunctionCall _ args =>
      (fix go (l : list node) : bool :=
         match l with [] => true | a :: r => genExpr_completes a && go r end) args
  | PrefixExpression o a | PostfixExpression o a =>
      genExpr_completes a && (if str_eqb o "++" || str_eqb o "--" then node_truthy a else true)
  | _ => true
  end.

(** [generateStatement]: [variable.initializer] throws on a [null]
    declarator; the expressions reached must complete. *)
Fixpoint genStmt_completes (st : node) : bool :=
  match st with
  | DeclarationStatement _ vars =>
      forallb (fun v => match v with
                        | Null => false
                        | VariableDeclarator _ init => genExpr_completes init
                        | _ => true
                        end) vars
  | ExpressionStatement e => genExpr_completes e
  | ReturnStatement e => genExpr_completes e
  | IfStatement c t el => genExpr_completes c && genStmt_completes t && genStmt_completes el
  | ForStatement i c inc b =>
      genStmt_completes i && genExpr_completes c && genStmt_completes b && genExpr_completes inc
  | CompoundStatement body =>
      (fix go (l : list node) : bool :=
         match l with [] => true | x :: r => genStmt_completes x && go r end) body
  | _ => true
  end.

(** [generate]: [node.type] throws on a [null] element of the program
    body, [param.paramName] on a [null] parameter. *)
Definition genFunc_completes (n : node) : bool :=
  match n with
  | Null => false
  | FunctionDeclaration _ _ ps body =>
      forallb node_truthy ps &&
      match body with CompoundStatement _ => genStmt_completes body | _ => true end
  | _ => true
  end.

Definition generate_completes (ast : node) : bool :=
  match ast with
  | Program_ body => forallb genFunc_completes body
  | _ => true
  end.

Module A1Inv.
Import Analyzer1.

(** Diagnostics are only appended. *)
Definition errs_grow (s s' : st) : Prop := exists l, errors s' = errors s ++ l.

Definition weak {A} (m : M A) : Prop :=
  forall s a s', m s = Some (a, s') -> errs_grow s s'.
Definition keeps {A} (m : M A) : Prop :=
  forall s a s', m s = Some (a, s') -> errs_grow s s' /\ currentScope s' = currentScope s.
Definition ends {A} (c : string) (m : M A) : Prop :=
  forall s a s', m s = Some (a, s') -> errs_grow s s' /\ currentScope s' = c.

End A1Inv.

(* ================================================================== *)
(** * Properties *)

(* ------------------------------------------------------------------ *)
(** ** The loop pass *)

(** C1 (failing input): on the counting loop [L1: t1 = i + 1; goto L1; L2:]
    [loopOptimization] keeps only the retagged [LABEL L1] and [LABEL L2]:
    the increment and the back jump are dropped, because the scan resumes
    after the [GOTO] instead of copying the loop. *)
Lemma loopOptimization_drops_loop_body :
  loopOptimization loop_example =
  [mkInstr "LABEL" JNull JNull "L1" (Some "OPTIMIZED_LOOP"); instr "LABEL" JNull JNull "L2"].
Proof. vm_compute. reflexivity. Qed.

(* ------------------------------------------------------------------ *)
(** ** Increment and decrement in the IR *)

(** C3 (failing input): lowering the postfix [x++] emits [t1 = x + 1] and
    [x = t1] and yields the operand [x] itself; after the two instructions
    run from a store where [x] is 5, that operand reads 6, the updated
    value, not the value 5 that [x++] denotes. *)
Lemma postfix_increment_yields_updated_value :
  generateExpression (PostfixExpression "++" (Identifier "x")) (mkIrst 0 0 []) =
    (JStr "x", mkIrst 0 1 [instr "+" "x" "1" "t1"; instr "=" "t1" JNull "x"]) /\
  operand_val [("x", 5%Z)] "x" = Some 5%Z /\
  operand_val (exec_tac [("x", 5%Z)] [instr "+" "x" "1" "t1"; instr "=" "t1" JNull "x"]) "x"
    = Some 6%Z.
Proof. vm_compute. repeat split. Qed.

(* ------------------------------------------------------------------ *)
(** ** Constant folding *)

(** C7 (failing input): for every number semantics, constant folding
    rewrites the comparison [t1 = 0 < 1] into the copy [t1 = 0] (the
    default branch of [evaluateConstantExpression] returns the first
    operand), and rewrites [return 0] into an assignment to [null],
    dropping the return. *)
Lemma constantFolding_folds_non_arithmetic (JS : js_number_ops) :
  constantFolding JS [instr "<" "0" "1" "t1"] = [instr "=" "0" JNull "t1"] /\
  constantFolding JS [instr "RETURN" "0" JNull JNull] = [instr "=" "0" JNull JNull].
Proof. split; vm_compute; reflexivity. Qed.

(* ------------------------------------------------------------------ *)
(** ** Dead code elimination *)

(** C4 (failing input): [Len = 5; return Len] loses its assignment,
    although [Len] is read by the [RETURN]: the test meant to skip the
    labels [L1], [L2], ... keeps every operand starting with [L] out of the
    used set, so a used variable's assignment is removed. *)
Lemma deadCodeElimination_drops_used_L_variable :
  deadCodeElimination [instr "=" "5" JNull "Len"; instr "RETURN" "Len" JNull JNull] =
  [instr "RETURN" "Len" JNull JNull].
Proof. vm_compute. reflexivity. Qed.

(* ------------------------------------------------------------------ *)
(** ** Parsing *)

(** C2 (counterexample): the truncated [int main() { return 0;] parses to a
    [Program] whose function body is an error node. *)
Lemma parse_truncated_is_program :
  parse toks_truncated 50 =
  Done (Program_ [FunctionDeclaration "int" "main" []
                    (ErrorNode "Expected '}' at end of compound statement")]) 8.
Proof. vm_compute. reflexivity. Qed.

(* ------------------------------------------------------------------ *)
(** ** Repeated analysis *)

(** C5 (counterexample): two successive runs of the scoped analyzer on
    [prog_block] give different symbol tables: the block scope is named
    after the clock ([main.block1000], then [main.block1001]). *)
Lemma analyze_twice_differs :
  match Analyzer1.analyze ticking_clock prog_block Analyzer1.init with
  | Some (r1, s1) =>
      match Analyzer1.analyze ticking_clock prog_block s1 with
      | Some (r2, _) => fst (fst r1) <> fst (fst r2)
      | None => False
      end
  | None => False
  end.
Proof. vm_compute. discriminate. Qed.

(* ------------------------------------------------------------------ *)
(** ** Call checks *)

(** C8 (counterexample): in [prog_forward_call], [main] calls [g(1)] before
    [g(int a, int b)] is defined; the only diagnostic is that [g] is not
    declared, not the argument count. *)
Lemma forward_call_not_counted :
  option_map (fun r => snd (fst r)) (Analyzer0.analyze prog_forward_call Analyzer0.init) =
  Some ["Function 'g' not declared"].
Proof. vm_compute. reflexivity. Qed.

(** Membership in the used set of [deadCodeElimination]. *)
Lemma set_has_usedVars (l : list TACInstruction) (x : jsval) :
  set_has (usedVars l) x = true <->
  exists s, x = JStr s /\ s <> EmptyString /\ starts_with "L" s = false /\
            exists j, In j l /\ (j.(arg1) = JStr s \/ j.(arg2) = JStr s).
Proof.
  assert (Hop : forall (y : jsval) s,
             In s (used_operand y) <->
             y = JStr s /\ s <> EmptyString /\ starts_with "L" s = false).
  { intros [y | |] s; unfold used_operand;
      [| split; [simpl; tauto | intros (H & _); discriminate] ..].
    destruct (truthy (JStr y) && negb (starts_with "L" y)) eqn:E.
    - apply andb_true_iff in E as [E1 E2]. apply negb_true_iff in E2.
      split.
      + intros [<- | []]. repeat split; auto. intros ->. discriminate E1.
      + intros (H & _ & _). left. congruence.
    - split; [simpl; tauto |]. intros (H & H2 & H3). injection H as H.
      subst y. rewrite H3 in E. destruct s; [congruence | discriminate E]. }
  destruct x as [s | |]; simpl.
  2, 3: split; [discriminate | intros (s & H & _); discriminate].
  rewrite existsb_exists. split.
  - intros (v & Hin & Heq). apply String.eqb_eq in Heq. subst v.
    unfold usedVars in Hin. apply in_flat_map in Hin as (j & Hj & Hin).
    apply in_app_or in Hin as [Hin | Hin]; apply Hop in Hin as (Hx & Hne & HL);
      exists s; repeat split; auto; exists j; auto.
  - intros (s' & Hs & Hne & HL & j & Hj & Hx). injection Hs as <-.
    exists s. split; [| apply String.eqb_refl].
    unfold usedVars. apply in_flat_map. exists j. split; [exact Hj |].
    apply in_or_app. destruct Hx as [Hx | Hx]; [left | right]; apply Hop; auto.
Qed.

(** X15: an instruction survives [deadCodeElimination] exactly when it is
    in the function and, if it is an [=], its destination is a non-empty
    name that does not start with [L] and is read (as [arg1] or [arg2]) by
    some instruction of the function. *)
Theorem deadCodeElimination_spec (l : list TACInstruction) (i : TACInstruction) :
  In i (deadCodeElimination l) <->
  In i l /\
  (i.(op) = "=" ->
   exists s, i.(result) = JStr s /\ s <> EmptyString /\ starts_with "L" s = false /\
             exists j, In j l /\ (j.(arg1) = JStr s \/ j.(arg2) = JStr s)).
Proof.
  unfold deadCodeElimination. rewrite filter_In. rewrite <- set_has_usedVars.
  unfold str_eqb. split.
  - intros [Hin Hf]. split; [exact Hin |]. intros Hop. rewrite Hop in Hf. simpl in Hf.
    destruct (set_has (usedVars l) (result i)); [reflexivity | discriminate].
  - intros [Hin Himp]. split; [exact Hin |].
    destruct (String.eqb (op i) "=") eqn:E; simpl; [| reflexivity].
    apply String.eqb_eq in E. rewrite (Himp E). reflexivity.
Qed.

(* ------------------------------------------------------------------ *)
(** ** Common subexpression elimination *)

Lemma str_map_get_app {V} (m : list (string * V)) (k k' : string) (v : V) :
  str_map_get (m ++ [(k', v)]) k =
  match str_map_get m k with
  | Some w => Some w
  | None => if str_eqb k k' then Some v else None
  end.
Proof.
  induction m as [| [k0 v0] m IH]; simpl; [reflexivity |].
  destruct (str_eqb k k0); [reflexivity | exact IH].
Qed.

Lemma find_app {A} (f : A -> bool) (l1 l2 : list A) :
  find f (l1 ++ l2) = match find f l1 with Some x => Some x | None => find f l2 end.
Proof.
  induction l1 as [| a l1 IH]; simpl; [reflexivity |].
  destruct (f a); [reflexivity | exact IH].
Qed.

(** The map [expressions] holds, for each key, the result of the first
    non-control instruction with that key. *)
Lemma cse_expressions (l : list TACInstruction) (k : string) :
  str_map_get (fst (fold_left cse_step l ([], []))) k =
  option_map result (first_with_key l k).
Proof.
  revert k. induction l as [| x l IH] using rev_ind; intros k; [reflexivity |].
  rewrite fold_left_app. simpl fold_left.
  unfold first_with_key. rewrite find_app. fold (first_with_key l k).
  destruct (fold_left cse_step l ([], [])) as [E O] eqn:HF. simpl in IH.
  unfold cse_step. simpl find.
  destruct (is_control x) eqn:Hc; simpl.
  - rewrite IH. destruct (first_with_key l k); reflexivity.
  - destruct (str_map_get E (exprKey x)) as [prev |] eqn:Hx; simpl.
    + rewrite IH. destruct (first_with_key l k) eqn:Hk; [reflexivity |].
      destruct (str_eqb (exprKey x) k) eqn:Ek; [| reflexivity].
      apply String.eqb_eq in Ek. subst k. rewrite IH, Hk in Hx. discriminate.
    + rewrite str_map_get_app, IH. destruct (first_with_key l k); [reflexivity |].
      simpl. unfold str_eqb. rewrite String.eqb_sym. destruct (String.eqb (exprKey x) k); reflexivity.
Qed.

Lemma cse_output_snoc (l : list TACInstruction) (x : TACInstruction) :
  commonSubexpressionElimination (l ++ [x]) =
  commonSubexpressionElimination l ++ [cse_image l x].
Proof.
  unfold commonSubexpressionElimination. rewrite fold_left_app. simpl fold_left.
  pose proof (cse_expressions l (exprKey x)) as HE.
  destruct (fold_left cse_step l ([], [])) as [E O]. simpl in HE |- *.
  unfold cse_image. destruct (is_control x); [reflexivity |].
  rewrite HE. destruct (first_with_key l (exprKey x)); reflexivity.
Qed.

Lemma nth_error_len {A} (l : list A) (n : nat) (x : A) :
  nth_error l n = Some x -> n < length l.
Proof. intros H. apply nth_error_Some. congruence. Qed.

Lemma cse_length (l : list TACInstruction) :
  length (commonSubexpressionElimination l) = length l.
Proof.
  induction l as [| x l IH] using rev_ind; [reflexivity |].
  rewrite cse_output_snoc, !length_app, IH. reflexivity.
Qed.

(** Position [j] of the output is the image of the input instruction
    there, given the instructions before it. *)
Lemma cse_nth (l : list TACInstruction) (j : nat) (i : TACInstruction) :
  nth_error l j = Some i ->
  nth_error (commonSubexpressionElimination l) j = Some (cse_image (firstn j l) i).
Proof.
  revert j i. induction l as [| x l IH] using rev_ind; intros j i Hj.
  - destruct j; discriminate.
  - rewrite cse_output_snoc.
    destruct (Nat.lt_ge_cases j (length l)) as [Hlt | Hge].
    + rewrite nth_error_app1 in Hj by exact Hlt.
      rewrite nth_error_app1 by (rewrite cse_length; exact Hlt).
      rewrite firstn_app, (proj2 (Nat.sub_0_le j (length l))) by lia.
      rewrite app_nil_r. apply IH, Hj.
    + assert (j = length l) as ->.
      { apply nth_error_len in Hj. rewrite length_app in Hj. simpl in Hj. lia. }
      rewrite nth_error_app2 in Hj by lia. rewrite Nat.sub_diag in Hj.
      injection Hj as <-.
      rewrite nth_error_app2 by (rewrite cse_length; lia).
      rewrite cse_length, Nat.sub_diag, firstn_app, firstn_all, Nat.sub_diag, app_nil_r.
      reflexivity.
Qed.

(** C10: every non-control instruction (also [PARAM], [CALL], [RETURN])
    that repeats the opcode and operands of an earlier instruction is
    turned into the copy [= r0 -> result], where [r0] is the result of the
    first earlier non-control instruction with the same key
    [op ++ arg1 ++ arg2]. *)
Theorem cse_replaces_repeated (l : list TACInstruction) (j j' : nat) (i i' : TACInstruction) :
  nth_error l j = Some i -> is_control i = false ->
  j' < j -> nth_error l j' = Some i' ->
  i'.(op) = i.(op) -> i'.(arg1) = i.(arg1) -> i'.(arg2) = i.(arg2) ->
  exists i0, first_with_key (firstn j l) (exprKey i) = Some i0 /\
             In i0 (firstn j l) /\ is_control i0 = false /\ exprKey i0 = exprKey i /\
             nth_error (commonSubexpressionElimination l) j =
               Some (instr "=" i0.(result) JNull i.(result)).
Proof.
  intros Hj Hc Hlt Hj' Hop H1 H2.
  apply cse_nth in Hj as Hout. unfold cse_image in Hout. rewrite Hc in Hout.
  destruct (first_with_key (firstn j l) (exprKey i)) as [i0 |] eqn:Hf.
  - unfold first_with_key in Hf. apply find_some in Hf as Hs. destruct Hs as [Hin Hp].
    apply andb_true_iff in Hp as [Hc0 Hk]. apply negb_true_iff in Hc0.
    apply String.eqb_eq in Hk.
    exists i0. repeat split; auto.
  - exfalso. unfold first_with_key in Hf.
    assert (Hin : In i' (firstn j l)).
    { pose proof (nth_error_len _ _ _ Hj') as Hlen.
      rewrite <- (firstn_skipn j l) in Hj'. rewrite nth_error_app1 in Hj'.
      - apply nth_error_In in Hj'. exact Hj'.
      - rewrite length_firstn. lia. }
    apply (find_none _ _ Hf) in Hin.
    unfold is_control, exprKey in *. rewrite Hop, H1, H2, Hc in Hin.
    simpl in Hin. unfold str_eqb in Hin. rewrite String.eqb_refl in Hin. discriminate.
Qed.

(** Two identical calls [t1 = call f, 0] and [t2 = call f, 0]: the second
    becomes [t2 = t1]. *)
Lemma cse_replaces_repeated_witness :
  exists i0, first_with_key [instr "CALL" "f" "0" "t1"] (exprKey (instr "CALL" "f" "0" "t2")) = Some i0 /\
    nth_error (commonSubexpressionElimination [instr "CALL" "f" "0" "t1"; instr "CALL" "f" "0" "t2"]) 1 =
      Some (instr "=" i0.(result) JNull "t2").
Proof.
  destruct (cse_replaces_repeated [instr "CALL" "f" "0" "t1"; instr "CALL" "f" "0" "t2"] 1 0
              (instr "CALL" "f" "0" "t2") (instr "CALL" "f" "0" "t1"))
    as (i0 & H1 & _ & _ & _ & H2);
    [reflexivity | reflexivity | lia | reflexivity | reflexivity | reflexivity | reflexivity |].
  exists i0. split; [exact H1 | exact H2].
Defined.

(* ------------------------------------------------------------------ *)
(** ** Prior state of the analyzers *)

(** [analyzeFunction] restores [currentFunctionScope] on exit and does not
    read it before setting it. *)
Lemma a0_function_scope (n : node) (s : Analyzer0.st) (c : jsval) :
  Analyzer0.analyzeFunction n (Analyzer0.set_scope c s) =
  match Analyzer0.analyzeFunction n s with
  | Some (u, s') => Some (u, Analyzer0.set_scope c s')
  | None => None
  end.
Proof.
  destruct n as [| | rt fn ps body | | | | | | | | | | | | | | | | |]; try reflexivity.
  destruct s.
  unfold Analyzer0.analyzeFunction, Analyzer0.bind, Analyzer0.gets, Analyzer0.modify,
    Analyzer0.set_scope, Analyzer0.ret.
  cbn [Analyzer0.currentFunctionScope Analyzer0.symbolTable Analyzer0.functionTable
       Analyzer0.errors Analyzer0.globalSymbolTable].
  destruct body; cbv beta iota;
  repeat (match goal with
          | |- context [Analyzer0.m_iter ?f ?l ?s] =>
              destruct (Analyzer0.m_iter f l s) as [[? ?] |]
          | |- context [Analyzer0.analyzeStatement ?n ?s] =>
              destruct (Analyzer0.analyzeStatement n s) as [[? ?] |]
          end; cbv beta iota); reflexivity.
Qed.

Lemma a0_iter_scope (f : node -> Analyzer0.M unit)
  (Hf : forall n s c, f n (Analyzer0.set_scope c s) =
                      match f n s with
                      | Some (u, s') => Some (u, Analyzer0.set_scope c s')
                      | None => None
                      end)
  (l : list node) (s : Analyzer0.st) (c : jsval) :
  Analyzer0.m_iter f l (Analyzer0.set_scope c s) =
  match Analyzer0.m_iter f l s with
  | Some (u, s') => Some (u, Analyzer0.set_scope c s')
  | None => None
  end.
Proof.
  revert s. induction l as [| x l IH]; intros s; [reflexivity |].
  simpl. unfold Analyzer0.bind. rewrite Hf.
  destruct (f x s) as [[[] s1] |]; [apply IH | reflexivity].
Qed.

(** The pipeline analyzer's result does not depend on the state it is
    called in. *)
Lemma a0_analyze_prior_state (ast : node) (s : Analyzer0.st) :
  option_map fst (Analyzer0.analyze ast s) = option_map fst (Analyzer0.analyze ast Analyzer0.init).
Proof.
  destruct s as [c st0 ft0 er0 g0].
  unfold Analyzer0.analyze, Analyzer0.addStandardLibraryFunctions, Analyzer0.init.
  unfold Analyzer0.bind, Analyzer0.modify, Analyzer0.gets, Analyzer0.set_functionTable.
  cbn [Analyzer0.currentFunctionScope Analyzer0.symbolTable
       Analyzer0.functionTable Analyzer0.errors Analyzer0.globalSymbolTable].
  destruct ast; try reflexivity.
  match goal with
  | |- context [Analyzer0.m_iter ?f ?l (Analyzer0.mkSt ?c ?a ?b ?d ?e)] =>
      assert (Hf : forall n s c', f n (Analyzer0.set_scope c' s) =
                                  match f n s with
                                  | Some (u, s') => Some (u, Analyzer0.set_scope c' s')
                                  | None => None
                                  end)
        by (intros [] s0 c'; try apply a0_function_scope; reflexivity);
      pose proof (a0_iter_scope f Hf l (Analyzer0.mkSt JNull a b d e) c) as Hi;
      change (Analyzer0.set_scope c (Analyzer0.mkSt JNull a b d e))
        with (Analyzer0.mkSt c a b d e) in Hi;
      rewrite Hi
  end.
  match goal with
  | |- context [Analyzer0.m_iter ?f ?l ?s] => destruct (Analyzer0.m_iter f l s) as [[[] s'] |]
  end; reflexivity.
Qed.

(** Equal clocks give equal runs of the scoped analyzer, whatever the
    tables left by earlier runs. *)
Lemma a1_analyze_prior_state (now : nat -> Z) (ast : node) (s1 s2 : Analyzer1.st) :
  Analyzer1.dateCalls s1 = Analyzer1.dateCalls s2 ->
  Analyzer1.analyze now ast s1 = Analyzer1.analyze now ast s2.
Proof.
  intros H. destruct s1, s2. simpl in H. subst.
  reflexivity.
Qed.

(** C5 (amended): both analyzers clear their tables on entry.  The
    pipeline analyzer's result does not depend on the analyzer state at
    all; the scoped analyzer's result (tables, diagnostics, final state)
    is the same from any two states that have made the same number of
    [Date.now()] readings, i.e. it depends on the AST and the clock only. *)
Theorem analyze_independent_of_prior_state (now : nat -> Z) (ast : node)
  (s1 s2 : Analyzer1.st) (t1 t2 : Analyzer0.st) :
  Analyzer1.dateCalls s1 = Analyzer1.dateCalls s2 ->
  Analyzer1.analyze now ast s1 = Analyzer1.analyze now ast s2 /\
  option_map fst (Analyzer0.analyze ast t1) = option_map fst (Analyzer0.analyze ast t2).
Proof.
  intros H. split.
  - apply a1_analyze_prior_state, H.
  - rewrite (a0_analyze_prior_state ast t1), (a0_analyze_prior_state ast t2). reflexivity.
Qed.

(** A fresh scoped analyzer and one left in [main] with a stale table,
    both before any clock reading. *)
Lemma analyze_independent_of_prior_state_witness :
  Analyzer1.analyze ticking_clock prog_block Analyzer1.init =
  Analyzer1.analyze ticking_clock prog_block
    (Analyzer1.mkSt [("main", [])] [] "main" [] 0).
Proof.
  apply (analyze_independent_of_prior_state ticking_clock prog_block Analyzer1.init
           (Analyzer1.mkSt [("main", [])] [] "main" [] 0) Analyzer0.init Analyzer0.init).
  reflexivity.
Defined.

(* ------------------------------------------------------------------ *)
(** ** Argument-count checks *)

Lemma a0_call_args (args : list node) :
  (fix go (l : list node) : Analyzer0.M unit :=
     match l with
     | [] => Analyzer0.ret tt
     | a :: r => Analyzer0.bind (Analyzer0.analyzeExpression a) (fun _ => go r)
     end) args = Analyzer0.m_iter Analyzer0.analyzeExpression args.
Proof.
  induction args as [| a args IH]; [reflexivity |]. simpl. rewrite IH. reflexivity.
Qed.

(** C8 (amended): when the pipeline analyzer reaches a call [f(args)]:
    if [f] is in the function table at that point, is not [printf], and
    the counts differ, exactly the message giving the expected and the
    actual count is recorded, then the arguments are analysed; for
    [printf] no count message is recorded; if [f] is not (yet) in the
    table, which is the case for a function defined later in the file,
    only ["Function 'f' not declared"] is recorded. *)
Theorem analyzeExpression_call_counts (f : string) (args : list node) (s : Analyzer0.st) :
  (forall func,
     str_map_get s.(Analyzer0.functionTable) f = Some func ->
     f <> "printf" -> length args <> length func.(Analyzer0.f_params) ->
     Analyzer0.analyzeExpression (FunctionCall f args) s =
     Analyzer0.bind
       (Analyzer0.pushError ("Function '" ++ f ++ "' expects " ++
                             string_of_nat (length func.(Analyzer0.f_params)) ++
                             " arguments but got " ++ string_of_nat (length args)))
       (fun _ => Analyzer0.m_iter Analyzer0.analyzeExpression args) s) /\
  (forall func,
     str_map_get s.(Analyzer0.functionTable) f = Some func -> f = "printf" ->
     Analyzer0.analyzeExpression (FunctionCall f args) s =
     Analyzer0.m_iter Analyzer0.analyzeExpression args s) /\
  (str_map_get s.(Analyzer0.functionTable) f = None ->
   Analyzer0.analyzeExpression (FunctionCall f args) s =
   Analyzer0.pushError ("Function '" ++ f ++ "' not declared") s).
Proof.
  cbn [Analyzer0.analyzeExpression]. unfold Analyzer0.analyzeFunctionCall.
  rewrite a0_call_args.
  repeat split; [intros func Hf Hp Hn | intros func Hf -> | intros Hf];
    unfold Analyzer0.bind at 1; unfold Analyzer0.gets; cbv beta iota.
  - rewrite Hf.
    apply String.eqb_neq in Hp. apply Nat.eqb_neq in Hn.
    unfold str_eqb. rewrite Hp, Hn. reflexivity.
  - rewrite Hf. reflexivity.
  - rewrite Hf. reflexivity.
Qed.

(** [g] declared with two parameters, called with one argument. *)
Lemma analyzeExpression_call_counts_witness :
  Analyzer0.analyzeExpression (FunctionCall "g" [Literal "1"])
    (Analyzer0.mkSt "main" [] [("g", Analyzer0.mkFuncInfo [JStr "a"; JStr "b"] "int" false)] [] []) =
  Some (tt, Analyzer0.mkSt "main" [] [("g", Analyzer0.mkFuncInfo [JStr "a"; JStr "b"] "int" false)]
              ["Function 'g' expects 2 arguments but got 1"] []).
Proof.
  rewrite (proj1 (analyzeExpression_call_counts "g" [Literal "1"]
             (Analyzer0.mkSt "main" [] [("g", Analyzer0.mkFuncInfo [JStr "a"; JStr "b"] "int" false)] [] []))
             (Analyzer0.mkFuncInfo [JStr "a"; JStr "b"] "int" false));
    [| reflexivity | discriminate | discriminate].
  vm_compute. reflexivity.
Defined.

(* ------------------------------------------------------------------ *)
(** ** The parser does not throw *)

Ltac split_outcomes :=
  repeat (match goal with
          | |- context [match ?e with Some _ => _ | None => _ end] => destruct e eqn:?
          | |- context [if ?b then _ else _] => destruct b
          | |- context [match ?e with Done _ _ => _ | OutOfFuel => _ | Threw => _ end] =>
              destruct e eqn:?
          end; cbv beta iota delta [negb andb orb]).

(** Close a goal [x <> Threw] from the hypotheses on the recursive calls. *)
Ltac close_threw :=
  try discriminate;
  try (match goal with
       | Hn : _ |- _ <> Threw => solve [ eapply Hn; eassumption ]
       end);
  exfalso;
  match goal with
  | Hq : _ = Threw |- _ =>
      match goal with
      | Hn : _ |- _ => solve [ eapply Hn; [ exact Hq ] | eapply Hn; [ .. | exact Hq ]; eassumption ]
      end
  end.

Lemma parsers_step_no_throw (tokens : list token) (r : parsers) :
  parsers_no_throw tokens r -> parsers_no_throw tokens (parsers_step tokens r).
Proof.
  intros H. unfold parsers_no_throw in H |- *. decompose record H.
  cbn [parseStatement_ parseCompoundStatement_ compoundLoop_ parseReturnStatement_
       parseIfStatement_ parseForStatement_ parseDeclaration_ declLoop_
       parseExpressionStatement_ parseExpression_ parseEquality_ equalityLoop_
       parseRelational_ relationalLoop_ parseAdditive_ additiveLoop_
       parseMultiplicative_ multiplicativeLoop_ parseUnary_ parsePostfix_
       postfixLoop_ parsePrimary_ argsLoop_ parsers_step].
  unfold parseStatement, parseCompoundStatement, compoundLoop, parseReturnStatement,
    parseIfStatement, parseForStatement, parseDeclaration, declLoop,
    parseExpressionStatement, parseExpression, parseEquality, equalityLoop,
    parseRelational, relationalLoop, parseAdditive, additiveLoop,
    parseMultiplicative, multiplicativeLoop, parseUnary, parsePostfix,
    postfixLoop, parsePrimary, argsLoop.
  unfold skip_semi, p_bind, p_ret, cur_tok, cur_is, at_end, get_cur, set_cur, advance.
  repeat split; intros *;
    lazymatch goal with
    | |- nth_error _ _ = _ -> _ => intros Htok; rewrite Htok
    | _ => idtac
    end; cbv beta iota; split_outcomes; close_threw.
Qed.

Lemma parsers_at_no_throw (tokens : list token) (n : nat) :
  parsers_no_throw tokens (parsers_at tokens n).
Proof.
  induction n as [| n IH]; simpl.
  - unfold parsers_no_throw, p_fuel. cbn. repeat split; intros; discriminate.
  - apply parsers_step_no_throw, IH.
Qed.

Lemma paramsLoop_no_throw (tokens : list token) (n : nat) (ps : list node) (c : nat) :
  paramsLoop tokens n ps c <> Threw.
Proof.
  revert ps c. induction n as [| n IH]; intros ps c; simpl.
  - unfold p_fuel. discriminate.
  - unfold p_bind, p_ret, cur_tok, advance. split_outcomes; try discriminate; apply IH.
Qed.

Lemma parseFunctionDefinition_no_throw (tokens : list token) (n c : nat) (t : token) :
  nth_error tokens c = Some t -> parseFunctionDefinition tokens n c <> Threw.
Proof.
  intros Htok. pose proof (parsers_at_no_throw tokens n) as H.
  unfold parsers_no_throw in H. decompose record H.
  pose proof (paramsLoop_no_throw tokens n) as HP.
  unfold parseFunctionDefinition, p_bind, p_ret, cur_tok, cur_is, at_end, advance.
  rewrite Htok. cbv beta iota. split_outcomes; close_threw.
Qed.

Lemma programLoop_no_throw (tokens : list token) (n : nat) (body : list node) (c : nat) :
  programLoop tokens n body c <> Threw.
Proof.
  revert body c. induction n as [| n IH]; intros body c; simpl.
  - unfold p_fuel. discriminate.
  - unfold p_bind, p_ret, cur_tok, advance.
    destruct (nth_error tokens c) as [t |] eqn:Htok; cbv beta iota; [| discriminate].
    pose proof (parseFunctionDefinition_no_throw tokens n c t Htok) as HF.
    split_outcomes; try discriminate; try apply IH; congruence.
Qed.

(** C2 (amended): [parse] never throws (it is not a distinct error value
    either), and whenever it returns, the result is a [Program] node:
    syntax errors are kept inside the tree as error nodes, as the body of
    the truncated function in [parse_truncated_is_program] shows. *)
Theorem parse_returns_program (tokens : list token) (n : nat) :
  parse tokens n <> Threw /\
  (forall a c, parse tokens n = Done a c -> exists body, a = Program_ body).
Proof.
  unfold parse, p_bind, p_ret. pose proof (programLoop_no_throw tokens n [] 0) as H.
  destruct (programLoop tokens n [] 0) as [body c | |].
  - split; [discriminate |]. intros a c' E. injection E as <- _. exists body. reflexivity.
  - split; [discriminate |]. intros a c' E. discriminate E.
  - exfalso. apply H. reflexivity.
Qed.

(** On the truncated function, the returned tree is a [Program]. *)
Lemma parse_returns_program_witness :
  exists body, Program_ [FunctionDeclaration "int" "main" []
                           (ErrorNode "Expected '}' at end of compound statement")] = Program_ body.
Proof.
  apply (proj2 (parse_returns_program toks_truncated 50) _ 8).
  vm_compute. reflexivity.
Defined.

(* ------------------------------------------------------------------ *)
(** ** The lexer *)

Module LexerFacts.
Import Lexer LexerSpec.

Lemma m_char_mono p : m_mono (m_char p).
Proof. intros l k k'. unfold m_char. destruct (nth_error l k); [destruct (p n)|]; simpl; intuition lia. Qed.
Lemma m_char_consumes p : m_consumes (m_char p).
Proof. intros l k k'. unfold m_char. destruct (nth_error l k); [destruct (p n)|]; simpl; intuition lia. Qed.
Lemma m_char_bnd p : m_bnd_ok (m_char p).
Proof.
  intros l k k' _. unfold m_char. destruct (nth_error l k) eqn:E; [destruct (p n)|]; simpl; try tauto.
  intros [<- | []]. apply nth_error_Some. congruence.
Qed.
Lemma m_eps_mono : m_mono m_eps.
Proof. intros l k k' [<- | []]. lia. Qed.
Lemma m_eps_bnd : m_bnd_ok m_eps.
Proof. intros l k k' H [<- | []]. exact H. Qed.
Lemma m_bol_mono : m_mono m_bol.
Proof. intros l k k'. unfold m_bol. destruct (Nat.eqb k 0); simpl; intuition lia. Qed.
Lemma m_bol_bnd : m_bnd_ok m_bol.
Proof. intros l k k' H. unfold m_bol. destruct (Nat.eqb k 0); simpl; intuition lia. Qed.
Lemma m_seq_mono a b : m_mono a -> m_mono b -> m_mono (m_seq a b).
Proof.
  intros Ha Hb l k k' H. unfold m_seq in H. apply in_flat_map in H as (k1 & H1 & H2).
  apply Ha in H1. apply Hb in H2. lia.
Qed.
Lemma m_seq_bnd a b : m_bnd_ok a -> m_bnd_ok b -> m_bnd_ok (m_seq a b).
Proof.
  intros Ha Hb l k k' Hk H. unfold m_seq in H. apply in_flat_map in H as (k1 & H1 & H2).
  eapply Hb; [eapply Ha |]; eassumption.
Qed.
Lemma m_seq_consumes a b : m_consumes a -> m_mono b -> m_consumes (m_seq a b).
Proof.
  intros Ha Hb l k k' H. unfold m_seq in H. apply in_flat_map in H as (k1 & H1 & H2).
  apply Ha in H1. apply Hb in H2. lia.
Qed.
Lemma m_seq_consumes_r a b : m_mono a -> m_consumes b -> m_consumes (m_seq a b).
Proof.
  intros Ha Hb l k k' H. unfold m_seq in H. apply in_flat_map in H as (k1 & H1 & H2).
  apply Ha in H1. apply Hb in H2. lia.
Qed.
Lemma m_alt_mono a b : m_mono a -> m_mono b -> m_mono (m_alt a b).
Proof. intros Ha Hb l k k' H. apply in_app_or in H as [H | H]; eauto. Qed.
Lemma m_alt_bnd a b : m_bnd_ok a -> m_bnd_ok b -> m_bnd_ok (m_alt a b).
Proof. intros Ha Hb l k k' Hk H. apply in_app_or in H as [H | H]; eauto. Qed.
Lemma lazy_go_mono f a : m_mono a -> forall l k k', In k' (lazy_go f a l k) -> (k <= k')%nat.
Proof.
  intros Ha. induction f as [| f IH]; intros l k k' H; simpl in H.
  - destruct H as [<- | []]. lia.
  - destruct H as [<- | H]; [lia |]. apply in_flat_map in H as (k1 & H1 & H2).
    destruct (Nat.eqb k1 k); [destruct H2 |]. apply Ha in H1. apply IH in H2. lia.
Qed.
Lemma lazy_go_bnd f a : m_bnd_ok a -> forall l k k', (k <= length l)%nat -> In k' (lazy_go f a l k) -> (k' <= length l)%nat.
Proof.
  intros Ha. induction f as [| f IH]; intros l k k' Hk H; simpl in H.
  - destruct H as [<- | []]. lia.
  - destruct H as [<- | H]; [lia |]. apply in_flat_map in H as (k1 & H1 & H2).
    destruct (Nat.eqb k1 k); [destruct H2 |]. eapply IH; [eapply Ha |]; eassumption.
Qed.
Lemma star_go_mono f a : m_mono a -> forall l k k', In k' (star_go f a l k) -> (k <= k')%nat.
Proof.
  intros Ha. induction f as [| f IH]; intros l k k' H; simpl in H.
  - destruct H as [<- | []]. lia.
  - apply in_app_or in H as [H | [<- | []]]; [| lia]. apply in_flat_map in H as (k1 & H1 & H2).
    destruct (Nat.eqb k1 k); [destruct H2 |]. apply Ha in H1. apply IH in H2. lia.
Qed.
Lemma star_go_bnd f a : m_bnd_ok a -> forall l k k', (k <= length l)%nat -> In k' (star_go f a l k) -> (k' <= length l)%nat.
Proof.
  intros Ha. induction f as [| f IH]; intros l k k' Hk H; simpl in H.
  - destruct H as [<- | []]. lia.
  - apply in_app_or in H as [H | [<- | []]]; [| lia]. apply in_flat_map in H as (k1 & H1 & H2).
    destruct (Nat.eqb k1 k); [destruct H2 |]. eapply IH; [eapply Ha |]; eassumption.
Qed.
Lemma m_lazy_star_mono a : m_mono a -> m_mono (m_lazy_star a).
Proof. intros Ha l k k'. apply lazy_go_mono, Ha. Qed.
Lemma m_lazy_star_bnd a : m_bnd_ok a -> m_bnd_ok (m_lazy_star a).
Proof. intros Ha l k k'. apply lazy_go_bnd, Ha. Qed.
Lemma m_star_mono a : m_mono a -> m_mono (m_star a).
Proof. intros Ha l k k'. apply star_go_mono, Ha. Qed.
Lemma m_star_bnd a : m_bnd_ok a -> m_bnd_ok (m_star a).
Proof. intros Ha l k k'. apply star_go_bnd, Ha. Qed.
Lemma m_lit_mono s : m_mono (m_lit s).
Proof. induction s; simpl; [apply m_eps_mono | apply m_seq_mono; [apply m_char_mono | exact IHs]]. Qed.
Lemma m_lit_bnd s : m_bnd_ok (m_lit s).
Proof. induction s; simpl; [apply m_eps_bnd | apply m_seq_bnd; [apply m_char_bnd | exact IHs]]. Qed.
Lemma m_lit_consumes c s : m_consumes (m_lit (c :: s)).
Proof. simpl. apply m_seq_consumes; [apply m_char_consumes | apply m_lit_mono]. Qed.

Lemma re_block_comment_props :
  m_consumes re_block_comment /\ m_bnd_ok re_block_comment.
Proof.
  unfold re_block_comment. split.
  - apply m_seq_consumes; [apply m_lit_consumes |].
    apply m_seq_mono; [apply m_lazy_star_mono, m_char_mono | apply m_lit_mono].
  - apply m_seq_bnd; [apply m_lit_bnd |]. apply m_seq_bnd; [| apply m_lit_bnd].
    apply m_lazy_star_bnd, m_char_bnd.
Qed.
Lemma re_string_literal_props :
  m_consumes re_string_literal /\ m_bnd_ok re_string_literal.
Proof.
  split.
  - apply m_seq_consumes_r; [apply m_bol_mono |]. apply m_seq_consumes; [apply m_lit_consumes |].
    apply m_seq_mono; [apply m_star_mono, m_alt_mono; [apply m_char_mono | apply m_seq_mono; [apply m_lit_mono | apply m_char_mono]] | apply m_lit_mono].
  - unfold re_string_literal. apply m_seq_bnd; [apply m_bol_bnd |].
    apply m_seq_bnd; [apply m_lit_bnd |]. apply m_seq_bnd; [| apply m_lit_bnd].
    apply m_star_bnd, m_alt_bnd; [apply m_char_bnd | apply m_seq_bnd; [apply m_lit_bnd | apply m_char_bnd]].
Qed.

Lemma non_space_app a b : non_space (a ++ b) = non_space a ++ non_space b.
Proof. apply filter_app. Qed.

Lemma search_spec r l p k e :
  search r l p = Some (k, e) -> (p <= k)%nat /\ (k <= length l)%nat /\ In e (r l k).
Proof.
  unfold search. destruct (find _ _) as [k0 |] eqn:F; [| discriminate].
  apply find_some in F as [F1 _]. apply in_seq in F1.
  destruct (r l k0) as [| e0 rest] eqn:R; [discriminate |].
  intros E. injection E as <- <-. split; [lia | split; [lia |]]. rewrite R. left. reflexivity.
Qed.

Lemma skipn_slices (l : text) p k e :
  (p <= k)%nat -> (k <= e)%nat -> skipn p l = slice l p k ++ slice l k e ++ skipn e l.
Proof.
  intros H1 H2. unfold slice.
  replace (skipn k l) with (skipn (k - p) (skipn p l)) by (rewrite skipn_skipn; f_equal; lia).
  replace (skipn e l) with (skipn (e - k) (skipn (k - p) (skipn p l))) by (rewrite !skipn_skipn; f_equal; lia).
  rewrite !firstn_skipn. reflexivity.
Qed.

Lemma non_space_repeat_space n : non_space (repeat 32 n) = [].
Proof. induction n; simpl; [reflexivity | exact IHn]. Qed.

Lemma replace_go_spec fuel l p :
  (length l - p < fuel)%nat ->
  exists ms out, replace_go fuel l p = Some (ms, out) /\
    Permutation (non_space (skipn p l)) (non_space (concat ms) ++ non_space out).
Proof.
  revert p. induction fuel as [| f IH]; intros p Hf; [lia |].
  simpl. destruct (search re_block_comment l p) as [[k e] |] eqn:S.
  - apply search_spec in S as (H1 & H2 & H3).
    destruct re_block_comment_props as [Hc Hb].
    pose proof (Hc _ _ _ H3). pose proof (Hb _ _ _ H2 H3).
    destruct (IH e ltac:(lia)) as (ms & out & E & HP). rewrite E.
    exists (slice l k e :: ms), (slice l p k ++ repeat 32 (e - k) ++ out). split; [reflexivity |].
    rewrite (skipn_slices l p k e) by lia. simpl concat. rewrite !non_space_app, non_space_repeat_space. simpl.
    rewrite HP, !app_assoc. apply Permutation_app_tail.
    rewrite <- !app_assoc. eapply Permutation_trans; [apply Permutation_app_comm |].
    rewrite <- app_assoc. apply Permutation_refl.
  - exists [], (skipn p l). split; [reflexivity |]. simpl. apply Permutation_refl.
Qed.

Lemma non_space_split_nl l : non_space (concat (split_nl l)) = non_space l.
Proof.
  induction l as [| c r IH]; [reflexivity |]. simpl split_nl.
  destruct (c =? 10) eqn:E.
  - apply N.eqb_eq in E. subst c. simpl. exact IH.
  - assert (forall xs : list text, concat (match xs with x :: xs => (c :: x) :: xs | [] => [[c]] end)
            = c :: concat xs) as ->.
    { intros [|]; reflexivity. }
    change (c :: concat (split_nl r)) with ([c] ++ concat (split_nl r)).
    change (c :: r) with ([c] ++ r). rewrite !non_space_app, IH. reflexivity.
Qed.

Lemma span_app {A} (p : A -> bool) l : fst (span p l) ++ snd (span p l) = l.
Proof.
  induction l as [| x r IH]; [reflexivity |]. simpl.
  destruct (p x); [| reflexivity]. destruct (span p r) as [a b]. simpl in *. rewrite IH. reflexivity.
Qed.

Lemma non_space_span_space l : non_space (snd (span is_space l)) = non_space l.
Proof.
  induction l as [| x r IH]; [reflexivity |]. cbn [span].
  destruct (is_space x) eqn:E; [| reflexivity]. destruct (span is_space r) as [a b]. simpl in *.
  rewrite IH. unfold non_space. simpl. rewrite E. reflexivity.
Qed.

Lemma non_space_rev l : non_space (rev l) = rev (non_space l).
Proof.
  induction l as [| x r IH]; [reflexivity |]. simpl. rewrite non_space_app, IH.
  unfold non_space at 2. simpl. destruct (negb (is_space x)); simpl; [reflexivity | apply app_nil_r].
Qed.

Lemma non_space_trim l : non_space (trim l) = non_space l.
Proof. unfold trim. rewrite non_space_rev, non_space_span_space, non_space_rev, non_space_span_space, rev_involutive. reflexivity. Qed.

Lemma classifyLexeme_value x : lvalue (classifyLexeme x) = x.
Proof. unfold classifyLexeme. destruct (find _ _) as [[? ?] |]; reflexivity. Qed.

Lemma non_space_cons c r : non_space (c :: r) = non_space [c] ++ non_space r.
Proof. apply (non_space_app [c] r). Qed.

Ltac scan_step IH f tac :=
  let ts := fresh "ts" in let E := fresh "E" in let HN := fresh "HN" in
  match goal with |- context [scanLine f ?x] =>
    destruct (IH x) as (ts & E & HN); [tac |]; rewrite E; eexists; split; [reflexivity |];
    cbn [map concat lvalue tok]; rewrite non_space_app, HN
  end.

Lemma scanLine_spec fuel r :
  (length r < fuel)%nat ->
  exists ts, scanLine fuel r = Some ts /\ non_space (concat (map lvalue ts)) = non_space r.
Proof.
  revert r. induction fuel as [| f IH]; intros r Hf; [simpl in Hf; lia |].
  destruct r as [| c r']; [exists []; split; reflexivity |].
  simpl in Hf. cbn [scanLine].
  destruct (is_space c) eqn:Hs.
  { destruct (IH r' ltac:(lia)) as (ts & E & HN). exists ts. split; [exact E |].
    rewrite HN, non_space_cons. unfold non_space at 2. simpl. rewrite Hs. reflexivity. }
  destruct ((c =? 47) && match r' with d :: _ => d =? 47 | [] => false end).
  { eexists; split; [reflexivity |]. cbn [map concat lvalue tok]. rewrite app_nil_r. reflexivity. }
  destruct (c =? 34) eqn:Hq.
  { destruct (re_string_literal (c :: r') O) as [| e rest] eqn:Er.
    - apply N.eqb_eq in Hq. subst c. scan_step IH f ltac:(lia). rewrite <- non_space_cons. reflexivity.
    - destruct re_string_literal_props as [Hc Hb].
      assert (In e (re_string_literal (c :: r') O)) as Hin by (rewrite Er; left; reflexivity).
      pose proof (Hc _ _ _ Hin). pose proof (Hb (c :: r') O e ltac:(simpl; lia) Hin). cbn [length] in *.
      scan_step IH f ltac:(rewrite length_skipn; cbn [length]; lia). rewrite <- non_space_app, firstn_skipn. reflexivity. }
  destruct (re_test re_operator (firstn 2 (c :: r'))).
  { scan_step IH f ltac:(rewrite length_skipn; cbn [length]; lia). rewrite <- non_space_app, firstn_skipn. reflexivity. }
  repeat match goal with
  | |- context [if re_test ?m [c] then _ else _] =>
      destruct (re_test m [c]); [scan_step IH f ltac:(lia); rewrite <- non_space_cons; reflexivity |]
  end.
  pose proof (span_app is_word (c :: r')) as HS.
  destruct (span is_word (c :: r')) as [lexeme rest]. simpl in HS.
  destruct lexeme as [| x xs].
  - scan_step IH f ltac:(lia). rewrite <- non_space_cons. reflexivity.
  - assert (length rest < S (length r'))%nat.
    { apply (f_equal (@length N)) in HS. rewrite length_app in HS. simpl in HS. lia. }
    scan_step IH f ltac:(lia). rewrite classifyLexeme_value, <- non_space_app, HS. reflexivity.
Qed.

Lemma lineTokens_spec line :
  exists ts, lineTokens line = Some ts /\ non_space (concat (map lvalue ts)) = non_space line.
Proof.
  unfold lineTokens. destruct (re_test re_preprocessor_line line).
  - eexists; split; [reflexivity |]. cbn [map concat lvalue tok]. rewrite app_nil_r. apply non_space_trim.
  - apply scanLine_spec. lia.
Qed.

Lemma map_opt_lineTokens lines :
  exists tss, map_opt lineTokens lines = Some tss /\
    non_space (concat (map lvalue (concat tss))) = non_space (concat lines).
Proof.
  induction lines as [| x r IH]; [exists []; split; reflexivity |].
  destruct IH as (tss & E & HN). destruct (lineTokens_spec x) as (ts & E1 & HN1).
  exists (ts :: tss). simpl. rewrite E1, E. split; [reflexivity |].
  rewrite map_app, concat_app, !non_space_app, HN, HN1. reflexivity.
Qed.

End LexerFacts.

(** C9: [tokenize] is total: on every text it returns a token list (the
    model's [None] would mean that a loop ran out of its bound), and the
    non-whitespace code units of the input are exactly those of the token
    values, up to order (block comments come first).  On [x = @;] the
    unrecognised [@] becomes an [UNDEFINED] token. *)
Theorem tokenize_total (input : Lexer.text) :
  (exists toks, Lexer.tokenize input = Some toks /\
     Permutation (LexerSpec.non_space input)
                 (LexerSpec.non_space (concat (map Lexer.lvalue toks)))) /\
  Lexer.tokenize (Lexer.cu "x = @;") =
    Some [Lexer.tok "IDENTIFIER" (Lexer.cu "x"); Lexer.tok "OPERATOR" (Lexer.cu "= ");
          Lexer.tok "UNDEFINED" (Lexer.cu "@"); Lexer.tok "SEPARATOR" (Lexer.cu ";")].
Proof.
  split; [| vm_compute; reflexivity].
  unfold Lexer.tokenize.
  destruct (LexerFacts.replace_go_spec (S (length input)) input 0 ltac:(lia)) as (ms & out & E & HP).
  rewrite E. destruct (LexerFacts.map_opt_lineTokens (Lexer.split_nl out)) as (tss & E2 & HN).
  rewrite E2. eexists; split; [reflexivity |].
  rewrite skipn_O in HP. rewrite map_app, concat_app, LexerFacts.non_space_app, HN,
    LexerFacts.non_space_split_nl, map_map, map_id. exact HP.
Qed.

(* ------------------------------------------------------------------ *)
(** ** Function end labels in the assembly *)

(** *** Generated names end in a digit *)

Lemma last_char_cons c s : s <> EmptyString -> last_char (String c s) = last_char s.
Proof. destruct s; [congruence | reflexivity]. Qed.

Lemma last_char_app s1 s2 : s2 <> EmptyString -> last_char (s1 ++ s2) = last_char s2.
Proof.
  intros H. induction s1 as [| c r IH]; [reflexivity |]. change ((String c r ++ s2)%string) with (String c (r ++ s2)).
  rewrite last_char_cons; [exact IH |]. destruct r; simpl; [exact H | discriminate].
Qed.

Lemma digits_of_nat_aux_last f n acc :
  acc <> EmptyString -> last_char (digits_of_nat_aux f n acc) = last_char acc.
Proof.
  revert n acc. induction f as [| f IH]; intros n acc H; [reflexivity |]. cbn [digits_of_nat_aux].
  destruct (Nat.eqb (n / 10) 0).
  - apply last_char_cons, H.
  - rewrite IH by discriminate. apply last_char_cons, H.
Qed.

Lemma is_digit_of_nat k : k < 10 -> is_digit (ascii_of_nat (48 + k)) = true.
Proof.
  intros H. do 10 (destruct k as [| k]; [reflexivity |]). lia.
Qed.

Lemma string_of_nat_last n :
  exists c, last_char (string_of_nat n) = Some c /\ is_digit c = true.
Proof.
  unfold string_of_nat. cbn [digits_of_nat_aux].
  exists (ascii_of_nat (48 + n mod 10)). split.
  - destruct (Nat.eqb (n / 10) 0); [reflexivity |].
    rewrite digits_of_nat_aux_last by discriminate. reflexivity.
  - apply is_digit_of_nat, Nat.mod_upper_bound. lia.
Qed.

Lemma ends_in_digit_prefixed p n : ends_in_digit (p ++ string_of_nat n) = true.
Proof.
  destruct (string_of_nat_last n) as (c & E & D). unfold ends_in_digit.
  rewrite last_char_app, E; [exact D |]. intros Z. rewrite Z in E. discriminate.
Qed.

(** *** IR generation keeps the shape *)

Lemma ir_spec_ret {A} nm (a : A) (Q : A -> Prop) : Q a -> ir_spec nm (ir_ret a) Q.
Proof. intros H s Hs. split; assumption. Qed.

Lemma ir_spec_bind {A B} nm (m : IR A) (k : A -> IR B) Q R :
  ir_spec nm m Q -> (forall a, Q a -> ir_spec nm (k a) R) -> ir_spec nm (ir_bind m k) R.
Proof.
  intros Hm Hk s Hs. unfold ir_bind. specialize (Hm s Hs).
  destruct (m s) as [a s']. destruct Hm as [H1 H2]. exact (Hk a H2 s' H1).
Qed.

Lemma ir_spec_emit nm o a1 a2 r :
  (o = "LABEL" -> exists s, r = JStr s /\ ends_in_digit s = true) ->
  ir_spec nm (emitInstruction o a1 a2 r) (fun _ => True).
Proof.
  intros H s Hs. simpl. split; [| exact I].
  apply Forall_app. split; [exact Hs |]. constructor; [| constructor].
  split; [left; reflexivity | intros E; right; exact (H E)].
Qed.

Lemma ir_spec_newTemp nm : ir_spec nm newTemp (fun t => exists s, t = JStr s /\ ends_in_digit s = true).
Proof. intros s Hs. split; [exact Hs |]. eexists. split; [reflexivity |]. apply ends_in_digit_prefixed. Qed.

Lemma ir_spec_newLabel nm : ir_spec nm newLabel (fun l => ends_in_digit l = true).
Proof. intros s Hs. split; [exact Hs |]. apply ends_in_digit_prefixed. Qed.

Lemma ir_spec_iter {A} nm (f : A -> IR unit) (l : list A) :
  (forall x, In x l -> ir_spec nm (f x) (fun _ => True)) -> ir_spec nm (ir_iter f l) (fun _ => True).
Proof.
  induction l as [| x r IH]; intros H; simpl; [apply ir_spec_ret; exact I |].
  eapply ir_spec_bind; [apply H; left; reflexivity |]. intros _ _. apply IH. intros y Hy. apply H. right. exact Hy.
Qed.

Ltac emit_side :=
  let E := fresh "E" in
  intros E;
  first [ discriminate E
        | eassumption
        | eexists; split; [reflexivity | eassumption]
        | match type of E with (if ?b then _ else _) = _ => destruct b; discriminate E end ].

Ltac ir_auto0 :=
  repeat match goal with
  | |- ir_spec _ (ir_bind newTemp _) _ => eapply ir_spec_bind; [apply ir_spec_newTemp | intros ? ?]
  | |- ir_spec _ (ir_bind newLabel _) _ => eapply ir_spec_bind; [apply ir_spec_newLabel | intros ? ?]
  | |- ir_spec _ (ir_bind _ _) _ => apply (ir_spec_bind _ _ _ (fun _ => True)); [| intros ? _]
  | H : ir_spec _ ?m _ |- ir_spec _ ?m _ => exact H
  | |- ir_spec _ (ir_iter _ _) _ => apply ir_spec_iter; intros ? ?
  | |- ir_spec _ (ir_ret _) _ => apply ir_spec_ret; exact I
  | |- ir_spec _ newTemp _ => apply ir_spec_newTemp
  | |- ir_spec _ newLabel _ => apply ir_spec_newLabel
  | |- ir_spec _ (emitInstruction _ _ _ _) _ => apply ir_spec_emit; emit_side
  | |- ir_spec _ (if ?b then _ else _) _ => destruct b
  | |- ir_spec _ (match ?x with _ => _ end) _ => destruct x
  end.

Lemma generateExpression_ok nm (e : node) : ir_spec nm (generateExpression e) (fun _ => True).
Proof.
  induction e using node_ind; simpl; ir_auto0; try assumption.
  match goal with H : list_all _ _ _ |- _ => induction H end; ir_auto0.
Qed.

Ltac ir_auto := repeat (ir_auto0; try (apply generateExpression_ok)).

Lemma generateStatement_ok nm (st : node) : ir_spec nm (generateStatement st) (fun _ => True).
Proof.
  induction st using node_ind; simpl; ir_auto.
  match goal with H : list_all _ _ _ |- _ => induction H end; ir_auto.
Qed.

Lemma ir_spec_emit_entry nm :
  ir_spec nm (emitInstruction "LABEL" JNull JNull ("func_" ++ nm)%string) (fun _ => True).
Proof.
  intros s Hs. simpl. split; [| exact I].
  apply Forall_app. split; [exact Hs |]. constructor; [| constructor].
  split; [left; reflexivity | intros _; left; reflexivity].
Qed.

Lemma smap_set_in {V} (m : list (string * V)) key v k x :
  In (k, x) (smap_set m key v) -> In (k, x) m \/ (k = key /\ x = v).
Proof.
  induction m as [| [k' v'] r IH]; simpl.
  - intros [E | []]. injection E as <- <-. right. split; reflexivity.
  - destruct (str_eqb key k') eqn:E.
    + apply String.eqb_eq in E. subst k'. intros [E' | H].
      * injection E' as <- <-. right. split; reflexivity.
      * left. right. exact H.
    + intros [E' | H]; [left; left; exact E' |]. destruct (IH H) as [H' | H']; [left; right; exact H' | right; exact H'].
Qed.

Lemma generateFunction_ok lc fs n :
  fs_ok fs -> fs_ok (snd (generateFunction lc fs n)).
Proof.
  intros Hfs. destruct n; try exact Hfs. unfold generateFunction.
  set (m := (_ <- emitInstruction "LABEL" JNull JNull ("func_" ++ fname)%string;;
             match n with CompoundStatement _ => generateStatement n | _ => ir_ret tt end)).
  assert (Hm : ir_spec fname m (fun _ => True)).
  { unfold m. eapply ir_spec_bind; [apply ir_spec_emit_entry | intros _ _].
    destruct n; try (apply ir_spec_ret; exact I). apply generateStatement_ok. }
  destruct (Hm (mkIrst lc 0 []) (Forall_nil _)) as [Hc _].
  destruct (m (mkIrst lc 0 [])) as [u s]. simpl in *.
  intros k f Hin. apply smap_set_in in Hin as [Hin | [-> ->]].
  - exact (Hfs k f Hin).
  - exact Hc.
Qed.

Lemma generate_ok ast : fs_ok (generate ast).
Proof.
  destruct ast; try (intros k f []).
  unfold generate.
  assert (forall l lc fs, fs_ok fs ->
            fs_ok (snd (fold_left (fun '(lc, fs) n =>
                        match n with
                        | FunctionDeclaration _ _ _ _ => generateFunction lc fs n
                        | _ => (lc, fs)
                        end) l (lc, fs)))) as H.
  { induction l as [| x r IH]; intros lc fs Hfs; simpl; [exact Hfs |].
    destruct x; try (apply IH; exact Hfs).
    pose proof (generateFunction_ok lc fs (FunctionDeclaration returnType fname parameters x) Hfs) as Hg.
    destruct (generateFunction lc fs _) as [lc' fs']. apply IH. exact Hg. }
  apply H. intros k f [].
Qed.

(** *** The optimizer keeps the shape *)

Lemma tac_ok_assign nm a1 r : tac_ok nm (instr "=" a1 JNull r).
Proof. split; [left; reflexivity | intros E; discriminate E]. Qed.

Lemma tac_ok_same nm i o a1 a2 r lb :
  tac_ok nm i -> o = i.(op) -> r = i.(result) -> lb = i.(label) -> tac_ok nm (mkInstr o a1 a2 r lb).
Proof. intros [H1 H2] -> -> ->. split; assumption. Qed.

Lemma constantFolding_ok JS nm l :
  Forall (tac_ok nm) l -> Forall (tac_ok nm) (constantFolding JS l).
Proof.
  unfold constantFolding. intros Hl.
  assert (forall st, Forall (tac_ok nm) (snd st) -> Forall (tac_ok nm) (snd (fold_left (cf_step JS) l st))) as H.
  { induction Hl as [| i r Hi Hr IH]; intros [c out] Hout; simpl; [exact Hout |].
    apply IH. unfold cf_step.
    destruct (is_control i); [| destruct (_ && _); [| destruct (_ && _ && _)]];
      simpl in *; apply Forall_app; (split; [exact Hout | constructor; [| constructor]]);
      try exact Hi; try apply tac_ok_assign; eapply tac_ok_same; eauto. }
  apply H. constructor.
Qed.

Lemma deadCodeElimination_ok nm l :
  Forall (tac_ok nm) l -> Forall (tac_ok nm) (deadCodeElimination l).
Proof.
  intros Hl. apply Forall_forall. intros x Hx. unfold deadCodeElimination in Hx.
  apply filter_In in Hx as [Hx _]. exact (proj1 (Forall_forall _ _) Hl x Hx).
Qed.

Lemma cse_ok nm l :
  Forall (tac_ok nm) l -> Forall (tac_ok nm) (commonSubexpressionElimination l).
Proof.
  unfold commonSubexpressionElimination. intros Hl.
  assert (forall st, Forall (tac_ok nm) (snd st) -> Forall (tac_ok nm) (snd (fold_left cse_step l st))) as H.
  { induction Hl as [| i r Hi Hr IH]; intros [e out] Hout; simpl; [exact Hout |].
    apply IH. unfold cse_step.
    destruct (is_control i); [| destruct (str_map_get e (exprKey i))];
      simpl; apply Forall_app; (split; [exact Hout | constructor; [| constructor]]);
      try exact Hi; apply tac_ok_assign. }
  apply H. constructor.
Qed.

Lemma Forall_skipn {A} (P : A -> Prop) n l : Forall P l -> Forall P (skipn n l).
Proof.
  revert l. induction n as [| n IH]; intros l Hl; [exact Hl |].
  destruct Hl as [| x r Hx Hr]; [constructor | exact (IH r Hr)].
Qed.

Lemma loopOptimization_ok nm l :
  Forall (tac_ok nm) l -> Forall (tac_ok nm) (loopOptimization l).
Proof.
  unfold loopOptimization. generalize (length l) as fuel. intros fuel. revert l.
  induction fuel as [| f IH]; intros l Hl; [constructor |]. simpl.
  destruct Hl as [| i rest Hi Hr]; [constructor |].
  destruct (if is_loop_label i then _ else None) as [after |] eqn:E.
  - constructor.
    + destruct Hi as [_ H2]. split; [right; reflexivity | exact H2].
    + apply IH.
      repeat match type of E with
      | context [if ?b then _ else _] => destruct b
      | context [match ?x with Some _ => _ | None => _ end] => destruct x
      end; try discriminate E.
      injection E as <-. exact (Forall_skipn _ (S n) rest Hr).
  - constructor; [exact Hi | apply IH, Hr].
Qed.

Lemma optimize_ok JS fs : fs_ok fs -> fs_ok (optimize JS fs).
Proof.
  intros H k f Hin. unfold optimize in Hin. apply in_map_iff in Hin as ([k0 f0] & E & Hin).
  cbn in E. injection E as <- <-. unfold optimizeFunction, with_instructions. simpl.
  apply loopOptimization_ok, cse_ok, deadCodeElimination_ok, constantFolding_ok, (H _ _ Hin).
Qed.

Lemma str_length_app s1 s2 : String.length (s1 ++ s2) = String.length s1 + String.length s2.
Proof. induction s1 as [| c r IH]; simpl; [reflexivity | rewrite IH; reflexivity]. Qed.

Lemma str_app_assoc s1 s2 s3 : ((s1 ++ s2) ++ s3)%string = (s1 ++ (s2 ++ s3))%string.
Proof. induction s1 as [| c r IH]; simpl; [reflexivity | rewrite IH; reflexivity]. Qed.

Lemma str_app_inv_tail s1 s2 t : (s1 ++ t)%string = (s2 ++ t)%string -> s1 = s2.
Proof.
  revert s2. induction s1 as [| c r IH]; intros s2 E; destruct s2 as [| d r2]; try reflexivity.
  - apply (f_equal String.length) in E. simpl in E. rewrite str_length_app in E. lia.
  - apply (f_equal String.length) in E. simpl in E. rewrite str_length_app in E. lia.
  - simpl in E. injection E as <- E. f_equal. exact (IH r2 E).
Qed.

Lemma space_line_ne nm x :
  starts_with " " nm = false -> starts_with " " x = true -> x <> (nm ++ "_end:")%string.
Proof.
  intros Hn Hx ->. destruct nm as [| c r]; [discriminate Hx |]. simpl in Hx, Hn. congruence.
Qed.

Lemma end_label_last nm : last_char (nm ++ "_end") = Some "d"%char.
Proof. apply last_char_app. discriminate. Qed.

Lemma end_label_split nm : (nm ++ "_end:")%string = ((nm ++ "_end") ++ ":")%string.
Proof. rewrite str_app_assoc. reflexivity. Qed.

Ltac close_line Hn H :=
  first [ refine (space_line_ne _ _ Hn _ H); reflexivity
        | apply (f_equal String.length) in H; rewrite ?str_length_app in H; simpl in H;
          rewrite ?str_length_app in H; simpl in H; lia ].

Lemma generateInstruction_no_end functions nm lv i :
  starts_with " " nm = false -> tac_ok nm i ->
  ~ In (nm ++ "_end:")%string (generateInstruction functions nm lv i).
Proof.
  intros Hn [Hl Hop] Hin. unfold generateInstruction in Hin. apply in_app_or in Hin as [Ht | Hin].
  - destruct Hl as [E | E]; rewrite E in Ht; simpl in Ht; [exact Ht |].
    destruct Ht as [Ht | []].
    change "OPTIMIZED_LOOP:" with ("OPTIMIZED_LOOP" ++ ":")%string in Ht.
    rewrite end_label_split in Ht. apply str_app_inv_tail in Ht.
    apply (f_equal last_char) in Ht. rewrite end_label_last in Ht. discriminate Ht.
  - destruct (str_eqb (op i) "LABEL") eqn:EL.
    + apply String.eqb_eq in EL. destruct Hin as [Hin | []].
      rewrite end_label_split in Hin. apply str_app_inv_tail in Hin.
      destruct (Hop EL) as [E | (s & E & D)]; rewrite E in Hin; simpl in Hin.
      * close_line Hn Hin.
      * subst s. unfold ends_in_digit in D. rewrite end_label_last in D. discriminate D.
    + repeat match type of Hin with
        | context [if ?b then _ else _] => destruct b
        | context [match ?x with Some _ => _ | None => _ end] => destruct x
        end;
      simpl in Hin; repeat destruct Hin as [Hin | Hin]; try contradiction; close_line Hn Hin.
Qed.

Lemma generateFunctionAsm_no_end functions nm f :
  starts_with " " nm = false -> Forall (tac_ok nm) f.(instructions) ->
  ~ In (nm ++ "_end:")%string (generateFunctionAsm functions nm f).
Proof.
  intros Hn Hf Hin. unfold generateFunctionAsm in Hin.
  repeat (apply in_app_or in Hin as [Hin | Hin]).
  - simpl in Hin. repeat destruct Hin as [Hin | Hin]; try contradiction; close_line Hn Hin.
  - destruct (Nat.ltb _ _); simpl in Hin; [| contradiction].
    destruct Hin as [Hin | []]. close_line Hn Hin.
  - apply in_flat_map in Hin as (i & Hi & Hin).
    exact (generateInstruction_no_end _ _ _ i Hn (proj1 (Forall_forall _ _) Hf i Hi) Hin).
  - simpl in Hin. repeat destruct Hin as [Hin | Hin]; try contradiction; close_line Hn Hin.
Qed.

(** C6: for every function [nm] of the optimized code of a program (with a
    name not starting with a space, as the parser's identifiers never do),
    if its instructions contain a [RETURN], the lines emitted for the
    function contain [jmp nm_end], and none of them, from the function's
    header to its epilogue, is the label line [nm_end:]. *)
Theorem return_end_label_not_emitted (JS : js_number_ops) (ast : node) (nm : string) (f : TACFunction) :
  In (nm, f) (optimize JS (generate ast)) ->
  starts_with " " nm = false ->
  (exists i, In i f.(instructions) /\ i.(op) = "RETURN") ->
  In ("    jmp " ++ nm ++ "_end")%string (generateFunctionAsm (optimize JS (generate ast)) nm f) /\
  ~ In (nm ++ "_end:")%string (generateFunctionAsm (optimize JS (generate ast)) nm f).
Proof.
  intros Hin Hn (i & Hi & Hr). split.
  - unfold generateFunctionAsm. apply in_or_app. right. apply in_or_app. right. apply in_or_app. left.
    apply in_flat_map. exists i. split; [exact Hi |].
    unfold generateInstruction. apply in_or_app. right. rewrite Hr. simpl.
    apply in_or_app. right. left. reflexivity.
  - apply generateFunctionAsm_no_end; [exact Hn |].
    exact (optimize_ok JS _ (generate_ok ast) nm f Hin).
Qed.

(** On [int id(int a) { return a; }] the [RETURN a] survives optimization. *)
Lemma return_end_label_not_emitted_witness :
  let fs := optimize js_int_model (generate prog_identity) in
  exists f, In ("id", f) fs /\
    In "    jmp id_end" (generateFunctionAsm fs "id" f) /\
    ~ In "id_end:" (generateFunctionAsm fs "id" f).
Proof.
  intros fs. eexists.
  assert (Hin : In ("id", _) fs) by (vm_compute; left; reflexivity).
  split; [exact Hin |].
  apply (return_end_label_not_emitted js_int_model prog_identity "id" _ Hin eq_refl).
  eexists. split; [vm_compute; right; left; reflexivity | reflexivity].
Defined.

(* ================================================================== *)
(** * Further properties of the code *)

(* ------------------------------------------------------------------ *)
(** ** Optimizer passes *)

Lemma cf_fold_shape JS l : forall c out,
  exists c' ys, fold_left (cf_step JS) l (c, out) = (c', out ++ ys) /\ Forall2 pass_shape l ys.
Proof.
  induction l as [|i l IH]; intros c out; cbn [fold_left].
  - exists c, []. rewrite app_nil_r. split; [reflexivity | constructor].
  - unfold cf_step at 2.
    destruct (is_control i) eqn:Ec.
    + destruct (IH c (out ++ [i])) as (c' & ys & E & F).
      exists c', (i :: ys). rewrite E, <- app_assoc. split; [reflexivity|].
      constructor; [split; auto | exact F].
    + destruct (str_eqb (op i) "=" && negb (is_nan_number (arg1 i))) eqn:E1.
      * destruct (IH (map_set c (result i) (arg1 i)) (out ++ [i])) as (c' & ys & E & F).
        exists c', (i :: ys). rewrite E, <- app_assoc. split; [reflexivity|].
        constructor; [split; auto | exact F].
      * match goal with |- context [if ?b then _ else _] => destruct b end.
        -- edestruct IH as (c' & ys & E & F). rewrite E, <- app_assoc.
           eexists _, _. split; [reflexivity|].
           constructor; [split; [reflexivity | congruence] | exact F].
        -- edestruct IH as (c' & ys & E & F). rewrite E, <- app_assoc.
           eexists _, _. split; [reflexivity|].
           constructor; [split; [reflexivity | congruence] | exact F].
Qed.

(** X1: [constantFolding] maps the code instruction by instruction: the
    output has one instruction per input instruction, each with the same
    destination, and every [LABEL], [GOTO] and [IF_FALSE] instruction is
    copied unchanged. *)
Theorem constantFolding_shape JS l : Forall2 pass_shape l (constantFolding JS l).
Proof.
  unfold constantFolding. destruct (cf_fold_shape JS l [] []) as (c' & ys & E & F).
  rewrite E. exact F.
Qed.

Lemma cse_fold_shape l : forall c out,
  exists c' ys, fold_left cse_step l (c, out) = (c', out ++ ys) /\ Forall2 pass_shape l ys.
Proof.
  induction l as [|i l IH]; intros c out; cbn [fold_left].
  - exists c, []. rewrite app_nil_r. split; [reflexivity | constructor].
  - unfold cse_step at 2.
    destruct (is_control i) eqn:Ec.
    + edestruct IH as (c' & ys & E & F). rewrite E, <- app_assoc.
      eexists _, _. split; [reflexivity|]. constructor; [split; auto | exact F].
    + destruct (str_map_get c (exprKey i)).
      * edestruct IH as (c' & ys & E & F). rewrite E, <- app_assoc.
        eexists _, _. split; [reflexivity|]. constructor; [split; [reflexivity | congruence] | exact F].
      * edestruct IH as (c' & ys & E & F). rewrite E, <- app_assoc.
        eexists _, _. split; [reflexivity|]. constructor; [split; auto | exact F].
Qed.

(** X2: [commonSubexpressionElimination] maps the code instruction by
    instruction: one output instruction per input instruction, with the
    same destination, and every [LABEL], [GOTO] and [IF_FALSE] instruction
    copied unchanged. *)
Theorem cse_shape l : Forall2 pass_shape l (commonSubexpressionElimination l).
Proof.
  unfold commonSubexpressionElimination. destruct (cse_fold_shape l [] []) as (c' & ys & E & F).
  rewrite E. exact F.
Qed.

(** X3: [deadCodeElimination] only removes assignments ([=]): the
    instructions with any other operator are kept, all of them and in
    their order. *)
Theorem deadCodeElimination_keeps_non_assign l :
  filter not_assign (deadCodeElimination l) = filter not_assign l.
Proof.
  unfold deadCodeElimination. generalize (usedVars l) as u. intro u.
  induction l as [|i l IH]; [reflexivity|].
  cbn [filter]. unfold not_assign in *.
  destruct (str_eqb (op i) "=") eqn:E; cbn [andb negb].
  - destruct (negb (set_has u (result i))); cbn [filter negb]; rewrite ?E; cbn [negb]; exact IH.
  - cbn [filter negb]. rewrite ?E. cbn [negb]. f_equal. exact IH.
Qed.

Lemma loop_go_no_goto fuel l :
  forallb (fun i => negb (str_eqb i.(op) "GOTO")) l = true -> (length l <= fuel)%nat ->
  loop_go fuel l = l.
Proof.
  revert l; induction fuel as [|f IH]; intros l Hg Hl.
  - destruct l; [reflexivity | cbn in Hl; lia].
  - destruct l as [|i r]; [reflexivity|].
    cbn [forallb] in Hg. apply andb_prop in Hg as [_ Hg].
    assert (Hf : forall lbl, find_goto lbl r = None).
    { clear -Hg. induction r as [|c r IHr]; intro lbl; [reflexivity|].
      cbn [forallb] in Hg. apply andb_prop in Hg as [Hc Hg]. cbn [find_goto].
      apply negb_true_iff in Hc. rewrite Hc. cbn [andb]. rewrite IHr; auto. }
    cbn [loop_go]. rewrite Hf. destruct (is_loop_label i);
    rewrite IH; auto; cbn [length] in Hl; lia.
Qed.

(** X4: code without any [GOTO] instruction goes through
    [loopOptimization] unchanged. *)
Theorem loopOptimization_no_goto l :
  forallb (fun i => negb (str_eqb i.(op) "GOTO")) l = true -> loopOptimization l = l.
Proof. intro H. apply loop_go_no_goto; auto. Qed.

Lemma loopOptimization_no_goto_witness :
  loopOptimization [instr "LABEL" JNull JNull "L1"; instr "+" "i" "1" "t1"; instr "=" "t1" JNull "i"]
  = [instr "LABEL" JNull JNull "L1"; instr "+" "i" "1" "t1"; instr "=" "t1" JNull "i"].
Proof. apply loopOptimization_no_goto. reflexivity. Defined.

(* ------------------------------------------------------------------ *)
(** ** Call lowering *)

Lemma nat_of_ascii_digit k : (k < 10)%nat -> nat_of_ascii (ascii_of_nat (48 + k)) = (48 + k)%nat.
Proof. intro H. apply nat_ascii_embedding. lia. Qed.

Lemma digits_value_digit k r o : (k < 10)%nat ->
  digits_value 10 (ascii_of_nat (48 + k) :: r) o =
  digits_value 10 r (Some (10 * match o with Some a => a | None => 0 end + Z.of_nat k)%Z).
Proof.
  intro H. cbn [digits_value]. rewrite nat_of_ascii_digit by exact H.
  unfold is_digit. rewrite nat_of_ascii_digit by exact H.
  replace (Nat.leb 48 (48 + k) && Nat.leb (48 + k) 57) with true
    by (symmetry; apply andb_true_intro; split; apply Nat.leb_le; lia).
  replace (Z.of_nat (48 + k) - 48)%Z with (Z.of_nat k) by lia.
  replace (Z.of_nat k <? 10)%Z with true by (symmetry; apply Z.ltb_lt; lia).
  reflexivity.
Qed.

Lemma digits_of_nat_aux_shape f : forall n acc, (n < f)%nat ->
  exists ds, list_ascii_of_string (digits_of_nat_aux f n acc) = ds ++ list_ascii_of_string acc /\
    ds <> [] /\ Forall dec_char ds /\
    forall r a, digits_value 10 (ds ++ r) (Some a) =
                digits_value 10 r (Some (a * 10 ^ Z.of_nat (length ds) + Z.of_nat n)%Z).
Proof.
  induction f as [|f IH]; intros n acc Hn; [lia|].
  cbn [digits_of_nat_aux].
  assert (Hm : (n mod 10 < 10)%nat) by (apply Nat.mod_upper_bound; lia).
  pose proof (Nat.div_mod_eq n 10) as Hd.
  destruct (Nat.eqb (n / 10) 0) eqn:Eq.
  - apply Nat.eqb_eq in Eq. exists [ascii_of_nat (48 + n mod 10)].
    split; [reflexivity|]. split; [discriminate|]. split.
    + constructor; [exists (n mod 10); split; auto | constructor].
    + intros r a. cbn [app]. rewrite digits_value_digit by exact Hm. f_equal. f_equal.
      assert (Hn' : n mod 10 = n) by (rewrite Eq in Hd; lia). rewrite Hn'.
      cbn [length]. change (Z.of_nat 1) with 1%Z. rewrite Z.pow_1_r. lia.
  - apply Nat.eqb_neq in Eq.
    assert (Hq : (n / 10 < f)%nat).
    { assert (n / 10 < n)%nat by (apply Nat.div_lt; lia). lia. }
    destruct (IH (n / 10) (String (ascii_of_nat (48 + n mod 10)) acc) Hq)
      as (ds & E & Hne & HF & HV).
    exists (ds ++ [ascii_of_nat (48 + n mod 10)]). rewrite E, <- app_assoc. split; [reflexivity|].
    split; [destruct ds; [congruence | discriminate]|]. split.
    + apply Forall_app; split; [exact HF | constructor; [exists (n mod 10); split; auto | constructor]].
    + intros r a. rewrite <- app_assoc. rewrite HV. cbn [app]. rewrite digits_value_digit by exact Hm.
      f_equal. f_equal. rewrite length_app. cbn [length].
      rewrite Nat2Z.inj_add, Z.pow_add_r by lia. change (Z.of_nat 1) with 1%Z. rewrite Z.pow_1_r.
      rewrite Hd at 3. rewrite Nat2Z.inj_add, Nat2Z.inj_mul. lia.
Qed.

Lemma dec_char_not_ws c : dec_char c -> is_js_ws c = false.
Proof.
  intros (k & Hk & ->). unfold is_js_ws. rewrite nat_of_ascii_digit by exact Hk.
  repeat apply orb_false_intro; apply Nat.eqb_neq; lia.
Qed.

Lemma dec_char_not_x c : dec_char c -> (Ascii.eqb c "x" || Ascii.eqb c "X") = false.
Proof.
  intros (k & Hk & ->). apply orb_false_intro; apply Ascii.eqb_neq; intro E;
  apply (f_equal nat_of_ascii) in E; rewrite nat_of_ascii_digit in E by exact Hk; cbn in E; lia.
Qed.

(** [parseInt] reads back the decimal text of a natural number. *)
Lemma parseInt_string_of_nat n : parseInt (JStr (string_of_nat n)) = Some (Z.of_nat n).
Proof.
  destruct (digits_of_nat_aux_shape (S n) n EmptyString ltac:(lia)) as (ds & E & Hne & HF & HV).
  unfold parseInt, string_of_nat. cbn [js_str]. rewrite E. cbn [list_ascii_of_string]. rewrite app_nil_r.
  destruct ds as [|c r]; [congruence|].
  inversion HF as [|? ? Hc Hr]; subst.
  assert (HV0 : digits_value 10 (c :: r) None = Some (Z.of_nat n)).
  { destruct Hc as (k & Hk & ->). rewrite digits_value_digit by exact Hk.
    specialize (HV [] 0%Z). rewrite app_nil_r in HV. rewrite digits_value_digit in HV by exact Hk.
    rewrite HV. reflexivity. }
  cbn [span]. rewrite (dec_char_not_ws c Hc). cbn [snd].
  assert (Hr2 : match r with x :: _ => (Ascii.eqb x "x" || Ascii.eqb x "X") = false | [] => True end)
    by (destruct r as [|x r]; [exact I | inversion Hr; apply dec_char_not_x; assumption]).
  destruct Hc as (k & Hk & Ec).
  do 10 (destruct k as [|k]; [subst c; cbn -[digits_value] in HV0 |- *;
          try (destruct r as [|x r]; [| rewrite Hr2]);
          cbn -[digits_value]; rewrite HV0; cbn [option_map]; f_equal; lia |]).
  lia.
Qed.

(** X5: a [CALL] instruction whose argument count is the decimal text of
    [n] (as [generateFunctionCall] writes it) becomes [call f], then
    [add esp, 4n] when [n > 0] (the pushed arguments are popped), then
    [mov res, eax] when the result has a location.  The bound [4n < 2^53]
    keeps [parseInt]'s double and [argCount * 4] exact integers, printed
    in full. *)
Theorem generateInstruction_call functions nm lv f n r :
  (4 * Z.of_nat n < 2 ^ 53)%Z ->
  generateInstruction functions nm lv (instr "CALL" f (JStr (string_of_nat n)) r) =
  ("    call " ++ js_str f)%string ::
  (if Nat.ltb 0 n then [("    add esp, " ++ string_of_Z (Z.of_nat (4 * n)))%string] else []) ++
  (if truthy (getOperandLocation functions nm lv r)
   then [("    mov " ++ getOperandLocation functions nm lv r ++ ", eax")%string] else []).
Proof.
  intros _. unfold generateInstruction. cbn [instr op arg1 arg2 result label app].
  rewrite parseInt_string_of_nat.
  replace (0 <? Z.of_nat n)%Z with (Nat.ltb 0 n)
    by (destruct (Nat.ltb_spec 0 n), (Z.ltb_spec 0 (Z.of_nat n)); lia).
  rewrite Nat2Z.inj_mul, Z.mul_comm. reflexivity.
Qed.

Lemma generateInstruction_call_witness :
  generateInstruction [("main", mkFunc "main" [] [] 3)] "main" []
    (instr "CALL" "f" (JStr (string_of_nat 2)) "t3") =
  ["    call f"; "    add esp, 8"; "    mov t3, eax"].
Proof.
  rewrite (generateInstruction_call [("main", mkFunc "main" [] [] 3)] "main" [] "f" 2 "t3");
    vm_compute; reflexivity.
Defined.

(* ------------------------------------------------------------------ *)
(** ** Operand locations *)

Lemma jsv_eqb_eq a b : jsv_eqb a b = true <-> a = b.
Proof.
  destruct a, b; cbn; split; intro H; try discriminate; try reflexivity.
  - unfold str_eqb in H. apply String.eqb_eq in H. congruence.
  - injection H as ->. apply String.eqb_refl.
Qed.

Lemma map_get_map_set_same {V} (m : list (jsval * V)) k v : map_get (map_set m k v) k = Some v.
Proof.
  induction m as [|[k' v'] m IH]; cbn.
  - replace (jsv_eqb k k) with true by (symmetry; apply jsv_eqb_eq; reflexivity). reflexivity.
  - destruct (jsv_eqb k k') eqn:E; cbn.
    + rewrite E. reflexivity.
    + destruct (jsv_eqb k k') eqn:E2; [congruence | exact IH].
Qed.

Lemma map_get_map_set_other {V} (m : list (jsval * V)) k k2 v :
  k2 <> k -> map_get (map_set m k v) k2 = map_get m k2.
Proof.
  intro Hne. induction m as [|[k' v'] m IH]; cbn.
  - destruct (jsv_eqb k2 k) eqn:E; [apply jsv_eqb_eq in E; congruence | reflexivity].
  - destruct (jsv_eqb k k') eqn:E; cbn.
    + apply jsv_eqb_eq in E; subst k'.
      destruct (jsv_eqb k2 k) eqn:E2; [apply jsv_eqb_eq in E2; congruence | reflexivity].
    + destruct (jsv_eqb k2 k'); [reflexivity | exact IH].
Qed.

Lemma param_slots_fold (ps : list jsval) : forall (m : list (jsval * Z)) (j : nat) p,
  NoDup ps ->
  map_get (fold_left (fun m '(i, p) => map_set m p (8 + Z.of_nat i * 4)%Z)
                     (combine (seq j (length ps)) ps) m) p =
  match index_of ps p with
  | Some i => Some (8 + Z.of_nat (j + i) * 4)%Z
  | None => map_get m p
  end.
Proof.
  induction ps as [|q ps IH]; intros m j p Hnd; [reflexivity|].
  inversion Hnd as [|? ? Hq Hnd']; subst.
  cbn [length seq combine fold_left]. rewrite IH by exact Hnd'.
  cbn [index_of]. destruct (jsv_eqb p q) eqn:E.
  - apply jsv_eqb_eq in E; subst q.
    assert (Hi : index_of ps p = None).
    { clear -Hq. induction ps as [|x ps IHp]; [reflexivity|]. cbn.
      destruct (jsv_eqb p x) eqn:E; [apply jsv_eqb_eq in E; subst; exfalso; apply Hq; left; auto|].
      rewrite IHp; [reflexivity | intro; apply Hq; right; auto]. }
    rewrite Hi. rewrite map_get_map_set_same. f_equal. lia.
  - destruct (index_of ps p) as [i|]; cbn [option_map].
    + f_equal. lia.
    + apply map_get_map_set_other. intro; subst. rewrite (proj2 (jsv_eqb_eq q q) eq_refl) in E. discriminate.
Qed.

Lemma index_of_nth ps i p : NoDup ps -> nth_error ps i = Some p -> index_of ps p = Some i.
Proof.
  revert i; induction ps as [|q ps IH]; intros i Hnd Hn; [destruct i; discriminate|].
  inversion Hnd as [|? ? Hq Hnd']; subst. destruct i as [|i]; cbn in Hn |- *.
  - injection Hn as ->. rewrite (proj2 (jsv_eqb_eq p p) eq_refl). reflexivity.
  - destruct (jsv_eqb p q) eqn:E.
    + apply jsv_eqb_eq in E; subst. exfalso. apply Hq. eapply nth_error_In; eauto.
    + rewrite (IH i Hnd' Hn). reflexivity.
Qed.

Lemma index_of_notin ps p : ~ In p ps -> index_of ps p = None.
Proof.
  induction ps as [|q ps IH]; intro H; [reflexivity|]. cbn.
  destruct (jsv_eqb p q) eqn:E; [apply jsv_eqb_eq in E; subst; exfalso; apply H; left; auto|].
  rewrite IH; [reflexivity | intro; apply H; right; auto].
Qed.

(** X6: with the parameter slots [generateFunction] allocates, the [i]-th
    parameter (0-based; names pairwise distinct, non-empty and non-numeric)
    is addressed as [[ebp+8+4i]]. *)
Theorem getOperandLocation_param functions nm ps i p :
  NoDup ps -> nth_error ps i = Some p -> truthy p = true -> is_nan_number p = true ->
  getOperandLocation functions nm (param_slots ps) p =
  ("[ebp+" ++ string_of_nat (8 + 4 * i) ++ "]")%string.
Proof.
  intros Hnd Hn Ht Hnan. unfold getOperandLocation. rewrite Ht, Hnan. cbn [negb].
  unfold param_slots. rewrite param_slots_fold by exact Hnd. rewrite (index_of_nth _ _ _ Hnd Hn).
  cbn [Nat.add].
  replace (0 <=? 8 + Z.of_nat i * 4)%Z with true by (symmetry; apply Z.leb_le; lia).
  unfold string_of_Z.
  replace (8 + Z.of_nat i * 4)%Z with (Z.of_nat (8 + 4 * i)) by lia.
  destruct (Z.of_nat (8 + 4 * i)) eqn:Ez; try lia. rewrite <- Ez, Nat2Z.id. reflexivity.
Qed.

Lemma param_slots_fold_notin (ps : list jsval) : forall (m : list (jsval * Z)) (j : nat) p,
  ~ In p ps ->
  map_get (fold_left (fun m '(i, p) => map_set m p (8 + Z.of_nat i * 4)%Z)
                     (combine (seq j (length ps)) ps) m) p = map_get m p.
Proof.
  induction ps as [|q ps IH]; intros m j p Hin; [reflexivity|].
  cbn [length seq combine fold_left]. rewrite IH by (intro; apply Hin; right; auto).
  apply map_get_map_set_other. intro; subst. apply Hin. left. reflexivity.
Qed.

(** X7: with the parameter slots as above, a non-numeric name that is not
    a parameter of the current function (a local variable or a temporary)
    gets no stack slot: its operand is the name itself. *)
Theorem getOperandLocation_local functions nm f p :
  lookup_fn functions nm = Some f -> ~ In p f.(params) ->
  truthy p = true -> is_nan_number p = true ->
  getOperandLocation functions nm (param_slots f.(params)) p = js_str p.
Proof.
  intros Hl Hin Ht Hnan. unfold getOperandLocation. rewrite Ht, Hnan. cbn [negb].
  unfold param_slots. rewrite param_slots_fold_notin by exact Hin. cbn [map_get].
  rewrite Hl, index_of_notin by exact Hin. reflexivity.
Qed.

Lemma getOperandLocation_param_witness :
  getOperandLocation [] "f" (param_slots [JStr "a"; JStr "b"]) (JStr "b") = "[ebp+12]".
Proof.
  refine (getOperandLocation_param [] "f" [JStr "a"; JStr "b"] 1 (JStr "b") _ _ _ _);
    [| reflexivity | reflexivity | vm_compute; reflexivity].
  constructor; [intros [H|[]]; discriminate | constructor; [intros [] | constructor]].
Defined.

Lemma getOperandLocation_local_witness :
  getOperandLocation [("f", mkFunc "f" [JStr "a"] [] 1)] "f" (param_slots [JStr "a"]) (JStr "t1") = "t1".
Proof.
  refine (getOperandLocation_local [("f", mkFunc "f" [JStr "a"] [] 1)] "f" (mkFunc "f" [JStr "a"] [] 1)
            (JStr "t1") eq_refl _ eq_refl eq_refl).
  intros [H|[]]. discriminate.
Defined.

(* ------------------------------------------------------------------ *)
(** ** Scoped analyzer: scopes and diagnostics *)

Module A1Facts.
Import Analyzer1 A1Inv.

Section Inv.
Variable now : nat -> Z.

Lemma errs_grow_refl s : errs_grow s s.
Proof. exists []. rewrite app_nil_r. reflexivity. Qed.

Lemma errs_grow_trans s1 s2 s3 : errs_grow s1 s2 -> errs_grow s2 s3 -> errs_grow s1 s3.
Proof. intros [l1 E1] [l2 E2]. exists (l1 ++ l2). rewrite E2, E1, app_assoc. reflexivity. Qed.

Ltac grow0 := exists []; cbn; rewrite app_nil_r; reflexivity.

Lemma keeps_weak {A} (m : M A) : keeps m -> weak m.
Proof. intros H s a s' E. apply (H s a s' E). Qed.

Lemma keeps_bind {A B} (m : M A) (k : A -> M B) :
  keeps m -> (forall a, keeps (k a)) -> keeps (bind m k).
Proof.
  intros Hm Hk s b s' E. unfold bind in E. destruct (m s) as [[a s1]|] eqn:E1; [|discriminate].
  destruct (Hm _ _ _ E1) as [G1 C1]. destruct (Hk a _ _ _ E) as [G2 C2].
  split; [eapply errs_grow_trans; eauto | congruence].
Qed.

Lemma weak_bind {A B} (m : M A) (k : A -> M B) :
  weak m -> (forall a, weak (k a)) -> weak (bind m k).
Proof.
  intros Hm Hk s b s' E. unfold bind in E. destruct (m s) as [[a s1]|] eqn:E1; [|discriminate].
  eapply errs_grow_trans; [exact (Hm _ _ _ E1) | exact (Hk a _ _ _ E)].
Qed.

Lemma ends_bind {A B} c (m : M A) (k : A -> M B) :
  weak m -> (forall a, ends c (k a)) -> ends c (bind m k).
Proof.
  intros Hm Hk s b s' E. unfold bind in E. destruct (m s) as [[a s1]|] eqn:E1; [|discriminate].
  destruct (Hk a _ _ _ E) as [G2 C2]. split; [eapply errs_grow_trans; [exact (Hm _ _ _ E1) | exact G2] | exact C2].
Qed.

Lemma ends_set_scope c : ends c (modify (set_scope c)).
Proof. intros s a s' E. injection E as _ <-. split; [grow0 | reflexivity]. Qed.

Lemma keeps_ret {A} (a : A) : keeps (ret a).
Proof. intros s b s' E. injection E as _ <-. split; [grow0 | reflexivity]. Qed.

Lemma keeps_throw {A} : keeps (@throw A).
Proof. intros s b s' E. discriminate. Qed.

Lemma keeps_gets {A} (f : st -> A) : keeps (gets f).
Proof. intros s b s' E. injection E as _ <-. split; [grow0 | reflexivity]. Qed.

Lemma keeps_pushError msg n : keeps (pushError msg n).
Proof. intros s b s' E. injection E as _ <-. split; [eexists; reflexivity | reflexivity]. Qed.

Lemma keeps_dateNow : keeps (dateNow now).
Proof. intros s b s' E. injection E as _ <-. split; [grow0 | reflexivity]. Qed.

Lemma keeps_markInitialized c i : keeps (markInitialized c i).
Proof.
  intros s b s' E. injection E as _ <-.
  destruct (str_map_get (symbolTable s) c); (split; [grow0 | reflexivity]).
Qed.

Lemma keeps_addSymbol si : keeps (addSymbol si).
Proof.
  intros s b s' E. injection E as _ <-. split; [grow0 | reflexivity].
Qed.

Ltac a1_auto :=
  repeat match goal with
  | |- keeps (bind _ _) => apply keeps_bind; [| intro]
  | |- keeps (ret _) => apply keeps_ret
  | |- keeps throw => apply keeps_throw
  | |- keeps (gets _) => apply keeps_gets
  | |- keeps (pushError _ _) => apply keeps_pushError
  | |- keeps (markInitialized _ _) => apply keeps_markInitialized
  | |- keeps (addSymbol _) => apply keeps_addSymbol
  | |- keeps (dateNow _) => apply keeps_dateNow
  | H : keeps ?m |- keeps ?m => exact H
  | |- keeps (if ?b then _ else _) => destruct b
  | |- keeps (match ?x with _ => _ end) => destruct x
  end.

Lemma expr_keeps e : keeps (analyzeExpression e).
Proof.
  induction e using node_ind; cbn [analyzeExpression]; a1_auto.
  match goal with H : list_all _ _ _ |- _ => rename H into HA end.
  generalize 0%nat, (fi_parameters f). induction HA as [|x xr Hx HA IH]; intros i ps; [a1_auto|].
  destruct ps as [|p pr]; cbn; a1_auto.
  apply IH.
Qed.

Lemma weak_set_scope c : weak (modify (set_scope c)).
Proof. intros s a s' E. injection E as _ <-. grow0. Qed.

Lemma keeps_scoped (body : string -> Z -> M unit) :
  (forall o d, ends o (body o d)) ->
  keeps (bind (gets currentScope) (fun o => bind (dateNow now) (fun d => body o d))).
Proof.
  intros H s a s' E. unfold bind, gets, dateNow in E.
  destruct (H _ _ _ _ _ E) as [G C]. split; [exact G | exact C].
Qed.

Lemma declarator_keeps vt v : keeps (analyzeDeclarator vt v).
Proof.
  unfold analyzeDeclarator. destruct v; a1_auto; apply expr_keeps.
Qed.

Lemma m_iter_keeps {A} (f : A -> M unit) l : (forall x, keeps (f x)) -> keeps (m_iter f l).
Proof. intro H. induction l as [|x l IH]; cbn [m_iter]; a1_auto. apply H. Qed.

Lemma declaration_keeps vt vs : keeps (analyzeDeclaration vt vs).
Proof. apply m_iter_keeps. intro. apply declarator_keeps. Qed.

Lemma return_keeps nd e : keeps (analyzeReturnStatement nd e).
Proof. unfold analyzeReturnStatement. a1_auto; apply expr_keeps. Qed.

Ltac a1_auto2 :=
  repeat (a1_auto; try apply expr_keeps; try apply declaration_keeps; try apply return_keeps).

Ltac ends_auto :=
  repeat match goal with
  | |- ends _ (bind (modify (set_scope _)) _) => apply ends_bind; [apply weak_set_scope | intro]
  | |- ends _ (bind _ _) => apply ends_bind; [apply keeps_weak; a1_auto2 | intro]
  | |- ends ?c (modify (set_scope ?c)) => apply ends_set_scope
  end.

Lemma stmt_keeps st : keeps (analyzeStatement now st).
Proof.
  induction st using node_ind; cbn [analyzeStatement]; try (a1_auto2; fail).
  - (* CompoundStatement *)
    apply keeps_scoped. intros o d.
    apply ends_bind; [apply weak_set_scope | intros _].
    apply ends_bind; [| intros _; apply ends_set_scope].
    apply keeps_weak.
    match goal with H : list_all _ _ _ |- _ => rename H into HA end.
    induction HA; a1_auto.
  - (* ForStatement *)
    apply keeps_scoped. intros o d. ends_auto.
Qed.

End Inv.
End A1Facts.
(** X8: when [analyzeStatement] completes, the current scope is the one
    it started in (the block and for-loop scopes it enters are left again),
    and the diagnostics list has only grown: earlier errors are kept, in
    order, and new ones are appended. *)
Theorem analyzeStatement_restores_scope (now : nat -> Z) (st : node) (s s' : Analyzer1.st) :
  Analyzer1.analyzeStatement now st s = Some (tt, s') ->
  Analyzer1.currentScope s' = Analyzer1.currentScope s /\
  exists l, Analyzer1.errors s' = Analyzer1.errors s ++ l.
Proof.
  intros E. destruct (A1Facts.stmt_keeps now st s tt s' E) as [G C]. split; [exact C | exact G].
Qed.


Lemma analyzeStatement_restores_scope_witness :
  match Analyzer1.analyzeStatement ticking_clock for_block_prog Analyzer1.init with
  | Some (_, s') => Analyzer1.currentScope s' = "global" /\
                    exists l, Analyzer1.errors s' = Analyzer1.errors Analyzer1.init ++ l
  | None => False
  end.
Proof.
  destruct (Analyzer1.analyzeStatement ticking_clock for_block_prog Analyzer1.init) as [[[] s']|] eqn:E;
    [| vm_compute in E; discriminate].
  exact (analyzeStatement_restores_scope ticking_clock for_block_prog Analyzer1.init s' E).
Defined.

(** X9: [findSymbol] looks in the current scope, then in the global one:
    a symbol it finds is the entry at the returned position of the
    current or the global scope, and carries the name looked up. *)
Theorem findSymbol_current_or_global (nm : jsval) (s : Analyzer1.st) c i si :
  Analyzer1.findSymbol nm s = Some (c, i, si) ->
  (c = Analyzer1.currentScope s \/ c = "global") /\
  exists l, str_map_get (Analyzer1.symbolTable s) c = Some l /\ nth_error l i = Some si /\
            jsv_eqb (Analyzer1.si_name si) nm = true.
Proof.
  assert (Hf : forall (l : list Analyzer1.SymbolInfo) i si,
            Analyzer1.find_index (fun si => jsv_eqb (Analyzer1.si_name si) nm) l = Some (i, si) ->
            nth_error l i = Some si /\ jsv_eqb (Analyzer1.si_name si) nm = true).
  { induction l as [|x l IH]; intros j y E; [discriminate|]. cbn in E.
    destruct (jsv_eqb (Analyzer1.si_name x) nm) eqn:Ex.
    - injection E as <- <-. split; [reflexivity | exact Ex].
    - destruct (Analyzer1.find_index _ l) as [[k z]|] eqn:E2; [|discriminate].
      cbn in E. injection E as <- <-. exact (IH k z eq_refl). }
  unfold Analyzer1.findSymbol. intros E.
  destruct (str_map_get (Analyzer1.symbolTable s) (Analyzer1.currentScope s)) as [l|] eqn:El.
  - destruct (Analyzer1.find_index _ l) as [[k z]|] eqn:Ef.
    + cbn in E. injection E as <- <- <-. split; [left; reflexivity|]. exists l. split; [exact El|]. exact (Hf l k z Ef).
    + cbn in E. destruct (negb _); [|discriminate].
      destruct (str_map_get (Analyzer1.symbolTable s) "global") as [g|] eqn:Eg; [|discriminate].
      destruct (Analyzer1.find_index _ g) as [[k z]|] eqn:Ef2; [|discriminate].
      cbn in E. injection E as <- <- <-. split; [right; reflexivity|]. exists g. split; [exact Eg|]. exact (Hf g k z Ef2).
  - destruct (negb _); [|discriminate].
    destruct (str_map_get (Analyzer1.symbolTable s) "global") as [g|] eqn:Eg; [|discriminate].
    destruct (Analyzer1.find_index _ g) as [[k z]|] eqn:Ef2; [|discriminate].
    cbn in E. injection E as <- <- <-. split; [right; reflexivity|]. exists g. split; [exact Eg|]. exact (Hf g k z Ef2).
Qed.

(** X10: [hasReturnStatement] counts an [if] as returning only when it has
    both branches and both return. *)
Theorem hasReturnStmt_if_needs_both (c th el : node) :
  Analyzer1.hasReturnStmt (IfStatement c th el) = Some true ->
  node_truthy th = true /\ Analyzer1.hasReturnStmt th = Some true /\
  node_truthy el = true /\ Analyzer1.hasReturnStmt el = Some true.
Proof.
  cbn [Analyzer1.hasReturnStmt].
  destruct (node_truthy th), (node_truthy el); cbn;
  destruct (Analyzer1.hasReturnStmt th) as [[]|], (Analyzer1.hasReturnStmt el) as [[]|];
  cbn; intro E; try discriminate; auto.
Qed.

Lemma findSymbol_current_or_global_witness :
  let si := Analyzer1.mkSI "x" "int" "global" true in
  let s := Analyzer1.mkSt [("global", [si])] [] "block_1" [] 0 in
  ("global" = Analyzer1.currentScope s \/ "global" = "global") /\
  exists l, str_map_get (Analyzer1.symbolTable s) "global" = Some l /\ nth_error l 0 = Some si /\
            jsv_eqb (Analyzer1.si_name si) (JStr "x") = true.
Proof.
  intros si s. apply (findSymbol_current_or_global (JStr "x") s "global" 0 si). vm_compute. reflexivity.
Defined.

Lemma hasReturnStmt_if_needs_both_witness :
  let th := ReturnStatement (Literal "1") in
  let el := ReturnStatement (Literal "0") in
  node_truthy th = true /\ Analyzer1.hasReturnStmt th = Some true /\
  node_truthy el = true /\ Analyzer1.hasReturnStmt el = Some true.
Proof.
  intros th el. apply (hasReturnStmt_if_needs_both (Identifier "c") th el). vm_compute. reflexivity.
Defined.

(* ------------------------------------------------------------------ *)
(** ** Parser *)

Lemma programLoop_no_functions tokens n : forall body c,
  forallb (fun t => negb (isTypeSpecifier t)) tokens = true ->
  (length tokens - c < n)%nat ->
  programLoop tokens n body c =
  Done (rev body ++ preprocessor_lines (skipn c tokens)) (Nat.max c (length tokens)).
Proof.
  induction n as [|n IH]; intros body c Hts Hn; [lia|].
  cbn [programLoop]. unfold p_bind at 1, cur_tok.
  destruct (nth_error tokens c) as [t|] eqn:Et.
  - assert (Hc : (c < length tokens)%nat) by (apply nth_error_Some; congruence).
    assert (Hs : skipn c tokens = t :: skipn (S c) tokens).
    { clear -Et. revert c Et. induction tokens as [|x r IHr]; intros c Et; [destruct c; discriminate|].
      destruct c as [|c]; cbn in Et |- *; [injection Et as ->; reflexivity | apply IHr; exact Et]. }
    assert (Ht : isTypeSpecifier t = false).
    { apply nth_error_In in Et. rewrite forallb_forall in Hts. apply Hts in Et. destruct (isTypeSpecifier t); auto. }
    rewrite Hs. unfold preprocessor_lines. cbn [filter].
    destruct (typ t "COMMENT") eqn:Ec.
    + assert (Hp : typ t "PREPROCESSOR" = false).
      { unfold typ in *. apply String.eqb_eq in Ec. unfold str_eqb. rewrite Ec. reflexivity. }
      rewrite Hp. unfold p_bind, advance. rewrite IH by (auto; lia).
      f_equal; lia.
    + destruct (typ t "PREPROCESSOR") eqn:Ep.
      * unfold p_bind, advance. rewrite IH by (auto; lia). cbn [rev]. rewrite <- app_assoc. cbn [app map].
        f_equal; lia.
      * rewrite Ht. unfold p_bind, advance. rewrite IH by (auto; lia). f_equal; lia.
  - apply nth_error_None in Et. rewrite skipn_all2 by exact Et. cbn. rewrite app_nil_r.
    unfold p_ret. f_equal. lia.
Qed.

(** X11: on a token list with no type-specifier token (so no function can
    start), [parseProgram] reads every token and the program holds just the
    preprocessor directives, trimmed and in order; every other token is
    skipped. *)
Theorem parse_without_functions tokens n :
  forallb (fun t => negb (isTypeSpecifier t)) tokens = true ->
  (length tokens < n)%nat ->
  parse tokens n = Done (Program_ (preprocessor_lines tokens)) (length tokens).
Proof.
  intros Hts Hn. unfold parse, p_bind. rewrite programLoop_no_functions by (auto; lia).
  reflexivity.
Qed.

Lemma parse_without_functions_witness :
  parse [mkTok "PREPROCESSOR" " #include <stdio.h> "; mkTok "IDENTIFIER" "x"; mkTok "SEPARATOR" ";"] 4
  = Done (Program_ [PreprocessorDirective "#include <stdio.h>"]) 3.
Proof.
  apply (parse_without_functions
           [mkTok "PREPROCESSOR" " #include <stdio.h> "; mkTok "IDENTIFIER" "x"; mkTok "SEPARATOR" ";"] 4);
    [vm_compute; reflexivity | cbn; lia].
Defined.

(* ------------------------------------------------------------------ *)
(** ** Three-address code generation *)

Lemma ir_grows_ret {A} (a : A) : ir_grows (ir_ret a).
Proof. intro s. exists []. rewrite app_nil_r. reflexivity. Qed.

Lemma ir_grows_bind {A B} (m : IR A) (k : A -> IR B) :
  ir_grows m -> (forall a, ir_grows (k a)) -> ir_grows (ir_bind m k).
Proof.
  intros Hm Hk s. unfold ir_bind. destruct (m s) as [a s1] eqn:E.
  destruct (Hm s) as [l1 E1]. rewrite E in E1. cbn in E1.
  destruct (Hk a s1) as [l2 E2]. exists (l1 ++ l2). rewrite E2, E1, app_assoc. reflexivity.
Qed.

Lemma ir_grows_emit o a1 a2 r : ir_grows (emitInstruction o a1 a2 r).
Proof. intro s. eexists. reflexivity. Qed.
Lemma ir_grows_newTemp : ir_grows newTemp.
Proof. intro s. exists []. rewrite app_nil_r. reflexivity. Qed.
Lemma ir_grows_newLabel : ir_grows newLabel.
Proof. intro s. exists []. rewrite app_nil_r. reflexivity. Qed.
Lemma ir_grows_iter {A} (f : A -> IR unit) l : (forall x, ir_grows (f x)) -> ir_grows (ir_iter f l).
Proof.
  intro H. induction l as [|x l IH]; cbn [ir_iter]; [apply ir_grows_ret|].
  apply ir_grows_bind; [apply H | intros _; exact IH].
Qed.

Ltac grows_auto :=
  repeat match goal with
  | |- ir_grows (ir_bind _ _) => apply ir_grows_bind; [| intro]
  | |- ir_grows (ir_ret _) => apply ir_grows_ret
  | |- ir_grows (emitInstruction _ _ _ _) => apply ir_grows_emit
  | |- ir_grows newTemp => apply ir_grows_newTemp
  | |- ir_grows newLabel => apply ir_grows_newLabel
  | |- ir_grows (ir_iter _ _) => apply ir_grows_iter; intro
  | H : ir_grows ?m |- ir_grows ?m => exact H
  | |- ir_grows (if ?b then _ else _) => destruct b
  | |- ir_grows (match ?x with _ => _ end) => destruct x
  end.

Lemma generateExpression_grows e : ir_grows (generateExpression e).
Proof.
  induction e using node_ind; cbn [generateExpression]; grows_auto.
  match goal with H : list_all _ _ _ |- _ => induction H end; grows_auto.
Qed.

Lemma ir_bind_eq {A B} (m : IR A) (k : A -> IR B) s :
  ir_bind m k s = let (a, s') := m s in k a s'.
Proof. reflexivity. Qed.

Lemma call_args_temps (args : list node) : forall s,
  length (fst ((fix go (l : list node) : IR (list jsval) :=
                  match l with
                  | [] => ir_ret []
                  | a :: r => t <- generateExpression a ;; ts <- go r ;; ir_ret (t :: ts)
                  end) args s)) = length args.
Proof.
  induction args as [|a r IH]; intro s; [reflexivity|].
  rewrite ir_bind_eq. destruct (generateExpression a s) as [t s1].
  specialize (IH s1). rewrite ir_bind_eq.
  match goal with |- context [match ?X with pair _ _ => _ end] => destruct X as [ts s2] end.
  cbn in IH |- *. f_equal. exact IH.
Qed.

Lemma ir_iter_param_code temps : forall s,
  code (snd (ir_iter (fun a => emitInstruction "PARAM" a JNull JNull) temps s)) =
  code s ++ map (fun t => instr "PARAM" t JNull JNull) temps.
Proof.
  induction temps as [|t r IH]; intro s; cbn [ir_iter map]; [cbn; rewrite app_nil_r; reflexivity|].
  unfold ir_bind at 1. cbn [emitInstruction]. rewrite IH. cbn [code]. rewrite <- app_assoc. reflexivity.
Qed.

(** X12: when the source generator does not throw on it, the code
    [generateExpression] adds for a call [f(a1, ..., an)] only appends to
    the code so far, and ends with exactly [n] [PARAM] instructions followed
    by [CALL f, n], with [n] the number of arguments in decimal; the call is
    the last instruction added. *)
Theorem generateExpression_call_code (f : string) (args : list node) (s : irst) :
  genExpr_completes (FunctionCall f args) = true ->
  exists pre temps r,
    code (snd (generateExpression (FunctionCall f args) s)) =
      code s ++ pre ++ map (fun t => instr "PARAM" t JNull JNull) temps ++
      [instr "CALL" f (string_of_nat (length args)) r] /\
    length temps = length args.
Proof.
  intros _. cbn [generateExpression]. rewrite ir_bind_eq.
  pose proof (call_args_temps args s) as HL.
  assert (HG : exists l, code (snd ((fix go (l : list node) : IR (list jsval) :=
                  match l with
                  | [] => ir_ret []
                  | a :: r => t <- generateExpression a ;; ts <- go r ;; ir_ret (t :: ts)
                  end) args s)) = code s ++ l).
  { clear HL. revert s. induction args as [|a r IH]; [apply ir_grows_ret|].
    apply ir_grows_bind; [apply generateExpression_grows | intro t].
    apply ir_grows_bind; [exact IH | intro; apply ir_grows_ret]. }
  revert HL HG.
  match goal with |- context [match ?X with pair _ _ => _ end] => destruct X as [temps s1] end.
  cbn [fst snd]. intros HL [pre Hpre].
  rewrite ir_bind_eq. cbn [newTemp]. rewrite ir_bind_eq.
  match goal with |- context [ir_iter ?g temps ?s2] => pose proof (ir_iter_param_code temps s2) as HP;
    destruct (ir_iter g temps s2) as [u s3] end.
  cbn [snd] in HP. rewrite ir_bind_eq. cbn [emitInstruction ir_ret snd code]. rewrite HP. cbn [code]. rewrite Hpre.
  exists pre, temps, (JStr ("t" ++ string_of_nat (S (tempCnt s1)))). split; [|exact HL].
  rewrite HL. rewrite <- !app_assoc. reflexivity.
Qed.
Lemma generateExpression_call_code_witness :
  exists pre temps r,
    code (snd (generateExpression (FunctionCall "add" [Identifier "x"; Literal "1"]) (mkIrst 0 0 []))) =
      code (mkIrst 0 0 []) ++ pre ++ map (fun t => instr "PARAM" t JNull JNull) temps ++
      [instr "CALL" "add" (string_of_nat (length [Identifier "x"; Literal "1"])) r] /\
    length temps = length [Identifier "x"; Literal "1"].
Proof.
  exact (generateExpression_call_code "add" [Identifier "x"; Literal "1"] (mkIrst 0 0 []) eq_refl).
Defined.



Lemma smap_set_keys {V} (m : list (string * V)) k v :
  forall x, In x (map fst (smap_set m k v)) <-> In x (map fst m) \/ x = k.
Proof.
  induction m as [|[k' v'] m IH]; intro x; cbn [smap_set].
  - cbn. intuition.
  - destruct (str_eqb k k') eqn:E.
    + unfold str_eqb in E. apply String.eqb_eq in E. subst k'. cbn. intuition.
    + cbn. rewrite IH. intuition.
Qed.

Lemma smap_set_nodup {V} (m : list (string * V)) k v :
  NoDup (map fst m) -> NoDup (map fst (smap_set m k v)).
Proof.
  induction m as [|[k' v'] m IH]; intro H; cbn [smap_set].
  - constructor; [intros [] | constructor].
  - inversion H as [|? ? Hn Hd]; subst. destruct (str_eqb k k') eqn:E.
    + exact H.
    + cbn. constructor; [| exact (IH Hd)]. rewrite smap_set_keys. intros [Hin | ->]; [exact (Hn Hin)|].
      unfold str_eqb in E. rewrite String.eqb_refl in E. discriminate.
Qed.

Lemma smap_set_names (m : list (string * TACFunction)) k f :
  Forall key_named m -> name f = k -> Forall key_named (smap_set m k f).
Proof.
  induction m as [|[k' v'] m IH]; intros H Hf; cbn [smap_set].
  - constructor; [exact Hf | constructor].
  - apply Forall_cons_iff in H as [H1 H2]. destruct (str_eqb k k') eqn:E.
    + unfold str_eqb in E. apply String.eqb_eq in E. subst k'. constructor; [exact Hf | exact H2].
    + constructor; [exact H1 | exact (IH H2 Hf)].
Qed.

Lemma generate_fold (body : list node) : forall lc fs,
  NoDup (map fst fs) -> Forall key_named fs ->
  let fs' := snd (fold_left (fun '(lc, fs) n =>
                        match n with
                        | FunctionDeclaration _ _ _ _ => generateFunction lc fs n
                        | _ => (lc, fs)
                        end) body (lc, fs)) in
  NoDup (map fst fs') /\ Forall key_named fs' /\
  forall x, In x (map fst fs') <-> In x (map fst fs) \/ In (Some x) (map declared_name body).
Proof.
  induction body as [|n body IH]; intros lc fs Hnd Hnm; cbn [fold_left].
  - split; [exact Hnd|]. split; [exact Hnm|]. intro x. cbn. intuition.
  - destruct n; cbn [declared_name map];
      try (destruct (IH lc fs Hnd Hnm) as (A & B & C); split; [exact A|]; split; [exact B|];
           intro x; rewrite C; cbn; intuition congruence).
    cbn [generateFunction].
    match goal with |- context [let (_, s) := ?X in _] => destruct X as [u s] end.
    destruct (IH (labelCounter s) (smap_set fs fname (mkFunc fname (map node_paramName parameters) (code s) (tempCnt s))))
      as (A & B & C).
    + apply smap_set_nodup, Hnd.
    + apply smap_set_names; [exact Hnm | reflexivity].
    + split; [exact A|]. split; [exact B|]. intro x. rewrite C, smap_set_keys. cbn. intuition congruence.
Qed.

(** X13: when the source generator does not throw on the program, the
    function map [generate] builds has exactly one entry for each function
    name declared at the top level of the program and no other entry, and
    each function is stored under its own name. *)
Theorem generate_function_keys (body : list node) :
  generate_completes (Program_ body) = true ->
  let fs := generate (Program_ body) in
  NoDup (map fst fs) /\
  (forall k f, In (k, f) fs -> name f = k) /\
  (forall x, In x (map fst fs) <-> exists rt ps b, In (FunctionDeclaration rt x ps b) body).
Proof.
  intros _. cbn zeta. unfold generate.
  destruct (generate_fold body 0 [] (NoDup_nil _) (Forall_nil _)) as (A & B & C).
  split; [exact A|]. split.
  - intros k f Hin. rewrite Forall_forall in B. exact (B (k, f) Hin).
  - intro x. rewrite C. cbn. split.
    + intros [[] | H]. apply in_map_iff in H as (n & E & Hn).
      destruct n; cbn in E; try discriminate. injection E as ->. eauto.
    + intros (rt & ps & b & H). right. apply in_map_iff. exists (FunctionDeclaration rt x ps b). auto.
Qed.
Lemma generate_function_keys_witness :
  let fs := generate (Program_ [FunctionDeclaration "int" "main" []
                                  (CompoundStatement [ReturnStatement (Literal "0")])]) in
  NoDup (map fst fs) /\
  (forall k f, In (k, f) fs -> name f = k) /\
  (forall x, In x (map fst fs) <-> exists rt ps b,
     In (FunctionDeclaration rt x ps b)
        [FunctionDeclaration "int" "main" [] (CompoundStatement [ReturnStatement (Literal "0")])]).
Proof.
  exact (generate_function_keys
           [FunctionDeclaration "int" "main" [] (CompoundStatement [ReturnStatement (Literal "0")])] eq_refl).
Defined.


(* ------------------------------------------------------------------ *)
(** ** Labels of the generated code *)

Lemma Lname_inj a b : Lname a = Lname b -> a = b.
Proof.
  intro E. injection E as E. apply (f_equal (fun s => parseInt (JStr s))) in E.
  rewrite !parseInt_string_of_nat in E. injection E. lia.
Qed.

Lemma rng_widen lo hi lo' hi' l : (lo' <= lo)%nat -> (hi <= hi')%nat -> rng lo hi l -> rng lo' hi' l.
Proof.
  intros H1 H2 H. unfold rng in *. eapply Forall_impl; [|exact H].
  intros x (k & -> & Hk). exists k. split; [reflexivity | lia].
Qed.

Lemma rng_app lo mid hi a b : (lo <= mid)%nat -> (mid <= hi)%nat -> rng lo mid a -> rng mid hi b -> rng lo hi (a ++ b).
Proof.
  intros H1 H2 Ha Hb. apply Forall_app. split; [eapply rng_widen; [| |exact Ha] | eapply rng_widen; [| |exact Hb]]; lia.
Qed.

Lemma nodup_rng lo mid hi a b :
  NoDup a -> rng lo mid a -> NoDup b -> rng mid hi b -> NoDup (a ++ b).
Proof.
  intros Na Ra Nb Rb. induction a as [|x a IH]; [exact Nb|].
  inversion Na as [|? ? Hx Na']; subst. apply Forall_cons_iff in Ra as [(k & -> & Hk) Ra].
  cbn. constructor; [| exact (IH Na' Ra)].
  intro Hin. apply in_app_or in Hin as [Hin | Hin]; [exact (Hx Hin)|].
  unfold rng in Rb. rewrite Forall_forall in Rb. destruct (Rb _ Hin) as (k' & E & Hk').
  apply Lname_inj in E. lia.
Qed.

Lemma loop_labels_app a b : loop_labels (a ++ b) = loop_labels a ++ loop_labels b.
Proof. unfold loop_labels. rewrite filter_app, map_app. reflexivity. Qed.

Lemma nolab_ret {A} (a : A) : nolab (ir_ret a).
Proof. intro s. split; [reflexivity|]. exists []. rewrite app_nil_r. split; reflexivity. Qed.

Lemma nolab_bind {A B} (m : IR A) (k : A -> IR B) :
  nolab m -> (forall a, nolab (k a)) -> nolab (ir_bind m k).
Proof.
  intros Hm Hk s. rewrite ir_bind_eq. pose proof (Hm s) as [C1 (l1 & E1 & L1)].
  destruct (m s) as [a s1]. cbn [snd] in *. destruct (Hk a s1) as [C2 (l2 & E2 & L2)].
  split; [congruence|]. exists (l1 ++ l2). rewrite E2, E1, app_assoc, loop_labels_app, L1, L2. split; reflexivity.
Qed.

Lemma nolab_newTemp : nolab newTemp.
Proof. intro s. split; [reflexivity|]. exists []. rewrite app_nil_r. split; reflexivity. Qed.

Lemma nolab_emit o a1 a2 r :
  (str_eqb o "LABEL" && match r with JStr x => starts_with "L" x | _ => false end) = false ->
  nolab (emitInstruction o a1 a2 r).
Proof.
  intros H s. split; [reflexivity|]. eexists. split; [reflexivity|].
  unfold loop_labels, is_loop_label. cbn [filter instr op result]. rewrite H. reflexivity.
Qed.

Lemma nolab_iter {A} (f : A -> IR unit) l : (forall x, nolab (f x)) -> nolab (ir_iter f l).
Proof.
  intro H. induction l as [|x l IH]; cbn [ir_iter]; [apply nolab_ret|].
  apply nolab_bind; [apply H | intros _; exact IH].
Qed.

Lemma nolab_bind_newTemp {B} (k : jsval -> IR B) :
  (forall n, nolab (k (JStr ("t" ++ string_of_nat n)))) -> nolab (ir_bind newTemp k).
Proof. intros H s. rewrite ir_bind_eq. cbn [newTemp]. apply (H _ (mkIrst (labelCounter s) (S (tempCnt s)) (code s))). Qed.

Ltac nolab_auto :=
  repeat match goal with
  | |- nolab (ir_bind newTemp _) => apply nolab_bind_newTemp; intro
  | |- nolab (ir_bind _ _) => apply nolab_bind; [| intro]
  | |- nolab (ir_ret _) => apply nolab_ret
  | |- nolab newTemp => apply nolab_newTemp
  | |- nolab (ir_iter _ _) => apply nolab_iter; intro
  | |- nolab (emitInstruction _ _ _ _) => apply nolab_emit; cbn; rewrite ?andb_false_r; reflexivity
  | H : nolab ?m |- nolab ?m => exact H
  | |- nolab (if ?b then _ else _) => destruct b
  | |- nolab (match ?x with _ => _ end) => destruct x
  end.

Lemma generateExpression_nolab e : nolab (generateExpression e).
Proof.
  induction e using node_ind; cbn [generateExpression]; nolab_auto.
  match goal with H : list_all _ _ _ |- _ => induction H end; nolab_auto.
Qed.

Ltac nolab_auto2 := repeat (nolab_auto; try apply generateExpression_nolab).

Lemma nolab_lab {A} (m : IR A) : nolab m -> lab_spec m.
Proof.
  intros H s. destruct (H s) as [C (l & E & L)]. split; [lia|]. exists l. rewrite L.
  split; [exact E | split; constructor].
Qed.

Lemma lab_bind {A B} (m : IR A) (k : A -> IR B) :
  lab_spec m -> (forall a, lab_spec (k a)) -> lab_spec (ir_bind m k).
Proof.
  intros Hm Hk s. rewrite ir_bind_eq. pose proof (Hm s) as [C1 (l1 & E1 & N1 & R1)].
  destruct (m s) as [a s1]. cbn [snd] in *. destruct (Hk a s1) as [C2 (l2 & E2 & N2 & R2)].
  split; [lia|]. exists (l1 ++ l2). rewrite E2, E1, app_assoc, loop_labels_app.
  split; [reflexivity|]. split; [exact (nodup_rng _ _ _ _ _ N1 R1 N2 R2) | exact (rng_app _ _ _ _ _ C1 C2 R1 R2)].
Qed.

Lemma lab_ret {A} (a : A) : lab_spec (ir_ret a).
Proof. apply nolab_lab, nolab_ret. Qed.

Lemma loop_labels_other o a1 a2 r :
  str_eqb o "LABEL" = false -> loop_labels [instr o a1 a2 r] = [].
Proof. intro H. unfold loop_labels, is_loop_label. cbn [filter instr op]. rewrite H. reflexivity. Qed.

Lemma loop_labels_L k :
  loop_labels [instr "LABEL" JNull JNull (JStr ("L" ++ string_of_nat k))] = [Lname k].
Proof. reflexivity. Qed.

Lemma rng_single lo k hi : (lo < k <= hi)%nat -> rng lo hi [Lname k].
Proof. intro H. constructor; [exists k; split; [reflexivity | lia] | constructor]. Qed.

Lemma nodup_single (x : jsval) : NoDup [x].
Proof. constructor; [intros [] | constructor]. Qed.

Lemma if_labels lc lt lel lc3 lc4 :
  NoDup lt -> rng (S (S lc)) lc3 lt -> NoDup lel -> rng lc3 lc4 lel -> (S (S lc) <= lc3 <= lc4)%nat ->
  NoDup (lt ++ [Lname (S lc)] ++ lel ++ [Lname (S (S lc))]) /\
  rng lc lc4 (lt ++ [Lname (S lc)] ++ lel ++ [Lname (S (S lc))]).
Proof.
  intros Nt Rt Ne Re H.
  assert (P : Permutation ([Lname (S lc)] ++ [Lname (S (S lc))] ++ lt ++ lel)
                          (lt ++ [Lname (S lc)] ++ lel ++ [Lname (S (S lc))])).
  { cbn [app]. apply Permutation_cons_app. rewrite app_assoc. apply Permutation_cons_append. }
  split.
  - eapply Permutation_NoDup; [exact P|].
    apply (nodup_rng lc (S lc) lc4); [apply nodup_single | apply rng_single; lia | |].
    + apply (nodup_rng (S lc) (S (S lc)) lc4); [apply nodup_single | apply rng_single; lia | |].
      * apply (nodup_rng (S (S lc)) lc3 lc4); assumption.
      * apply (rng_app _ lc3); [lia | lia | exact Rt | exact Re].
    + apply (rng_app _ (S (S lc))); [lia | lia | apply rng_single; lia |].
      apply (rng_app _ lc3); [lia | lia | exact Rt | exact Re].
  - unfold rng. apply Forall_app. split; [eapply rng_widen; [| | exact Rt]; lia|].
    apply Forall_app. split; [apply rng_single; lia|].
    apply Forall_app. split; [eapply rng_widen; [| | exact Re]; lia | apply rng_single; lia].
Qed.

Lemma for_labels lc li lb lc5 lc6 :
  NoDup li -> rng (S (S (S (S lc)))) lc5 li -> NoDup lb -> rng lc5 lc6 lb ->
  (S (S (S (S lc))) <= lc5 <= lc6)%nat ->
  NoDup (li ++ [Lname (S lc)] ++ lb ++ [Lname (S (S (S lc)))] ++ [Lname (S (S (S (S lc))))]) /\
  rng lc lc6 (li ++ [Lname (S lc)] ++ lb ++ [Lname (S (S (S lc)))] ++ [Lname (S (S (S (S lc))))]).
Proof.
  intros Ni Ri Nb Rb H.
  assert (P : Permutation ([Lname (S lc)] ++ [Lname (S (S (S lc)))] ++ [Lname (S (S (S (S lc))))] ++ li ++ lb)
                (li ++ [Lname (S lc)] ++ lb ++ [Lname (S (S (S lc)))] ++ [Lname (S (S (S (S lc))))])).
  { cbn [app]. apply Permutation_cons_app. rewrite app_assoc.
    apply (Permutation_app_comm [Lname (S (S (S lc))); Lname (S (S (S (S lc))))] (li ++ lb)). }
  assert (Rib : rng (S (S (S (S lc)))) lc6 (li ++ lb)) by (apply (rng_app _ lc5); [lia | lia | exact Ri | exact Rb]).
  split.
  - eapply Permutation_NoDup; [exact P|].
    apply (nodup_rng lc (S lc) lc6); [apply nodup_single | apply rng_single; lia | |].
    + apply (nodup_rng (S lc) (S (S (S lc))) lc6); [apply nodup_single | apply rng_single; lia | |].
      * apply (nodup_rng (S (S (S lc))) (S (S (S (S lc)))) lc6); [apply nodup_single | apply rng_single; lia | |].
        -- apply (nodup_rng (S (S (S (S lc)))) lc5 lc6); assumption.
        -- exact Rib.
      * apply (rng_app _ (S (S (S (S lc))))); [lia | lia | apply rng_single; lia | exact Rib].
    + apply (rng_app _ (S (S (S lc)))); [lia | lia | apply rng_single; lia |].
      apply (rng_app _ (S (S (S (S lc))))); [lia | lia | apply rng_single; lia | exact Rib].
  - unfold rng. repeat (apply Forall_app; split); try (apply rng_single; lia).
    + eapply rng_widen; [| | exact Ri]; lia.
    + eapply rng_widen; [| | exact Rb]; lia.
Qed.

(** Run one step [x <- m ;; k] of a computation whose effect is known. *)
Ltac lab_step :=
  rewrite ir_bind_eq;
  lazymatch goal with
  | |- context [match newLabel ?st with pair _ _ => _ end] => cbn [newLabel]
  | |- context [match emitInstruction ?o ?a ?b ?r ?st with pair _ _ => _ end] => cbn [emitInstruction]
  | |- context [match generateExpression ?e ?st with pair _ _ => _ end] =>
      let C := fresh "C" in let l := fresh "l" in let E := fresh "E" in let L := fresh "L" in
      destruct (generateExpression_nolab e st) as [C (l & E & L)];
      destruct (generateExpression e st); cbn [snd] in C, E
  | |- context [match ?m ?st with pair _ _ => _ end] =>
      let H := fresh "H" in
      assert (H : lab_ext st (snd (m st)));
      [| destruct (m st); cbn [snd] in H]
  end.

Lemma generateStatement_labels st : lab_spec (generateStatement st).
Proof.
  induction st using node_ind; cbn [generateStatement]; try apply lab_ret.
  - match goal with H : list_all _ _ _ |- _ => induction H end; [apply lab_ret|].
    apply lab_bind; [assumption | intros _; assumption].
  - apply nolab_lab. nolab_auto2.
  - apply nolab_lab. nolab_auto2.
  - apply nolab_lab. nolab_auto2.
  - intro s. do 4 lab_step. lab_step; [apply IHst2 |].
    do 2 lab_step. lab_step; [destruct (node_truthy st3); [apply IHst3 | apply lab_ret] |].
    cbn [emitInstruction snd newLabel labelCounter tempCnt code] in *.
    destruct H as [Ct (lt & Et & Nt & Rt)], H0 as [Ce (le & Ee & Ne & Re)].
    cbn [labelCounter tempCnt code] in *. rewrite C in *.
    unfold lab_ext; cbn [labelCounter code]. split; [lia|]. eexists. split; [rewrite Ee, Et, E, <- !app_assoc; reflexivity|].
    rewrite !loop_labels_app, L, !loop_labels_L, !loop_labels_other by reflexivity.
    rewrite !app_nil_l. apply (if_labels _ _ _ (labelCounter i0)); auto; lia.
  - assert (HI : nolab (if node_truthy st3 then ir_bind (generateExpression st3) (fun _ => ir_ret tt) else ir_ret tt))
      by (destruct (node_truthy st3); nolab_auto2).
    intro s. do 4 lab_step. lab_step; [destruct (node_truthy st1); [apply IHst1 | apply lab_ret] |].
    do 3 lab_step. lab_step; [apply IHst4 |]. lab_step.
    rewrite ir_bind_eq.
    match goal with |- context [match ?m ?st with pair _ _ => _ end] =>
      destruct (HI st) as [Ci (li & Ei & Li)]; destruct (m st); cbn [snd] in Ci, Ei end.
    lab_step.
    cbn [emitInstruction snd newLabel labelCounter tempCnt code] in *.
    destruct H as [Ct (lt & Et & Nt & Rt)], H0 as [Cb (lb & Eb & Nb & Rb)].
    cbn [labelCounter tempCnt code] in *.
    unfold lab_ext; cbn [labelCounter code]. split; [lia|].
    eexists. split; [rewrite Ei, Eb, E, Et, <- !app_assoc; reflexivity|].
    rewrite !loop_labels_app, L, Li, !loop_labels_L, !loop_labels_other by reflexivity.
    rewrite !app_nil_l, ?app_nil_r, Ci. rewrite C in Rb.
    apply (for_labels _ _ _ (labelCounter i)); auto; lia.
Qed.

Lemma smap_set_labels fs k v : exists extra,
  Permutation (all_loop_labels (smap_set fs k v) ++ extra)
              (all_loop_labels fs ++ loop_labels (instructions v)).
Proof.
  induction fs as [|[k' v'] r IH]; cbn [smap_set].
  - exists []. unfold all_loop_labels. cbn. rewrite !app_nil_r. reflexivity.
  - destruct (str_eqb k k').
    + exists (loop_labels (instructions v')). unfold all_loop_labels. cbn [map concat snd].
      rewrite <- !app_assoc. etransitivity; [apply Permutation_app_rot | apply Permutation_app_swap_app].
    + destruct IH as [e P]. exists e. unfold all_loop_labels in *. cbn [map concat snd].
      rewrite <- !app_assoc. apply Permutation_app_head. exact P.
Qed.

Lemma generate_labels_fold (body : list node) : forall lc fs,
  NoDup (all_loop_labels fs) -> rng 0 lc (all_loop_labels fs) ->
  let r := fold_left (fun '(lc, fs) n =>
                        match n with
                        | FunctionDeclaration _ _ _ _ => generateFunction lc fs n
                        | _ => (lc, fs)
                        end) body (lc, fs) in
  NoDup (all_loop_labels (snd r)) /\ rng 0 (fst r) (all_loop_labels (snd r)).
Proof.
  induction body as [|n body IH]; intros lc fs N R; cbn [fold_left]; [split; assumption|].
  destruct n; try (apply IH; assumption).
  cbn [generateFunction].
  match goal with |- context [let (_, s) := ?m (mkIrst lc 0 []) in _] =>
    assert (H : lab_spec m); [| destruct (H (mkIrst lc 0 [])) as [C (l & E & Nl & Rl)];
                                destruct (m (mkIrst lc 0 [])) as [u s]; cbn [snd labelCounter code] in *]
  end.
  { apply lab_bind; [apply nolab_lab, nolab_emit; reflexivity | intros _].
    match goal with |- lab_spec (match ?b with _ => _ end) => destruct b; try apply lab_ret end. apply generateStatement_labels. }
  apply IH.
  - match goal with |- context [smap_set fs ?k ?v] => destruct (smap_set_labels fs k v) as [e P] end.
    apply (NoDup_app_remove_r _ e). eapply Permutation_NoDup; [symmetry; exact P|].
    cbn [instructions]. rewrite E. cbn [app].
    apply (nodup_rng 0 lc (labelCounter s)); assumption.
  - match goal with |- context [smap_set fs ?k ?v] => destruct (smap_set_labels fs k v) as [e P] end.
    unfold rng. rewrite Forall_forall. intros x Hx.
    assert (Hx' : In x (all_loop_labels fs ++ loop_labels (code s))).
    { eapply Permutation_in; [exact P|]. apply in_or_app. left. exact Hx. }
    apply in_app_or in Hx' as [Hx' | Hx'].
    + unfold rng in R. rewrite Forall_forall in R. destruct (R _ Hx') as (k & -> & Hk). exists k. split; [reflexivity|lia].
    + rewrite E in Hx'. cbn [app] in Hx'. unfold rng in Rl. rewrite Forall_forall in Rl.
      destruct (Rl _ Hx') as (k & -> & Hk). exists k. split; [reflexivity|lia].
Qed.

(** X14: the [Lk] labels of the loop and branch code are never reused: over
    all the functions [generate] returns, the labels placed by [LABEL Lk]
    instructions are pairwise distinct ([labelCounter] runs on across the
    functions of the program). *)
Theorem generate_loop_labels_unique body :
  NoDup (all_loop_labels (generate (Program_ body))).
Proof.
  cbn [generate].
  destruct (generate_labels_fold body 0 [] (NoDup_nil _) (Forall_nil _)) as [N _]. exact N.
Qed.

